(** * its4: proxy pool, nonce queue, wallet lock and retry loop

    A shallow embedding of [src/proxyManager.js] and [src/mint.js].

    JavaScript runs these programs on one thread: code between two [await]s
    (or between a callback's entry and its return) is atomic.  Each atomic
    block is a Rocq function on an explicit state; the event loop is a step
    relation whose labels are what the environment supplies: the readings
    of [Date.now()], the value of [Math.random()], the firing of a timer,
    the outcome of an external call.  A pending continuation (a timer that
    has not fired, a send that has not completed) is an entry of the state,
    so that how many of them exist at once is something to prove and not
    something assumed. *)

From Stdlib Require Import ZArith QArith Qround Lia List Bool Ascii String.
From stdpp Require Import base option list gmap strings.

Local Open Scope Z_scope.
Local Open Scope nat_scope.

(** ** src/proxyManager.js

    The pool as the current file has it.  The older copy kept at the end
    of [src/mint.js] (lines 745-1010) has the same selection, queue and
    health logic with an interval of 34 ms and no jitter. *)

Module ProxyManager.

(** Line 6 and line 7. *)
Definition MIN_REQUEST_INTERVAL_MS : Z := 100%Z.
Definition MAX_PROXY_FAILURES : nat := 3.

(** A queued task (line 238).  [methodName], [methodArgs] and [txOptions]
    are opaque to the pool and left out; [resolve] and [reject] are the two
    settle functions of one promise, kept as that promise's identity. *)
Record Task := mkTask {
  privateKey : nat;
  nonce : Z;
  promise : nat
}.

(** One element of [this.proxies] (lines 15-25), without the transport
    fields [id], [config], [url] and [agent]. *)
Record Proxy := mkProxy {
  requestQueue : list Task;
  isProcessing : bool;
  failureCount : nat;
  isHealthy : bool;
  lastRequestTime : Z
}.

Record Manager := mkManager {
  proxies : list Proxy;
  currentProxyIndex : nat
}.

Definition newProxy : Proxy := mkProxy [] false 0 true 0%Z.

(** The constructor, for [n] proxy configurations. *)
Definition newManager (n : nat) : Manager := mkManager (replicate n newProxy) 0.

(** *** _selectProxy (lines 55-64) *)

Inductive Selection :=
| Selected (i : nat)      (* [return proxy], the object at index [i] *)
| NoProxy                 (* [return null] *)
| SelectThrew.            (* [proxy] is [undefined]: [proxy.isHealthy] throws *)

(** The [for] loop with [remaining] iterations left; returns the cursor as
    the loop leaves it. *)
Fixpoint selectLoop (ps : list Proxy) (remaining cur : nat) : Selection * nat :=
  match remaining with
  | 0 => (NoProxy, cur)
  | S r =>
      let next := (cur + 1) mod length ps in
      match ps !! cur with
      | None => (SelectThrew, next)
      | Some proxy =>
          if isHealthy proxy then (Selected cur, next)
          else selectLoop ps r next
      end
  end.

Definition _selectProxy (m : Manager) : Selection * Manager :=
  let '(r, cur) := selectLoop (proxies m) (length (proxies m)) (currentProxyIndex m) in
  (r, mkManager (proxies m) cur).

(** The same loop, counting the iterations it runs (one cursor increment
    each). *)
Fixpoint selectExamined (ps : list Proxy) (remaining cur : nat) : nat :=
  match remaining with
  | 0 => 0
  | S r =>
      match ps !! cur with
      | None => 1
      | Some proxy =>
          if isHealthy proxy then 1
          else S (selectExamined ps r ((cur + 1) mod length ps))
      end
  end.

Definition healthyAt (ps : list Proxy) (i : nat) : Prop :=
  exists p, ps !! i = Some p /\ isHealthy p = true.

(** The cursor indexes the array (it starts at 0 and is only ever reduced
    modulo the length). *)
Definition cursorOk (m : Manager) : Prop :=
  currentProxyIndex m < length (proxies m) \/
  (proxies m = [] /\ currentProxyIndex m = 0).

(** A pool of three whose first proxy has been demoted. *)
Definition examplePool : Manager :=
  mkManager [mkProxy [] false 3 false 0%Z; newProxy; newProxy] 0.

(** *** The outcome of a send (lines 198-200 and 210-215) *)

Definition markSuccess (p : Proxy) : Proxy :=
  mkProxy (requestQueue p) (isProcessing p) 0 true (lastRequestTime p).

Definition markFailure (p : Proxy) : Proxy :=
  let c := S (failureCount p) in
  mkProxy (requestQueue p) (isProcessing p) c
          (if MAX_PROXY_FAILURES <=? c then false else isHealthy p)
          (lastRequestTime p).

(** *** The event loop around the pool

    [timers] are the callbacks registered by [setTimeout] at line 86 that
    have not run yet; [sending] are the calls of
    [_sendTransactionThroughProxy] that have started and not reached their
    [finally]; [settled] records the promises whose [resolve] or [reject]
    has been called.  [history] is a log of what the pool did, newest
    first; no code reads it. *)

Record Timer := mkTimer {
  timerProxy : nat;
  timerTask : Task;
  timerSet : Z;        (* [Date.now()] when [setTimeout] was called *)
  timerDelay : Q       (* [delayRequired + jitter] *)
}.

Inductive Settlement := Resolved | Rejected.

(** How the [try] block of [_sendTransactionThroughProxy] ends.  The two
    statements before it (lines 125-126) build the provider and the signer
    from a private key that [mint.js] has already used to build a wallet;
    they are taken not to throw. *)
Inductive SendOutcome :=
| Receipt      (* the [try] block reaches [task.resolve(receipt)] *)
| Thrown.      (* something in the [try] block throws *)

Inductive Effect :=
| EffLastRequestTime (i : nat) (t : Z)
| EffMark (i : nat) (failures : nat) (healthy : bool)
| EffSettle (p : nat) (s : Settlement)
| EffProcessQueue (i : nat).

Record World := mkWorld {
  manager : Manager;
  timers : list Timer;
  sending : list (nat * Task);
  settled : list (nat * Settlement);
  nextPromise : nat;
  history : list Effect
}.

Definition newWorld (n : nat) : World := mkWorld (newManager n) [] [] [] 0 [].

Definition setProxy (i : nat) (p : Proxy) (w : World) : World :=
  mkWorld (mkManager (<[i := p]> (proxies (manager w))) (currentProxyIndex (manager w)))
          (timers w) (sending w) (settled w) (nextPromise w) (history w).

Definition addTimer (t : Timer) (w : World) : World :=
  mkWorld (manager w) (t :: timers w) (sending w) (settled w) (nextPromise w) (history w).

Definition addSending (i : nat) (t : Task) (w : World) : World :=
  mkWorld (manager w) (timers w) ((i, t) :: sending w) (settled w) (nextPromise w) (history w).

Definition record (e : Effect) (w : World) : World :=
  mkWorld (manager w) (timers w) (sending w) (settled w) (nextPromise w) (e :: history w).

(** [task.resolve(..)] or [task.reject(..)]. *)
Definition settle (p : nat) (s : Settlement) (w : World) : World :=
  mkWorld (manager w) (timers w) (sending w) ((p, s) :: settled w) (nextPromise w)
          (EffSettle p s :: history w).

(** Line 79. *)
Definition delayRequired (now : Z) (proxy : Proxy) : Z :=
  Z.max 0 (MIN_REQUEST_INTERVAL_MS - (now - lastRequestTime proxy)).

(** [_processQueue] (lines 66-92) up to and including the call of
    [setTimeout]; [now] is the reading of [Date.now()] at line 78 and
    [jitter] the value of [Math.random() * 10] at line 85. *)
Definition _processQueue (i : nat) (now : Z) (jitter : Q) (w : World) : World :=
  match proxies (manager w) !! i with
  | None => w
  | Some proxy =>
      if isProcessing proxy || negb (isHealthy proxy) then w
      else
        match requestQueue proxy with
        | [] => w
        | task :: rest =>
            let proxy' :=
              mkProxy rest true (failureCount proxy) (isHealthy proxy)
                      (lastRequestTime proxy) in
            addTimer
              (mkTimer i task now (inject_Z (delayRequired now proxy) + jitter))
              (setProxy i proxy' w)
        end
  end.

(** The timer callback (lines 86-91) up to the first [await] inside
    [_sendTransactionThroughProxy]; [fire] is [Date.now()] at line 87. *)
Definition timerFire (tm : Timer) (fire : Z) (w : World) : World :=
  match proxies (manager w) !! timerProxy tm with
  | None => w
  | Some proxy =>
      let proxy' :=
        mkProxy (requestQueue proxy) (isProcessing proxy) (failureCount proxy)
                (isHealthy proxy) fire in
      addSending (timerProxy tm) (timerTask tm)
        (record (EffLastRequestTime (timerProxy tm) fire)
           (setProxy (timerProxy tm) proxy' w))
  end.

Definition mark (o : SendOutcome) (proxy : Proxy) : Proxy :=
  match o with
  | Receipt => markSuccess proxy
  | Thrown => markFailure proxy
  end.

Definition settlementOf (o : SendOutcome) : Settlement :=
  match o with
  | Receipt => Resolved
  | Thrown => Rejected
  end.

Definition clearProcessing (proxy : Proxy) : Proxy :=
  mkProxy (requestQueue proxy) false (failureCount proxy) (isHealthy proxy)
          (lastRequestTime proxy).

(** Line 219. *)
Definition drainsAgain (proxy : Proxy) : bool :=
  isHealthy proxy && (0 <? length (requestQueue proxy)).

(** The end of [_sendTransactionThroughProxy] once the [try] block has
    either produced a receipt or thrown: lines 198-200 or 210-215, then
    line 217. *)
Definition finishSend (i : nat) (task : Task) (o : SendOutcome) (w : World)
    : World :=
  match proxies (manager w) !! i with
  | None => w
  | Some proxy =>
      let proxy1 := mark o proxy in
      let w1 :=
        record (EffMark i (failureCount proxy1) (isHealthy proxy1))
               (setProxy i proxy1 w) in
      let w2 := settle (promise task) (settlementOf o) w1 in
      setProxy i (clearProcessing proxy1) w2
  end.

(** ... and the rest of the [finally] block (lines 219-224).  [now] and
    [jitter] are read by the nested [_processQueue]. *)
Definition sendDone (i : nat) (task : Task) (o : SendOutcome)
    (now : Z) (jitter : Q) (w : World) : World :=
  let w3 := finishSend i task o w in
  match proxies (manager w3) !! i with
  | None => w3
  | Some proxy =>
      if drainsAgain proxy
      then _processQueue i now jitter (record (EffProcessQueue i) w3)
      else w3
  end.

(** What [sendDone] does, in program order. *)
Definition sendDoneEffects (i : nat) (task : Task) (o : SendOutcome)
    (proxy : Proxy) : list Effect :=
  let proxy1 := mark o proxy in
  [EffMark i (failureCount proxy1) (isHealthy proxy1);
   EffSettle (promise task) (settlementOf o)]
  ++ (if drainsAgain (clearProcessing proxy1) then [EffProcessQueue i] else []).

Definition pushTask (t : Task) (proxy : Proxy) : Proxy :=
  mkProxy (requestQueue proxy ++ [t]) (isProcessing proxy) (failureCount proxy)
          (isHealthy proxy) (lastRequestTime proxy).

Definition withManager (m : Manager) (w : World) : World :=
  mkWorld m (timers w) (sending w) (settled w) (nextPromise w) (history w).

Definition freshPromise (w : World) : World :=
  mkWorld (manager w) (timers w) (sending w) (settled w) (S (nextPromise w)) (history w).

(** [submitTransaction] (lines 228-247) up to line 240: the proxy the
    task was pushed to, if any, and the state. *)
Definition enqueue (pk : nat) (n : Z) (w : World) : option nat * World :=
  let p := nextPromise w in
  let '(sel, m') := _selectProxy (manager w) in
  let w1 := freshPromise (withManager m' w) in
  match sel with
  | Selected i =>
      match proxies m' !! i with
      | None => (None, w1)
      | Some proxy => (Some i, setProxy i (pushTask (mkTask pk n p) proxy) w1)
      end
  | NoProxy => (None, settle p Rejected w1)
  | SelectThrew => (None, settle p Rejected w1)
  end.

(** [submitTransaction]: the promise it returns and the state after the
    executor has run. *)
Definition submitTransaction (pk : nat) (n : Z) (now : Z) (jitter : Q)
    (w : World) : nat * World :=
  let '(sel, w2) := enqueue pk n w in
  (nextPromise w,
   match sel with
   | None => w2
   | Some i =>
       match proxies (manager w2) !! i with
       | None => w2
       | Some proxy =>
           if isProcessing proxy then w2 else _processQueue i now jitter w2
       end
   end).

Definition dropTimer (k : nat) (w : World) : World :=
  mkWorld (manager w) (delete k (timers w)) (sending w) (settled w)
          (nextPromise w) (history w).

Definition dropSending (k : nat) (w : World) : World :=
  mkWorld (manager w) (timers w) (delete k (sending w)) (settled w)
          (nextPromise w) (history w).

(** What the environment does to the pool.  A timer never runs before its
    delay has elapsed on the clock that [Date.now()] reads, and
    [Math.random()] is not negative. *)
Inductive step : World -> World -> Prop :=
| step_submit w pk n now jitter :
    (0 <= jitter)%Q ->
    step w (snd (submitTransaction pk n now jitter w))
| step_timer w k tm fire :
    timers w !! k = Some tm ->
    (timerSet tm + Qfloor (timerDelay tm) <= fire)%Z ->
    step w (timerFire tm fire (dropTimer k w))
| step_send w k i task o now jitter :
    sending w !! k = Some (i, task) ->
    (0 <= jitter)%Q ->
    step w (sendDone i task o now jitter (dropSending k w)).

Inductive steps : World -> World -> Prop :=
| steps_refl w : steps w w
| steps_more w1 w2 w3 : steps w1 w2 -> step w2 w3 -> steps w1 w3.

Definition reachable (w : World) : Prop := exists n, steps (newWorld n) w.

(** The timestamps [proxy.lastRequestTime] was given for proxy [i], newest
    first. *)
Fixpoint dispatchTimes (i : nat) (h : list Effect) : list Z :=
  match h with
  | [] => []
  | EffLastRequestTime j t :: h' =>
      if Nat.eqb i j then t :: dispatchTimes i h' else dispatchTimes i h'
  | _ :: h' => dispatchTimes i h'
  end.

(** Every timestamp is at least [MIN_REQUEST_INTERVAL_MS] after the one
    before it. *)
Fixpoint spaced (gap : Z) (l : list Z) : Prop :=
  match l with
  | t2 :: rest =>
      match rest with
      | t1 :: _ => (t1 + gap <= t2)%Z
      | [] => True
      end /\ spaced gap rest
  | [] => True
  end.

(** The promises of the tasks that are queued, waiting on a timer or being
    sent, and all promises the pool has handed out. *)
Definition queuePromises (p : Proxy) : list nat := promise <$> requestQueue p.

Definition queuedPromises (ps : list Proxy) : list nat := ps ≫= queuePromises.

Definition pendingPromises (w : World) : list nat :=
  queuedPromises (proxies (manager w))
  ++ ((fun t => promise (timerTask t)) <$> timers w)
  ++ ((fun x => promise (snd x)) <$> sending w).

Definition allPromises (w : World) : list nat :=
  pendingPromises w ++ (fst <$> settled w).

(** The proxies that have a continuation outstanding. *)
Definition busy (w : World) : list nat :=
  (timerProxy <$> timers w) ++ (fst <$> sending w).

(** What holds of every state the pool can be in. *)
Record Inv (w : World) : Prop := mkInv {
  inv_cursor : cursorOk (manager w);
  inv_busy_nodup : NoDup (busy w);
  inv_busy_processing :
    forall i, i ∈ busy w ->
      exists p, proxies (manager w) !! i = Some p /\ isProcessing p = true;
  inv_health :
    forall i p, proxies (manager w) !! i = Some p ->
      if isHealthy p then failureCount p < MAX_PROXY_FAILURES
      else failureCount p = MAX_PROXY_FAILURES /\ isProcessing p = false;
  inv_timer :
    forall tm p, tm ∈ timers w ->
      proxies (manager w) !! timerProxy tm = Some p ->
      (lastRequestTime p + MIN_REQUEST_INTERVAL_MS
       <= timerSet tm + Qfloor (timerDelay tm))%Z;
  inv_dispatch :
    forall i p, proxies (manager w) !! i = Some p ->
      spaced MIN_REQUEST_INTERVAL_MS (dispatchTimes i (history w)) /\
      forall t, head (dispatchTimes i (history w)) = Some t ->
                t = lastRequestTime p;
  inv_promises_nodup : NoDup (allPromises w);
  inv_promises_bound : forall q, q ∈ allPromises w -> q < nextPromise w
}.

(** The step relation as a function of what the environment chooses, for
    running the pool on a given trace. *)
Inductive Input :=
| InSubmit (pk : nat) (n : Z) (now : Z) (jitter : Q)
| InTimer (k : nat) (fire : Z)
| InSend (k : nat) (o : SendOutcome) (now : Z) (jitter : Q).

Definition feed (a : Input) (w : World) : option World :=
  match a with
  | InSubmit pk n now jitter =>
      if Qle_bool 0 jitter
      then Some (snd (submitTransaction pk n now jitter w)) else None
  | InTimer k fire =>
      match timers w !! k with
      | Some tm =>
          if (timerSet tm + Qfloor (timerDelay tm) <=? fire)%Z
          then Some (timerFire tm fire (dropTimer k w)) else None
      | None => None
      end
  | InSend k o now jitter =>
      match sending w !! k with
      | Some (i, task) =>
          if Qle_bool 0 jitter
          then Some (sendDone i task o now jitter (dropSending k w)) else None
      | None => None
      end
  end.

Fixpoint feedAll (l : list Input) (w : World) : option World :=
  match l with
  | [] => Some w
  | a :: rest =>
      match feed a w with
      | Some w' => feedAll rest w'
      | None => None
      end
  end.

(** One proxy, four submissions, and the first three sends fail: the
    proxy is demoted with the fourth task still queued. *)
Definition strandingTrace : list Input :=
  [InSubmit 1 0 0 0; InSubmit 1 1 0 0; InSubmit 1 2 0 0; InSubmit 1 3 0 0;
   InTimer 0 100; InSend 0 Thrown 150 0;
   InTimer 0 200; InSend 0 Thrown 250 0;
   InTimer 0 300; InSend 0 Thrown 350 0]%Z.

Definition strandedWorld : World :=
  default (newWorld 1) (feedAll strandingTrace (newWorld 1)).

(** One proxy whose first send takes from time 1000 to time 9000. *)
Definition slowSendTrace : list Input :=
  [InSubmit 1 0 950 0; InTimer 0 1000; InSend 0 Receipt 9000 0]%Z.

Definition slowSendWorld : World :=
  default (newWorld 1) (feedAll slowSendTrace (newWorld 1)).

(** *** More about the pool *)

(** The tasks of proxy [i] that are on a timer or being sent. *)
Definition inFlightAt (i : nat) (w : World) : nat :=
  length (filter (fun j => j = i) (busy w)).

(** Promises are numbered in the order [submitTransaction] hands them out,
    so an increasing list of promises is a list in submission order. *)
Fixpoint increasing (l : list nat) : Prop :=
  match l with
  | [] => True
  | a :: rest => (forall b, b ∈ rest -> a < b) /\ increasing rest
  end.

(** The promises of the tasks of proxy [i] that have left its queue and
    whose send has not finished. *)
Definition flightPromises (i : nat) (w : World) : list nat :=
  ((fun t => promise (timerTask t)) <$> filter (fun t => timerProxy t = i) (timers w))
  ++ ((fun x => promise (snd x)) <$> filter (fun x => fst x = i) (sending w)).

(** What holds of every state of the pool besides [Inv].  Between the
    moment a proxy's flag is cleared (line 217) or a task is pushed (line
    240) and the call of [_processQueue] that follows, the proxy [except]
    may be idle and healthy with a task queued. *)
Record FlightBut (except : option nat) (w : World) : Prop := mkFlight {
  flight_busy :
    forall i p, proxies (manager w) !! i = Some p ->
      isProcessing p = true -> i ∈ busy w;
  flight_idle :
    forall i p, Some i <> except -> proxies (manager w) !! i = Some p ->
      isProcessing p = false -> isHealthy p = true -> requestQueue p = [];
  flight_count : length (allPromises w) = nextPromise w;
  flight_fifo :
    forall i p, proxies (manager w) !! i = Some p ->
      increasing (queuePromises p) /\
      forall f q, f ∈ flightPromises i w -> q ∈ queuePromises p -> f < q
}.

Definition Flight (w : World) : Prop := FlightBut None w.

(** [k] calls of [_selectProxy] one after another. *)
Fixpoint selectMany (k : nat) (m : Manager) : list Selection :=
  match k with
  | 0 => []
  | S k' =>
      let '(r, m') := _selectProxy m in
      r :: selectMany k' m'
  end.

(** Two proxies and three submissions, of which the first has been put on
    the wire. *)
Definition pipelineTrace : list Input :=
  [InSubmit 1 0 0 0; InSubmit 2 0 0 0; InSubmit 1 1 0 0; InTimer 1 100]%Z.

Definition pipelineWorld : World :=
  default (newWorld 2) (feedAll pipelineTrace (newWorld 2)).

End ProxyManager.

(** ** src/mint.js

    The file holds two revisions of the script.  The nonce queue is the
    same in both and the retry loop differs in one test; [withWalletLock],
    the concurrency cap and the per-wallet partition exist in the second
    one (lines 313-745) only.  The definitions follow the second revision
    unless they say otherwise; the loop of the first revision, which starts
    its flows without any lock, is [FirstMain] below. *)

Module Mint.

(** Lines 316-319. *)
Definition MAX_TRANSACTION_RETRIES : nat := 5.
Definition RETRY_DELAY_MS : Z := 1000%Z.
Definition NONCE_RETRY_DELAY_MS : Z := 500%Z.
Definition DIRECT_PROVIDER_CALL_INTERVAL_MS : Z := 100%Z.

(** *** The direct-provider nonce queue (lines 421-466) *)

(** A queue entry; [attemptInfo] is only logged, and [resolve]/[reject]
    are kept as the identity of their promise. *)
Record NonceRequest := mkNonceRequest {
  walletAddress : nat;
  requestPromise : nat
}.

(** An activation of [processDirectNonceQueue] that has passed the guard
    at line 427 and is suspended at one of its two [await]s. *)
Inductive Activation :=
| Delaying (r : NonceRequest) (set ms : Z)   (* line 438 *)
| Calling (r : NonceRequest) (start : Z).    (* line 442 *)

Inductive FetchResult :=
| FetchOk (n : Z)
| FetchErr.

(** The three module-level variables, the suspended activations, and three
    logs that no code reads: every request in the order it was pushed, the
    calls of [directProvider.getTransactionCount] with the time each was
    made (newest first), and the settled promises. *)
Record NonceQueue := mkNonceQueue {
  directProviderNonceQueue : list NonceRequest;
  isProcessingDirectNonceQueue : bool;
  lastDirectNonceCallTime : Z;
  activations : list Activation;
  nextRequest : nat;
  requested : list NonceRequest;
  calls : list (NonceRequest * Z);
  answered : list (nat * FetchResult)
}.

Definition newNonceQueue : NonceQueue :=
  mkNonceQueue [] false 0%Z [] 0 [] [] [].

(** [processDirectNonceQueue] up to its first [await]; [now] is
    [Date.now()] at line 435. *)
Definition processDirectNonceQueue (now : Z) (q : NonceQueue) : NonceQueue :=
  if isProcessingDirectNonceQueue q then q
  else
    match directProviderNonceQueue q with
    | [] => q
    | r :: rest =>
        let timeSinceLastCall := (now - lastDirectNonceCallTime q)%Z in
        if (timeSinceLastCall <? DIRECT_PROVIDER_CALL_INTERVAL_MS)%Z
        then
          mkNonceQueue rest true (lastDirectNonceCallTime q)
            (Delaying r now (DIRECT_PROVIDER_CALL_INTERVAL_MS - timeSinceLastCall)
               :: activations q)
            (nextRequest q) (requested q) (calls q) (answered q)
        else
          mkNonceQueue rest true (lastDirectNonceCallTime q)
            (Calling r now :: activations q)
            (nextRequest q) (requested q) ((r, now) :: calls q) (answered q)
    end.

(** [fetchNonceViaQueue] (lines 459-466): the promise it returns and the
    state after the executor has run. *)
Definition fetchNonceViaQueue (addr : nat) (now : Z) (q : NonceQueue)
    : nat * NonceQueue :=
  let r := mkNonceRequest addr (nextRequest q) in
  let q1 :=
    mkNonceQueue (directProviderNonceQueue q ++ [r])
      (isProcessingDirectNonceQueue q) (lastDirectNonceCallTime q)
      (activations q) (S (nextRequest q)) (requested q ++ [r]) (calls q)
      (answered q) in
  (nextRequest q,
   if isProcessingDirectNonceQueue q1 then q1 else processDirectNonceQueue now q1).

(** The [delay] of line 438 is over: the call of line 442 is made, at a
    time [fire] that nothing in the program reads. *)
Definition delayOver (k : nat) (r : NonceRequest) (fire : Z) (q : NonceQueue)
    : NonceQueue :=
  mkNonceQueue (directProviderNonceQueue q) (isProcessingDirectNonceQueue q)
    (lastDirectNonceCallTime q)
    (Calling r fire :: delete k (activations q))
    (nextRequest q) (requested q) ((r, fire) :: calls q) (answered q).

(** [getTransactionCount] has answered (lines 443-445 or 447-450), then the
    [finally] block (lines 452-455).  [now] is [Date.now()] at line 443 or
    447 and [now'] the one read by the nested call. *)
Definition callOver (k : nat) (r : NonceRequest) (res : FetchResult)
    (now now' : Z) (q : NonceQueue) : NonceQueue :=
  let q1 :=
    mkNonceQueue (directProviderNonceQueue q) false now
      (delete k (activations q)) (nextRequest q) (requested q) (calls q)
      ((requestPromise r, res) :: answered q) in
  match directProviderNonceQueue q1 with
  | [] => q1
  | _ :: _ => processDirectNonceQueue now' q1
  end.

(** The environment of the nonce queue.  A [delay] does not end early, and
    the clock does not run backwards while a call is being made. *)
Inductive qstep : NonceQueue -> NonceQueue -> Prop :=
| qstep_fetch q addr now :
    qstep q (snd (fetchNonceViaQueue addr now q))
| qstep_delay q k r set ms fire :
    activations q !! k = Some (Delaying r set ms) ->
    (set + ms <= fire)%Z ->
    qstep q (delayOver k r fire q)
| qstep_call q k r start res now now' :
    activations q !! k = Some (Calling r start) ->
    (start <= now)%Z ->
    qstep q (callOver k r res now now' q).

Inductive qsteps : NonceQueue -> NonceQueue -> Prop :=
| qsteps_refl q : qsteps q q
| qsteps_more q1 q2 q3 : qsteps q1 q2 -> qstep q2 q3 -> qsteps q1 q3.

Definition isCalling (a : Activation) : bool :=
  match a with
  | Calling _ _ => true
  | Delaying _ _ _ => false
  end.

(** The authoritative calls in flight. *)
Definition inFlight (q : NonceQueue) : nat :=
  length (filter (fun a => isCalling a = true) (activations q)).

(** What holds of every state of the nonce queue: at most one activation
    is suspended, the flag is set exactly while there is one, the requests
    served so far and the ones waiting make up the requests in the order
    they came, and the calls made so far are spaced. *)
Definition QInv (q : NonceQueue) : Prop :=
  ProxyManager.spaced DIRECT_PROVIDER_CALL_INTERVAL_MS (snd <$> calls q) /\
  match activations q with
  | [] =>
      isProcessingDirectNonceQueue q = false /\
      requested q = rev (fst <$> calls q) ++ directProviderNonceQueue q /\
      (forall t, head (snd <$> calls q) = Some t ->
                 (t <= lastDirectNonceCallTime q)%Z)
  | [Delaying r set ms] =>
      isProcessingDirectNonceQueue q = true /\
      requested q = rev (fst <$> calls q) ++ r :: directProviderNonceQueue q /\
      (forall t, head (snd <$> calls q) = Some t ->
                 (t <= lastDirectNonceCallTime q)%Z) /\
      (lastDirectNonceCallTime q + DIRECT_PROVIDER_CALL_INTERVAL_MS <= set + ms)%Z
  | [Calling r start] =>
      isProcessingDirectNonceQueue q = true /\
      requested q = rev (fst <$> calls q) ++ directProviderNonceQueue q /\
      head (calls q) = Some (r, start)
  | _ => False
  end.

(** The step relation of the queue as a function of what the environment
    chooses. *)
Inductive QInput :=
| QFetch (addr : nat) (now : Z)
| QDelayOver (k : nat) (fire : Z)
| QCallOver (k : nat) (res : FetchResult) (now now' : Z).

Definition qfeed (a : QInput) (q : NonceQueue) : option NonceQueue :=
  match a with
  | QFetch addr now => Some (snd (fetchNonceViaQueue addr now q))
  | QDelayOver k fire =>
      match activations q !! k with
      | Some (Delaying r set ms) =>
          if (set + ms <=? fire)%Z then Some (delayOver k r fire q) else None
      | _ => None
      end
  | QCallOver k res now now' =>
      match activations q !! k with
      | Some (Calling r start) =>
          if (start <=? now)%Z then Some (callOver k r res now now' q) else None
      | _ => None
      end
  end.

Fixpoint qfeedAll (l : list QInput) (q : NonceQueue) : option NonceQueue :=
  match l with
  | [] => Some q
  | a :: rest =>
      match qfeed a q with
      | Some q' => qfeedAll rest q'
      | None => None
      end
  end.

(** Three wallets ask for their nonce at the same moment. *)
Definition burstTrace : list QInput :=
  [QFetch 1 1000; QFetch 2 1000; QFetch 3 1000;
   QCallOver 0 (FetchOk 7) 1040 1040;
   QDelayOver 0 1140; QCallOver 0 FetchErr 1150 1150;
   QDelayOver 0 1250]%Z.

Definition burstQueue : NonceQueue :=
  default newNonceQueue (qfeedAll burstTrace newNonceQueue).

(** *** Errors and their classification (lines 648-652 and 674) *)

(** What the retry loop reads of a caught error: [err.message] is a
    string, [reason] is [err.reason] when it is truthy, and [code] is
    [err.code.toString()] when [err.code] is truthy. *)
Record JsError := mkJsError {
  message : string;
  reason : option string;
  code : option string
}.

Definition lowerAscii (c : ascii) : ascii :=
  let n := nat_of_ascii c in
  if (65 <=? n) && (n <=? 90) then ascii_of_nat (n + 32) else c.

(** [toLowerCase] on the ASCII letters.  On a string of ASCII characters
    this is what JavaScript computes.  Outside ASCII it is not: JavaScript
    also maps the Kelvin sign U+212A to [k], so that a message can contain
    "exceeds block gas limit" or "full block not allowed" after JavaScript's
    lower-casing and not after this one.  The theorems that need a message
    to fail such a test assume that the message [isAscii]. *)
Fixpoint toLowerCase (s : string) : string :=
  match s with
  | EmptyString => EmptyString
  | String c s' => String (lowerAscii c) (toLowerCase s')
  end.

(** The string holds code units below 128 only. *)
Fixpoint isAscii (s : string) : bool :=
  match s with
  | EmptyString => true
  | String c s' => (nat_of_ascii c <? 128) && isAscii s'
  end.

Fixpoint includes (s pat : string) : bool :=
  String.prefix pat s ||
  match s with
  | EmptyString => false
  | String _ s' => includes s' pat
  end.

Definition errorMessage (e : JsError) : string := toLowerCase (message e).
Definition errorReason (e : JsError) : string :=
  match reason e with Some r => toLowerCase r | None => EmptyString end.
Definition errorCode (e : JsError) : string :=
  match code e with Some c => toLowerCase c | None => EmptyString end.

(** The condition of line 652. *)
Definition isNonceError (e : JsError) : bool :=
  includes (errorMessage e) "nonce too low"
  || includes (errorMessage e) "nonce has already been used"
  || includes (errorMessage e) "replacement transaction underpriced"
  || includes (errorReason e) "nonce"
  || String.eqb (errorCode e) "nonce_expired"
  || String.eqb (errorCode e) "-32003".

(** The condition of line 674 (the first revision, line 266, has only the
    first three patterns). *)
Definition isRetryableError (e : JsError) : bool :=
  includes (errorMessage e) "txpool is full"
  || includes (errorMessage e) "exceeds block gas limit"
  || includes (errorMessage e) "insufficient funds"
  || includes (errorMessage e) "fee too low"
  || includes (errorMessage e) "transaction underpriced".

(** *** The retry loop of one transaction (lines 627-689)

    The loop is suspended at one of five [await]s or has left the
    operation.  [resume] runs it from one suspension to the next. *)

Inductive WorkerPc :=
| AwaitSend (attempt : nat)                       (* line 639 *)
| AwaitNonceDelay (attempt nonceAttempt : nat)    (* line 656 *)
| AwaitNonceFetch (attempt nonceAttempt : nat)    (* line 659 *)
| AwaitRetryableDelay (attempt : nat)             (* line 676 *)
| AwaitGeneralDelay (attempt : nat)               (* line 684 *)
| Returned                                        (* line 644 *)
| Threw.                                          (* line 682 or 689 *)

(** What an [await] resumes with. *)
Inductive Resume :=
| SendResolved
| SendRejected (e : JsError)
| TimerElapsed
| NonceResolved (n : Z)
| NonceRejected.

(** What the loop does to the outside, in program order. *)
Inductive Action :=
| ActSubmit (nonce : Z)      (* [proxyManager.submitTransaction(.., currentNonce, ..)] *)
| ActDelay (ms : Z)
| ActFetchNonce              (* [fetchNonceViaQueue(..)] *)
| ActSetNonce (n : Z)        (* line 661 *)
| ActIncrement.              (* line 642 *)

Definition Outcome : Type := WorkerPc * Z * list Action.

(** The head of the outer [for] loop, entered with [attempt]. *)
Definition startAttempt (attempt : nat) (nonce : Z) : Outcome :=
  if attempt <? MAX_TRANSACTION_RETRIES
  then (AwaitSend attempt, nonce, [ActSubmit nonce])
  else (Threw, nonce, []).

(** Lines 679-684. *)
Definition lastCheck (attempt : nat) (nonce : Z) : Outcome :=
  if MAX_TRANSACTION_RETRIES - 1 <=? attempt
  then (Threw, nonce, [])
  else (AwaitGeneralDelay attempt, nonce, [ActDelay RETRY_DELAY_MS]).

(** The head of the inner [for] loop (line 655) with [nonceRefetched]
    still false. *)
Definition startNonceAttempt (attempt nonceAttempt : nat) (nonce : Z) : Outcome :=
  if nonceAttempt <? MAX_TRANSACTION_RETRIES
  then (AwaitNonceDelay attempt nonceAttempt, nonce,
        [ActDelay (NONCE_RETRY_DELAY_MS * (Z.of_nat nonceAttempt + 1))])
  else lastCheck attempt nonce.

Definition after (acts : list Action) (o : Outcome) : Outcome :=
  let '(pc, n, acts') := o in (pc, n, acts ++ acts').

(** [walletInfo.currentNonce] is a JavaScript number.  [currentNonce++]
    adds exactly one to a non-negative integer below 2^53 and leaves 2^53
    as it is; [Z] and [+ 1] stand for the number and the increment on the
    integers below that limit, and the theorems about the increment assume
    that the nonces incremented are [safeNonce]s. *)
Definition nonceLimit : Z := 9007199254740992%Z.

Definition safeNonce (n : Z) : Prop := (0 <= n < nonceLimit)%Z.

(** The loop resumed at [pc] with [r], while [walletInfo.currentNonce] is
    [nonce] (a [safeNonce], see above, where line 642 is reached). *)
Definition resume (pc : WorkerPc) (nonce : Z) (r : Resume) : option Outcome :=
  match pc, r with
  | AwaitSend attempt, SendResolved =>
      Some (Returned, (nonce + 1)%Z, [ActIncrement])
  | AwaitSend attempt, SendRejected e =>
      if isNonceError e then Some (startNonceAttempt attempt 0 nonce)
      else if isRetryableError e
      then Some (AwaitRetryableDelay attempt, nonce, [ActDelay RETRY_DELAY_MS])
      else Some (lastCheck attempt nonce)
  | AwaitNonceDelay attempt nonceAttempt, TimerElapsed =>
      Some (AwaitNonceFetch attempt nonceAttempt, nonce, [ActFetchNonce])
  | AwaitNonceFetch attempt nonceAttempt, NonceResolved newNonce =>
      Some (after [ActSetNonce newNonce]
              (if attempt <? MAX_TRANSACTION_RETRIES - 1
               then startAttempt (S attempt) newNonce
               else lastCheck attempt newNonce))
  | AwaitNonceFetch attempt nonceAttempt, NonceRejected =>
      Some (startNonceAttempt attempt (S nonceAttempt) nonce)
  | AwaitRetryableDelay attempt, TimerElapsed =>
      Some (if attempt <? MAX_TRANSACTION_RETRIES - 1
            then startAttempt (S attempt) nonce
            else lastCheck attempt nonce)
  | AwaitGeneralDelay attempt, TimerElapsed =>
      Some (startAttempt (S attempt) nonce)
  | _, _ => None
  end.

Definition terminal (pc : WorkerPc) : bool :=
  match pc with
  | Returned | Threw => true
  | _ => false
  end.

(** One transaction run to its end against an environment that answers
    the [k]-th call of [submitTransaction] with [sendAnswer k] and the
    [k]-th call of [fetchNonceViaQueue] with [nonceAnswer k]; timers always
    elapse. *)
Record Answers := mkAnswers {
  sendAnswer : nat -> option JsError;     (* [None]: the promise resolves *)
  nonceAnswer : nat -> FetchResult
}.

Record Run := mkRun {
  runPc : WorkerPc;
  runNonce : Z;
  runActions : list Action;     (* oldest first *)
  runSends : nat;               (* answers of [submitTransaction] consumed *)
  runFetches : nat
}.

Definition nextResume (env : Answers) (r : Run) : option Resume :=
  match runPc r with
  | AwaitSend _ =>
      Some (match sendAnswer env (runSends r) with
            | None => SendResolved
            | Some e => SendRejected e
            end)
  | AwaitNonceFetch _ _ =>
      Some (match nonceAnswer env (runFetches r) with
            | FetchOk n => NonceResolved n
            | FetchErr => NonceRejected
            end)
  | AwaitNonceDelay _ _ | AwaitRetryableDelay _ | AwaitGeneralDelay _ =>
      Some TimerElapsed
  | Returned | Threw => None
  end.

Definition runStep (env : Answers) (r : Run) : option Run :=
  match nextResume env r with
  | None => None
  | Some x =>
      match resume (runPc r) (runNonce r) x with
      | None => None
      | Some (pc, n, acts) =>
          Some (mkRun pc n (runActions r ++ acts)
                  (match runPc r with AwaitSend _ => S (runSends r) | _ => runSends r end)
                  (match runPc r with AwaitNonceFetch _ _ => S (runFetches r) | _ => runFetches r end))
      end
  end.

Fixpoint runFor (fuel : nat) (env : Answers) (r : Run) : Run :=
  match fuel with
  | 0 => r
  | S f =>
      match runStep env r with
      | None => r
      | Some r' => runFor f env r'
      end
  end.

Definition startRun (nonce : Z) : Run :=
  let '(pc, n, acts) := startAttempt 0 nonce in mkRun pc n acts 0 0.

(** Enough resumptions for any transaction: five attempts of at most one
    send, five delays and five fetches, and one final delay each. *)
Definition enoughFuel : nat := 60.

Definition transaction (env : Answers) (nonce : Z) : Run :=
  runFor enoughFuel env (startRun nonce).

Definition isSubmit (a : Action) : bool :=
  match a with ActSubmit _ => true | _ => false end.

Definition isSetNonce (a : Action) : bool :=
  match a with ActSetNonce _ => true | _ => false end.

(** The physical attempts of a run. *)
Definition attempts (r : Run) : nat :=
  length (filter (fun a => isSubmit a = true) (runActions r)).

(** The nonce of the last call of [submitTransaction]: for a run that
    returned, the nonce its transaction was sent with. *)
Fixpoint lastSubmitted (acts : list Action) : option Z :=
  match acts with
  | [] => None
  | a :: rest =>
      match lastSubmitted rest with
      | Some n => Some n
      | None => match a with ActSubmit n => Some n | _ => None end
      end
  end.

(** The transactions of one wallet one after another, as [withWalletLock]
    runs them in the second revision: each starts from the nonce the one
    before left.  The first revision (lines 207-231) has no lock and runs
    the flows of a wallet side by side, see [FirstMain]; this definition
    says nothing about it. *)
Fixpoint walletRuns (envs : list Answers) (nonce : Z) : list Run :=
  match envs with
  | [] => []
  | env :: rest =>
      let r := transaction env nonce in
      r :: walletRuns rest (runNonce r)
  end.

(** The nonce each successful transaction was sent with, oldest first. *)
Fixpoint usedNonces (rs : list Run) : list Z :=
  match rs with
  | [] => []
  | r :: rest =>
      match runPc r, lastSubmitted (runActions r) with
      | Returned, Some n => n :: usedNonces rest
      | _, _ => usedNonces rest
      end
  end.

(** An environment in which the provider never answers a re-fetch. *)
Definition noAnswers : nat -> FetchResult := fun _ => FetchErr.

Definition nonceTooLow : JsError :=
  mkJsError "nonce too low" None (Some "NONCE_EXPIRED").

(** The first call of [submitTransaction] resolves. *)
Definition sendsAtOnce : Answers := mkAnswers (fun _ => None) noAnswers.

(** The first call is rejected with a nonce error, the provider then
    reports [n], and the second call resolves. *)
Definition conflictThenRefetch (n : Z) : Answers :=
  mkAnswers (fun k => match k with 0 => Some nonceTooLow | _ => None end)
            (fun _ => FetchOk n).

(** Every call is rejected with a nonce error and every re-fetch is
    answered with [n]. *)
Definition alwaysConflict (n : Z) : Answers :=
  mkAnswers (fun _ => Some nonceTooLow) (fun _ => FetchOk n).

(** Each element is the one before it plus one. *)
Fixpoint consecutive (l : list Z) : Prop :=
  match l with
  | a :: rest =>
      match rest with
      | b :: _ => b = (a + 1)%Z
      | [] => True
      end /\ consecutive rest
  | [] => True
  end.

(** *** withWalletLock (lines 524-551) and the flows started by main *)

(** An element of [activeWallets]. *)
Record WalletInfo := mkWalletInfo {
  address : nat;
  currentNonce : Z
}.

(** A call of [withWalletLock] whose operation is the retry loop: it is
    suspended at line 531 on a lock promise, or inside the operation
    holding the promise it stored at line 541, or it is over. *)
Inductive FlowPc :=
| AwaitLock (p : nat)
| InOperation (lock : nat) (pc : WorkerPc)
| Over (fulfilled : bool).

Record Flow := mkFlow {
  flowWallet : nat;       (* index into [activeWallets] *)
  flowPc : FlowPc
}.

(** [resolvedLocks] are the lock promises whose [releaseLock] was called;
    [trail] logs which flow did what for which wallet, newest first. *)
Record System := mkSystem {
  walletInfos : list WalletInfo;
  walletLocks : gmap nat nat;
  resolvedLocks : gset nat;
  nextLock : nat;
  flows : list Flow;
  trail : list (nat * nat * Action)
}.

Definition newSystem (ws : list WalletInfo) : System :=
  mkSystem ws ∅ ∅ 0 [] [].

(** The operation has run to its next suspension with outcome [o]: the
    nonce it left is stored; if it has returned or thrown, the [finally]
    block (lines 545-550) runs. *)
Definition continueOperation (f w : nat) (wi : WalletInfo) (p : nat)
    (o : Outcome) (s : System) : FlowPc * System :=
  let '(pc, n, acts) := o in
  let ws := <[w := mkWalletInfo (address wi) n]> (walletInfos s) in
  let tr := rev ((fun a => (f, w, a)) <$> acts) ++ trail s in
  if terminal pc
  then (Over (match pc with Returned => true | _ => false end),
        mkSystem ws (delete (address wi) (walletLocks s))
                 ({[p]} ∪ resolvedLocks s) (nextLock s) (flows s) tr)
  else (InOperation p pc,
        mkSystem ws (walletLocks s) (resolvedLocks s) (nextLock s) (flows s) tr).

(** The [while] test of line 529 and what follows it without suspension:
    either the [await] of line 531, or lines 539-544 and the operation up
    to its first [await]. *)
Definition enter (f w : nat) (wi : WalletInfo) (s : System) : FlowPc * System :=
  match walletLocks s !! address wi with
  | Some p => (AwaitLock p, s)
  | None =>
      let p := nextLock s in
      continueOperation f w wi p (startAttempt 0 (currentNonce wi))
        (mkSystem (walletInfos s) (<[address wi := p]> (walletLocks s))
                  (resolvedLocks s) (S p) (flows s) (trail s))
  end.

Definition putFlow (f : nat) (fl : Flow) (s : System) : System :=
  mkSystem (walletInfos s) (walletLocks s) (resolvedLocks s) (nextLock s)
           (<[f := fl]> (flows s)) (trail s).

Definition newFlow (fl : Flow) (s : System) : System :=
  mkSystem (walletInfos s) (walletLocks s) (resolvedLocks s) (nextLock s)
           (flows s ++ [fl]) (trail s).

(** Line 624: [withWalletLock(walletInfo.address, ..)] is called for the
    wallet at index [w]. *)
Definition callWithWalletLock (w : nat) (wi : WalletInfo) (s : System) : System :=
  let f := length (flows s) in
  let '(pc, s') := enter f w wi s in
  newFlow (mkFlow w pc) s'.

Definition wakeFlow (f w : nat) (wi : WalletInfo) (s : System) : System :=
  let '(pc, s') := enter f w wi s in
  putFlow f (mkFlow w pc) s'.

Definition resumeFlow (f w : nat) (wi : WalletInfo) (p : nat) (o : Outcome)
    (s : System) : System :=
  let '(pc, s') := continueOperation f w wi p o s in
  putFlow f (mkFlow w pc) s'.

Inductive Label :=
| LCall (w : nat)
| LWake (f : nat)
| LResume (f : nat) (r : Resume).

Inductive lstep : System -> Label -> System -> Prop :=
| lstep_call s w wi :
    walletInfos s !! w = Some wi ->
    lstep s (LCall w) (callWithWalletLock w wi s)
| lstep_wake s f w wi p :
    flows s !! f = Some (mkFlow w (AwaitLock p)) ->
    walletInfos s !! w = Some wi ->
    p ∈ resolvedLocks s ->
    lstep s (LWake f) (wakeFlow f w wi s)
| lstep_resume s f w wi p pc r o :
    flows s !! f = Some (mkFlow w (InOperation p pc)) ->
    walletInfos s !! w = Some wi ->
    resume pc (currentNonce wi) r = Some o ->
    lstep s (LResume f r) (resumeFlow f w wi p o s).

Inductive lsteps : System -> System -> Prop :=
| lsteps_refl s : lsteps s s
| lsteps_more s1 s2 l s3 : lsteps s1 s2 -> lstep s2 l s3 -> lsteps s1 s3.

(** Flow [f] is inside the operation for the wallet address [a]. *)
Definition holds (s : System) (f : nat) (a : nat) : Prop :=
  exists w wi p pc,
    flows s !! f = Some (mkFlow w (InOperation p pc)) /\
    walletInfos s !! w = Some wi /\ address wi = a.

(** Flow [f] has called [submitTransaction] for the wallet address [a] and
    the promise has not settled. *)
Definition attemptPending (s : System) (f : nat) (a : nat) : Prop :=
  exists w wi p attempt,
    flows s !! f = Some (mkFlow w (InOperation p (AwaitSend attempt))) /\
    walletInfos s !! w = Some wi /\ address wi = a.

(** The nonce of the last call of [submitTransaction] that flow [f] made,
    read off the trail, whose newest entry comes first. *)
Fixpoint sentBy (f : nat) (tr : list (nat * nat * Action)) : option Z :=
  match tr with
  | [] => None
  | (g, _, a) :: rest =>
      match a with
      | ActSubmit m => if decide (g = f) then Some m else sentBy f rest
      | _ => sentBy f rest
      end
  end.

(** Every pending send of the flows [fs] was made with the nonce its
    wallet has now. *)
Definition pendingCurrent (fs : list Flow) (s : System) : Prop :=
  forall f w p a,
    fs !! f = Some (mkFlow w (InOperation p (AwaitSend a))) ->
    exists wi, walletInfos s !! w = Some wi /\
               sentBy f (trail s) = Some (currentNonce wi).

(** *** The loop of the first revision of main (lines 207-291)

    The first revision has no [withWalletLock].  Its loop takes the wallets
    in turn ([i % activeWallets.length]), awaits [delay(25)] and then calls
    the flow, an [async] function that runs at once up to its first
    [await]: the call of [submitTransaction] with the nonce the wallet has
    at that moment.  Nothing makes a flow wait for an earlier flow of the
    same wallet.  The retry loop of the flow (lines 214-284) is the one
    above with the shorter test of line 266, and where the second revision
    throws it returns an object with [status: 'rejected'] ([Threw] stands
    for that here).  The two counters and the array [transactionPromises],
    which the loop only writes, are left out. *)

(** The condition of line 266. *)
Definition isRetryableErrorFirst (e : JsError) : bool :=
  includes (errorMessage e) "txpool is full"
  || includes (errorMessage e) "exceeds block gas limit"
  || includes (errorMessage e) "insufficient funds".

Definition resumeFirst (pc : WorkerPc) (nonce : Z) (r : Resume) : option Outcome :=
  match pc, r with
  | AwaitSend attempt, SendRejected e =>
      if isNonceError e then Some (startNonceAttempt attempt 0 nonce)
      else if isRetryableErrorFirst e
      then Some (AwaitRetryableDelay attempt, nonce, [ActDelay RETRY_DELAY_MS])
      else Some (lastCheck attempt nonce)
  | _, _ => resume pc nonce r
  end.

(** [firstFlows] holds, for every flow started, the index of its wallet
    and where its retry loop is suspended; the flow of iteration [i] is at
    index [i].  [firstTrail] logs which flow did what, oldest first. *)
Record FirstMain := mkFirstMain {
  activeWallets : list WalletInfo;
  firstFlows : list (nat * WorkerPc);
  firstTrail : list (nat * Action)
}.

Definition newFirstMain (ws : list WalletInfo) : FirstMain :=
  mkFirstMain ws [] [].

(** Main resumes from [delay(25)] in iteration [i] (the number of flows
    started so far) and runs lines 214-286: the flow is called and runs to
    its first [await]. *)
Definition firstDispatch (total : nat) (m : FirstMain) : option FirstMain :=
  let i := length (firstFlows m) in
  if i <? total
  then
    let walletIndex := i mod length (activeWallets m) in
    match activeWallets m !! walletIndex with
    | None => None
    | Some wi =>
        let '(pc, n, acts) := startAttempt 0 (currentNonce wi) in
        Some (mkFirstMain
                (<[walletIndex := mkWalletInfo (address wi) n]> (activeWallets m))
                (firstFlows m ++ [(walletIndex, pc)])
                (firstTrail m ++ (pair i <$> acts)))
    end
  else None.

(** The [await] that flow [f] is suspended at resumes with [r]. *)
Definition firstResume (f : nat) (r : Resume) (m : FirstMain) : option FirstMain :=
  match firstFlows m !! f with
  | None => None
  | Some (w, pc) =>
      match activeWallets m !! w with
      | None => None
      | Some wi =>
          match resumeFirst pc (currentNonce wi) r with
          | None => None
          | Some (pc', n, acts) =>
              Some (mkFirstMain
                      (<[w := mkWalletInfo (address wi) n]> (activeWallets m))
                      (<[f := (w, pc')]> (firstFlows m))
                      (firstTrail m ++ (pair f <$> acts)))
          end
      end
  end.

Inductive FirstLabel :=
| FirstDispatch
| FirstResume (f : nat) (r : Resume).

Definition firstStep (total : nat) (l : FirstLabel) (m : FirstMain)
    : option FirstMain :=
  match l with
  | FirstDispatch => firstDispatch total m
  | FirstResume f r => firstResume f r m
  end.

Fixpoint firstRun (total : nat) (ls : list FirstLabel) (m : FirstMain)
    : option FirstMain :=
  match ls with
  | [] => Some m
  | l :: rest =>
      match firstStep total l m with
      | Some m' => firstRun total rest m'
      | None => None
      end
  end.

(** Flow [f] has called [submitTransaction] for the wallet at index [w]
    and the promise has not settled. *)
Definition firstAttemptPending (m : FirstMain) (f w : nat) : Prop :=
  exists attempt, firstFlows m !! f = Some (w, AwaitSend attempt).

(** One wallet with nonce 5 and two flows: the second is started while the
    send of the first is pending; then both sends succeed. *)
Definition oneWallet : list WalletInfo := [mkWalletInfo 10 5].

Definition overlapTrace : list FirstLabel := [FirstDispatch; FirstDispatch].

Definition overlapped : FirstMain :=
  default (newFirstMain []) (firstRun 2 overlapTrace (newFirstMain oneWallet)).

Definition bothSentTrace : list FirstLabel :=
  overlapTrace ++ [FirstResume 0 SendResolved; FirstResume 1 SendResolved].

Definition bothSent : FirstMain :=
  default (newFirstMain []) (firstRun 2 bothSentTrace (newFirstMain oneWallet)).

(** *** The partition of main (lines 593-717)

    The two nested loops, recording which wallet each dispatched flow is
    for; [Promise.race] at line 615 only delays the loop. *)

Fixpoint innerLoop (w : nat) (transactionsForThisWallet total : nat)
    (overallDispatchedCount : nat) (out : list nat) : nat * list nat :=
  match transactionsForThisWallet with
  | 0 => (overallDispatchedCount, out)
  | S j =>
      if total <=? overallDispatchedCount then (overallDispatchedCount, out)
      else innerLoop w j total (S overallDispatchedCount) (out ++ [w])
  end.

Fixpoint outerLoop (wallets : list nat) (transactionsPerWalletBase : nat)
    (remainderTransactions total overallDispatchedCount : nat)
    (out : list nat) : list nat :=
  match wallets with
  | [] => out
  | w :: rest =>
      let transactionsForThisWallet :=
        if 0 <? remainderTransactions
        then S transactionsPerWalletBase else transactionsPerWalletBase in
      let remainder' :=
        if 0 <? remainderTransactions
        then remainderTransactions - 1 else remainderTransactions in
      if transactionsForThisWallet =? 0
      then outerLoop rest transactionsPerWalletBase remainder' total
             overallDispatchedCount out
      else
        let '(overall', out') :=
          innerLoop w transactionsForThisWallet total overallDispatchedCount out in
        if total <=? overall' then out'
        else outerLoop rest transactionsPerWalletBase remainder' total overall' out'
  end.

(** The wallet index of every dispatched flow, in dispatch order, for
    [total] transactions and [numActiveWallets] wallets. *)
Definition dispatchPlan (total numActiveWallets : nat) : list nat :=
  outerLoop (seq 0 numActiveWallets) (total / numActiveWallets)
            (total mod numActiveWallets) total 0 [].



Definition share (total numActiveWallets w : nat) : nat :=
  total / numActiveWallets + (if w <? total mod numActiveWallets then 1 else 0).

(** The partition in the words of the design: each wallet in turn gets the
    base count, and one more while a remainder is left. *)
Fixpoint partitionSpec (wallets : list nat) (base remainder : nat) : list nat :=
  match wallets with
  | [] => []
  | w :: rest =>
      replicate (if 0 <? remainder then S base else base) w
      ++ partitionSpec rest base (remainder - 1)
  end.

(** The loop counters stay below their bounds. *)
Definition wfPc (pc : WorkerPc) : Prop :=
  match pc with
  | AwaitSend a | AwaitRetryableDelay a | AwaitGeneralDelay a =>
      a < MAX_TRANSACTION_RETRIES
  | AwaitNonceDelay a k | AwaitNonceFetch a k =>
      a < MAX_TRANSACTION_RETRIES /\ k < MAX_TRANSACTION_RETRIES
  | Returned | Threw => True
  end.

(** An upper bound on the resumptions still to come. *)
Definition resumptionsLeft (pc : WorkerPc) : nat :=
  match pc with
  | AwaitSend a => 12 * (MAX_TRANSACTION_RETRIES - a)
  | AwaitNonceDelay a k => 12 * (MAX_TRANSACTION_RETRIES - a) - 1 - 2 * k
  | AwaitNonceFetch a k => 12 * (MAX_TRANSACTION_RETRIES - a) - 2 - 2 * k
  | AwaitRetryableDelay a | AwaitGeneralDelay a =>
      12 * (MAX_TRANSACTION_RETRIES - a) - 11
  | Returned | Threw => 0
  end.

(** The calls of [submitTransaction] made so far are one more than the
    loop counter, which is below its bound. *)
Definition withinBudget (r : Run) : Prop :=
  match runPc r with
  | AwaitSend a | AwaitNonceDelay a _ | AwaitNonceFetch a _
  | AwaitRetryableDelay a | AwaitGeneralDelay a =>
      attempts r = S a /\ a < MAX_TRANSACTION_RETRIES
  | Returned | Threw => attempts r <= MAX_TRANSACTION_RETRIES
  end.

(** No re-fetched nonce was stored during the run. *)
Definition quiet (r : Run) : Prop :=
  forall a, a ∈ runActions r -> isSetNonce a = false.

Definition quietb (r : Run) : bool :=
  forallb (fun a => negb (isSetNonce a)) (runActions r).

(** The nonce in flight is the wallet's nonce, and a transaction that
    returned left the nonce it was sent with plus one. *)
Definition sentWithCurrent (r : Run) : Prop :=
  match runPc r with
  | AwaitSend _ => lastSubmitted (runActions r) = Some (runNonce r)
  | Returned =>
      exists u, lastSubmitted (runActions r) = Some u /\ runNonce r = (u + 1)%Z
  | _ => True
  end.

(** Without a stored re-fetch the nonce is the one the run started with,
    plus one once it has returned. *)
Definition keepsNonce (start : Z) (r : Run) : Prop :=
  quiet r ->
  runNonce r = match runPc r with Returned => (start + 1)%Z | _ => start end.

(** The address of the wallet at index [w]. *)
Definition addressOf (s : System) (w : nat) : option nat :=
  address <$> walletInfos s !! w.

(** What holds of every state of the flows: a flow inside the operation
    holds a lock promise that was handed out, that is the one stored in
    [walletLocks] under its wallet's address, and that no other flow
    holds. *)
Record LInv (s : System) : Prop := mkLInv {
  linv_stored :
    forall f w p pc,
      flows s !! f = Some (mkFlow w (InOperation p pc)) ->
      p < nextLock s /\
      exists a, addressOf s w = Some a /\ walletLocks s !! a = Some p;
  linv_single :
    forall f g w w' p pc pc',
      flows s !! f = Some (mkFlow w (InOperation p pc)) ->
      flows s !! g = Some (mkFlow w' (InOperation p pc')) ->
      f = g
}.

(** The step relation as a function of its label. *)
Definition lfeed (l : Label) (s : System) : option System :=
  match l with
  | LCall w =>
      match walletInfos s !! w with
      | Some wi => Some (callWithWalletLock w wi s)
      | None => None
      end
  | LWake f =>
      match flows s !! f with
      | Some (mkFlow w (AwaitLock p)) =>
          match walletInfos s !! w with
          | Some wi =>
              if decide (p ∈ resolvedLocks s) then Some (wakeFlow f w wi s)
              else None
          | None => None
          end
      | _ => None
      end
  | LResume f r =>
      match flows s !! f with
      | Some (mkFlow w (InOperation p pc)) =>
          match walletInfos s !! w with
          | Some wi =>
              match resume pc (currentNonce wi) r with
              | Some o => Some (resumeFlow f w wi p o s)
              | None => None
              end
          | None => None
          end
      | _ => None
      end
  end.

Fixpoint lfeedAll (ls : list Label) (s : System) : option System :=
  match ls with
  | [] => Some s
  | l :: rest =>
      match lfeed l s with
      | Some s' => lfeedAll rest s'
      | None => None
      end
  end.

(** Two wallets; three transactions are started for the first one and one
    for the second; the first transaction is sent and the second takes the
    lock. *)
Definition twoWallets : list WalletInfo :=
  [mkWalletInfo 10 5; mkWalletInfo 20 0].

Definition lockTrace : list Label :=
  [LCall 0; LCall 0; LCall 0; LCall 1; LResume 0 SendResolved; LWake 1].

Definition lockedSystem : System :=
  default (newSystem twoWallets) (lfeedAll lockTrace (newSystem twoWallets)).

(** *** More about the retry loop *)

(** The first of the answers [from], [from + 1], ... , [from + count - 1]
    of [submitTransaction] that is a success. *)
Fixpoint firstSuccessFrom (env : Answers) (from count : nat) : option nat :=
  match count with
  | 0 => None
  | S c =>
      match sendAnswer env from with
      | None => Some from
      | Some _ => firstSuccessFrom env (S from) c
      end
  end.

Definition firstSuccess (env : Answers) : option nat :=
  firstSuccessFrom env 0 MAX_TRANSACTION_RETRIES.

(** The branch of the [catch] block an error takes. *)
Inductive ErrorClass := NonceError | RetryableError | OtherError.

Definition classify (e : JsError) : ErrorClass :=
  if isNonceError e then NonceError
  else if isRetryableError e then RetryableError
  else OtherError.

Definition answerClass (a : option JsError) : option ErrorClass :=
  classify <$> a.

(** Which sends were answered how, and which fetches, is all a run sees
    of its environment. *)
Definition sameAnswers (env1 env2 : Answers) : Prop :=
  (forall k, answerClass (sendAnswer env1 k) = answerClass (sendAnswer env2 k)) /\
  (forall k, nonceAnswer env1 k = nonceAnswer env2 k).

Definition txpoolFull : JsError := mkJsError "txpool is full" None None.
Definition reverted : JsError :=
  mkJsError "execution reverted" None (Some "CALL_EXCEPTION").

(** Every send meets a nonce error and the provider never answers. *)
Definition staleForever : Answers :=
  mkAnswers (fun _ => Some nonceTooLow) noAnswers.

(** Every send meets a retryable error. *)
Definition alwaysCongested : Answers :=
  mkAnswers (fun _ => Some txpoolFull) noAnswers.

(** Every send meets an error of neither kind. *)
Definition alwaysReverted : Answers :=
  mkAnswers (fun _ => Some reverted) noAnswers.

(** What the loop does when every send meets an error of neither kind,
    when every send meets a retryable error, and when every send meets a
    nonce error that no re-fetch can repair. *)
Definition otherErrorActions (nonce : Z) : list Action :=
  seq 0 MAX_TRANSACTION_RETRIES ≫= fun attempt =>
    ActSubmit nonce
    :: (if attempt <? MAX_TRANSACTION_RETRIES - 1
        then [ActDelay RETRY_DELAY_MS] else []).

Definition retryableErrorActions (nonce : Z) : list Action :=
  seq 0 MAX_TRANSACTION_RETRIES ≫= fun _ =>
    [ActSubmit nonce; ActDelay RETRY_DELAY_MS].

Definition refetchRound : list Action :=
  seq 0 MAX_TRANSACTION_RETRIES ≫= fun nonceAttempt =>
    [ActDelay (NONCE_RETRY_DELAY_MS * (Z.of_nat nonceAttempt + 1)); ActFetchNonce].

Definition staleNonceActions (nonce : Z) : list Action :=
  seq 0 MAX_TRANSACTION_RETRIES ≫= fun attempt =>
    ActSubmit nonce :: refetchRound
    ++ (if attempt <? MAX_TRANSACTION_RETRIES - 1
        then [ActDelay RETRY_DELAY_MS] else []).

(** What the sends answered so far say about where the loop is. *)
Definition sendsAccounted (env : Answers) (r : Run) : Prop :=
  let failedBefore (a : nat) :=
    forall k, k < a -> exists e, sendAnswer env k = Some e in
  match runPc r with
  | AwaitSend a =>
      runSends r = a /\ attempts r = S a /\ a < MAX_TRANSACTION_RETRIES /\
      failedBefore a
  | AwaitNonceDelay a _ | AwaitNonceFetch a _
  | AwaitRetryableDelay a | AwaitGeneralDelay a =>
      runSends r = S a /\ attempts r = S a /\ a < MAX_TRANSACTION_RETRIES /\
      failedBefore (S a)
  | Returned =>
      exists a,
        runSends r = S a /\ attempts r = S a /\ a < MAX_TRANSACTION_RETRIES /\
        sendAnswer env a = None /\ failedBefore a
  | Threw =>
      runSends r = MAX_TRANSACTION_RETRIES /\
      attempts r = MAX_TRANSACTION_RETRIES /\
      failedBefore MAX_TRANSACTION_RETRIES
  end.

(** [walletInfo.currentNonce] as the assignments in [acts] leave it
    (lines 642 and 661), and what it means that every call of
    [submitTransaction] in [acts] is given the value [currentNonce] has at
    that moment.  The increment is [+ 1], which is what line 642 does to a
    [safeNonce]. *)
Fixpoint nonceAfter (current : Z) (acts : list Action) : Z :=
  match acts with
  | [] => current
  | ActSetNonce m :: rest => nonceAfter m rest
  | ActIncrement :: rest => nonceAfter (current + 1) rest
  | _ :: rest => nonceAfter current rest
  end.

Fixpoint submitsCurrent (current : Z) (acts : list Action) : Prop :=
  match acts with
  | [] => True
  | ActSubmit m :: rest => m = current /\ submitsCurrent current rest
  | ActSetNonce m :: rest => submitsCurrent m rest
  | ActIncrement :: rest => submitsCurrent (current + 1) rest
  | _ :: rest => submitsCurrent current rest
  end.

Definition isIncrement (a : Action) : bool :=
  match a with ActIncrement => true | _ => false end.

Definition increments (r : Run) : nat :=
  length (filter (fun a => isIncrement a = true) (runActions r)).

(** The nonce a wallet is left with by the transactions [envs], one after
    another. *)
Definition nonceAfterRuns (envs : list Answers) (nonce : Z) : Z :=
  foldl (fun n env => runNonce (transaction env n)) nonce envs.

(** The log of a run accounts for the nonce: every call of
    [submitTransaction] was given the current nonce, the nonce is what the
    assignments logged make of [start], and line 642 has run once if the
    run has returned and not at all otherwise. *)
Definition nonceLogged (start : Z) (r : Run) : Prop :=
  runNonce r = nonceAfter start (runActions r) /\
  submitsCurrent start (runActions r) /\
  increments r = (match runPc r with Returned => 1 | _ => 0 end).

(** The time a run has asked [delay] for, and the most any run can ask
    for: five rounds of re-fetch delays of 500, 1000, 1500, 2000 and 2500
    ms, and a delay of 1000 ms between two attempts. *)
Definition delayOf (a : Action) : Z :=
  match a with
  | ActDelay ms => ms
  | _ => 0%Z
  end.

Definition totalDelay (r : Run) : Z :=
  foldr (fun a acc => (delayOf a + acc)%Z) 0%Z (runActions r).

Definition refetchDelays : Z :=
  (NONCE_RETRY_DELAY_MS * (1 + 2 + 3 + 4 + 5))%Z.

Definition worstDelay : Z :=
  (Z.of_nat MAX_TRANSACTION_RETRIES * refetchDelays
   + (Z.of_nat MAX_TRANSACTION_RETRIES - 1) * RETRY_DELAY_MS)%Z.

Definition worstFetches : nat :=
  MAX_TRANSACTION_RETRIES * MAX_TRANSACTION_RETRIES.

(** The delays and the fetches a run can still ask for from where it is. *)
Definition refetchDelaysAfter (nonceAttempt : nat) : Z :=
  match nonceAttempt with
  | 0 => 7000%Z
  | 1 => 6000%Z
  | 2 => 4500%Z
  | 3 => 2500%Z
  | _ => 0%Z
  end.

Definition delayFromAttempt (attempt : nat) : Z :=
  ((5 - Z.of_nat attempt) * 7500 + (4 - Z.of_nat attempt) * 1000)%Z.

Definition delayAfterAttempt (attempt : nat) : Z :=
  if attempt <? MAX_TRANSACTION_RETRIES - 1
  then (1000 + delayFromAttempt (S attempt))%Z else 0%Z.

Definition delayLeft (pc : WorkerPc) : Z :=
  match pc with
  | AwaitSend a => delayFromAttempt a
  | AwaitNonceDelay a k | AwaitNonceFetch a k =>
      (refetchDelaysAfter k + delayAfterAttempt a)%Z
  | AwaitRetryableDelay a | AwaitGeneralDelay a =>
      if a <? MAX_TRANSACTION_RETRIES - 1 then delayFromAttempt (S a) else 0%Z
  | Returned | Threw => 0%Z
  end.

Definition fetchesLeft (pc : WorkerPc) : nat :=
  match pc with
  | AwaitSend a => 5 * (5 - a)
  | AwaitNonceDelay a k | AwaitNonceFetch a k => (5 - k) + 5 * (4 - a)
  | AwaitRetryableDelay a | AwaitGeneralDelay a => 5 * (4 - a)
  | Returned | Threw => 0
  end.

Definition withinBackoff (r : Run) : Prop :=
  wfPc (runPc r) /\
  (0 <= totalDelay r)%Z /\
  (totalDelay r + delayLeft (runPc r) <= worstDelay)%Z /\
  runFetches r + fetchesLeft (runPc r) <= worstFetches.

(** *** More about the nonce queue *)

(** The calls of [getTransactionCount] that have come back. *)
Definition answeredCalls (q : NonceQueue) : list (NonceRequest * Z) :=
  match activations q with
  | [Calling _ _] => tail (calls q)
  | _ => calls q
  end.

(** What holds of every state of the nonce queue besides [QInv]: promises
    are numbered in the order they are handed out, the promises settled
    are those of the calls that have come back, and the queue is only
    non-empty while an activation is under way. *)
Definition QOrder (q : NonceQueue) : Prop :=
  requestPromise <$> requested q = seq 0 (nextRequest q) /\
  fst <$> answered q = (fun c => requestPromise (fst c)) <$> answeredCalls q /\
  (isProcessingDirectNonceQueue q = false -> directProviderNonceQueue q = []).

(** *** More about the wallet lock *)

Definition finished (fl : Flow) : bool :=
  match flowPc fl with
  | Over _ => true
  | _ => false
  end.

(** What holds of every state of the flows besides [LInv]: a lock in the
    map is an unresolved promise with a flow inside the operation; a flow
    at line 531 awaits a promise that is resolved or still in the map; a
    flow inside the operation is suspended at one of the loop's [await]s;
    and no promise is resolved before it is made. *)
Record LLive (s : System) : Prop := mkLLive {
  llive_held :
    forall a p, walletLocks s !! a = Some p ->
      (p ∉ resolvedLocks s) /\
      exists f w pc,
        flows s !! f = Some (mkFlow w (InOperation p pc)) /\
        addressOf s w = Some a;
  llive_waiting :
    forall f w p, flows s !! f = Some (mkFlow w (AwaitLock p)) ->
      (p ∈ resolvedLocks s) \/ exists a, walletLocks s !! a = Some p;
  llive_inside :
    forall f w p pc, flows s !! f = Some (mkFlow w (InOperation p pc)) ->
      wfPc pc /\ terminal pc = false;
  llive_wallet :
    forall f fl, flows s !! f = Some fl ->
      flowWallet fl < length (walletInfos s);
  llive_resolved :
    forall p, p ∈ resolvedLocks s -> p < nextLock s
}.

(** *** The dispatch loop of main and its concurrency limit (lines 585-717)

    The two nested loops hand out the flows of [dispatchPlan] one by one;
    before each one line 612 compares [runningTasks.length] with the
    limit and line 615 awaits [Promise.race] over the array as it is at
    that moment.  A dispatched flow is the promise chain of lines 624-706:
    the promise of [withWalletLock], then the [then] or the [catch]
    callback, then the [finally] callback, and only then is [taskPromise]
    itself fulfilled.  Every callback is a step of its own here, and the
    steps of different flows and of main interleave freely, which allows
    every order the event loop can produce.

    The model ends where the two loops are left (line 717).  What the
    source has after them is not embedded: lines 719-723 are a block that
    reads a variable [i] this revision never declares, followed by a brace
    that closes [main] before the [Promise.allSettled] of line 727, which
    leaves the brace of line 740 without a partner.  Once main has left the
    loops the callbacks of the flows may still run here; nothing is said
    about main itself from then on. *)

Definition MAX_CONCURRENT_TASKS : nat := 150.

Inductive TaskPhase :=
| Flowing      (* the promise of [withWalletLock] has not settled *)
| Counted      (* the [then] or the [catch] callback has run (lines 691-700) *)
| Removed      (* the [finally] callback has run (lines 701-706) *)
| Settled.     (* [taskPromise] is fulfilled *)

Inductive MainPc :=
| Looping                         (* about to run line 610 or to leave the loops *)
| Racing (snapshot : list nat)    (* suspended at line 615 *)
| LoopsLeft.                      (* past line 717 *)

(** [plan] holds the wallets of the flows still to be dispatched;
    [tasks] holds the wallet and the phase of every flow dispatched so far,
    by transaction number less one; [runningTasks] holds transaction
    numbers less one in place of the promises. *)
Record Dispatcher := mkDispatcher {
  plan : list nat;
  mainPc : MainPc;
  runningTasks : list nat;
  tasks : list (nat * TaskPhase);
  successfulTransactions : nat;
  failedTransactions : nat;
  overallDispatchedCount : nat
}.

Definition newDispatcher (flowsToDispatch : list nat) : Dispatcher :=
  mkDispatcher flowsToDispatch Looping [] [] 0 0 0.

Definition phaseOf (d : Dispatcher) (t : nat) : option TaskPhase :=
  snd <$> tasks d !! t.

Definition isSettled (d : Dispatcher) (t : nat) : bool :=
  match phaseOf d t with
  | Some Settled => true
  | _ => false
  end.

Definition setMainPc (pc : MainPc) (d : Dispatcher) : Dispatcher :=
  mkDispatcher (plan d) pc (runningTasks d) (tasks d)
    (successfulTransactions d) (failedTransactions d) (overallDispatchedCount d).

(** Lines 622-708 for the wallet [w]: the flow is started, pushed and
    counted as dispatched. *)
Definition dispatch (w : nat) (d : Dispatcher) : Dispatcher :=
  mkDispatcher (tail (plan d)) Looping
    (runningTasks d ++ [length (tasks d)])
    (tasks d ++ [(w, Flowing)])
    (successfulTransactions d) (failedTransactions d)
    (S (overallDispatchedCount d)).

(** Main runs until its next [await], until a flow is dispatched, or until
    it leaves the loops. *)
Definition mainStep (d : Dispatcher) : option Dispatcher :=
  match mainPc d with
  | Looping =>
      match plan d with
      | [] => Some (setMainPc LoopsLeft d)
      | w :: _ =>
          if MAX_CONCURRENT_TASKS <=? length (runningTasks d)
          then Some (setMainPc (Racing (runningTasks d)) d)
          else Some (dispatch w d)
      end
  | Racing snapshot =>
      if existsb (isSettled d) snapshot
      then match plan d with
           | w :: _ => Some (dispatch w d)
           | [] => None
           end
      else None
  | LoopsLeft => None
  end.

Definition setPhase (t : nat) (w : nat) (ph : TaskPhase) (d : Dispatcher)
    : Dispatcher :=
  mkDispatcher (plan d) (mainPc d) (runningTasks d) (<[t := (w, ph)]> (tasks d))
    (successfulTransactions d) (failedTransactions d) (overallDispatchedCount d).

(** The promise of [withWalletLock] settles and the [then] callback (it
    was fulfilled, with [success: true]) or the [catch] callback runs. *)
Definition flowSettles (t : nat) (fulfilled : bool) (d : Dispatcher)
    : option Dispatcher :=
  match tasks d !! t with
  | Some (w, Flowing) =>
      Some (mkDispatcher (plan d) (mainPc d) (runningTasks d)
              (<[t := (w, Counted)]> (tasks d))
              (if fulfilled then S (successfulTransactions d)
               else successfulTransactions d)
              (if fulfilled then failedTransactions d
               else S (failedTransactions d))
              (overallDispatchedCount d))
  | _ => None
  end.

(** [runningTasks.indexOf(taskPromise)]. *)
Definition indexOf (t : nat) (l : list nat) : option nat :=
  fst <$> list_find (fun x => x = t) l.

(** The [finally] callback. *)
Definition finallyCallback (t : nat) (d : Dispatcher) : option Dispatcher :=
  match tasks d !! t with
  | Some (w, Counted) =>
      Some (mkDispatcher (plan d) (mainPc d)
              (match indexOf t (runningTasks d) with
               | Some index => delete index (runningTasks d)
               | None => runningTasks d
               end)
              (<[t := (w, Removed)]> (tasks d))
              (successfulTransactions d) (failedTransactions d)
              (overallDispatchedCount d))
  | _ => None
  end.

Definition taskSettles (t : nat) (d : Dispatcher) : option Dispatcher :=
  match tasks d !! t with
  | Some (w, Removed) => Some (setPhase t w Settled d)
  | _ => None
  end.

Inductive DispatchLabel :=
| DMain
| DFlow (t : nat) (fulfilled : bool)
| DFinally (t : nat)
| DTask (t : nat).

Definition dispatcherStep (l : DispatchLabel) (d : Dispatcher)
    : option Dispatcher :=
  match l with
  | DMain => mainStep d
  | DFlow t fulfilled => flowSettles t fulfilled d
  | DFinally t => finallyCallback t d
  | DTask t => taskSettles t d
  end.

Fixpoint dispatcherRun (ls : list DispatchLabel) (d : Dispatcher)
    : option Dispatcher :=
  match ls with
  | [] => Some d
  | l :: rest =>
      match dispatcherStep l d with
      | Some d' => dispatcherRun rest d'
      | None => None
      end
  end.

(** The states main can be in when started on the flows [flowsToDispatch]. *)
Definition dispatched (flowsToDispatch : list nat) (d : Dispatcher) : Prop :=
  exists ls, dispatcherRun ls (newDispatcher flowsToDispatch) = Some d.

Definition isFlowing (x : nat * TaskPhase) : bool :=
  match snd x with Flowing => true | _ => false end.

(** The flows whose outcome has not been counted yet. *)
Definition uncounted (d : Dispatcher) : nat :=
  length (filter (fun x => isFlowing x = true) (tasks d)).

Definition inArray (ph : TaskPhase) : bool :=
  match ph with
  | Flowing | Counted => true
  | Removed | Settled => false
  end.

(** What holds of every state of the dispatch loop. *)
Record DInv (flowsToDispatch : list nat) (d : Dispatcher) : Prop := mkDInv {
  dinv_nodup : NoDup (runningTasks d);
  dinv_running :
    forall t, t ∈ runningTasks d <->
      exists ph, phaseOf d t = Some ph /\ inArray ph = true;
  dinv_limit : length (runningTasks d) <= MAX_CONCURRENT_TASKS;
  dinv_main :
    match mainPc d with
    | Looping => True
    | Racing snapshot =>
        plan d <> [] /\ NoDup snapshot /\
        length snapshot <= MAX_CONCURRENT_TASKS /\
        forall t, t ∈ runningTasks d -> t ∈ snapshot
    | LoopsLeft => plan d = []
    end;
  dinv_counted :
    successfulTransactions d + failedTransactions d + uncounted d
    = length (tasks d);
  dinv_dispatched : overallDispatchedCount d = length (tasks d);
  dinv_plan : (fst <$> tasks d) ++ plan d = flowsToDispatch
}.

(** Two hundred flows for one wallet: main fills the array, waits at the
    race, the fourth flow fails and leaves, and main dispatches one
    more. *)
Definition raceTrace : list DispatchLabel :=
  replicate 151 DMain ++ [DFlow 3 false; DFinally 3; DTask 3; DMain].

Definition racedDispatcher : Dispatcher :=
  default (newDispatcher []) (dispatcherRun raceTrace (newDispatcher (replicate 200 0))).

(** Three flows are dispatched, main leaves the loops, and the flows run to
    their end. *)
Definition shortTrace : list DispatchLabel :=
  [DMain; DMain; DMain; DMain;
   DFlow 1 true; DFlow 0 false; DFinally 0; DFlow 2 true; DFinally 1; DTask 0;
   DFinally 2; DTask 2; DTask 1].

Definition finishedDispatcher : Dispatcher :=
  default (newDispatcher []) (dispatcherRun shortTrace (newDispatcher [0; 1; 0])).

(** Four hundred flows for two wallets, run on the same trace. *)
Definition twoWalletRace : Dispatcher :=
  default (newDispatcher [])
    (dispatcherRun raceTrace (newDispatcher (dispatchPlan 400 2))).

End Mint.

(** ** src/proxyManager.js: the [try] block of _sendTransactionThroughProxy
    (lines 130-200)

    What the pool sends for a task and what it makes of the answers.  The
    values the code tests for truth are kept as JavaScript values; objects
    are finite maps from property names. *)

Module ProxySend.

Inductive JsValue :=
| JsUndefined
| JsNull
| JsBool (b : bool)
| JsNumber (n : Z)
| JsString (s : string).

Definition truthy (v : JsValue) : bool :=
  match v with
  | JsUndefined | JsNull => false
  | JsBool b => b
  | JsNumber n => negb (n =? 0)%Z
  | JsString s => negb (String.eqb s "")
  end.

Definition isString (v : JsValue) : bool :=
  match v with
  | JsString _ => true
  | _ => false
  end.

Definition startsWith (v : JsValue) (p : string) : bool :=
  match v with
  | JsString s => String.prefix p s
  | _ => false
  end.

(** [o.k]: [undefined] when the object has no such property. *)
Definition property (o : gmap string JsValue) (k : string) : JsValue :=
  default JsUndefined (o !! k).

(** A task as [submitTransaction] builds it (lines 229-238): [methodArgs]
    is an array and [txOptions] an object, whatever the caller passed. *)
Record TaskData := mkTaskData {
  methodName : JsValue;
  methodArgs : list JsValue;
  txOptions : gmap string JsValue;
  taskNonce : JsValue
}.

(** The fields of the manager the block reads (lines 12-14). *)
Record PoolConfig := mkPoolConfig {
  contractAddress : JsValue;
  contractAbi : list JsValue;
  confirmations : Z
}.

Inductive Prepared :=
| RawRequest (transactionRequest : gmap string JsValue)     (* lines 136-141 *)
| Populated                                      (* lines 144-154, built by ethers *)
| InsufficientData.                              (* line 158 throws *)

(** The object literal of lines 136-141 before the spread. *)
Definition rawFields (cfg : PoolConfig) (task : TaskData) : gmap string JsValue :=
  <["to" := contractAddress cfg]>
    (<["data" := methodName task]> (<["nonce" := taskNonce task]> ∅)).

(** Lines 161-163. *)
Definition defaultTo (cfg : PoolConfig) (request : gmap string JsValue) : gmap string JsValue :=
  if negb (truthy (property request "to")) && truthy (contractAddress cfg)
  then <["to" := contractAddress cfg]> request
  else request.

(** Lines 131-163.  The spread [...(task.txOptions || {})] comes last in
    the literal, so its properties replace the ones written before it. *)
Definition prepare (cfg : PoolConfig) (task : TaskData) : Prepared :=
  if truthy (methodName task) && isString (methodName task)
     && startsWith (methodName task) "0x"
     && (length (methodArgs task) =? 0)
  then RawRequest (defaultTo cfg (txOptions task ∪ rawFields cfg task))
  else if (0 <? length (contractAbi cfg)) && truthy (methodName task)
  then Populated
  else InsufficientData.

(** How [txResponse.wait] ends, when it is called, and how
    [sendTransaction] ends.  An error's [message] is a string, the empty
    one when the error has none. *)
Inductive WaitAnswer :=
| WaitReceipt (status : JsValue)
| WaitNull
| WaitThrows (message : string).

Inductive SendAnswer :=
| Sent (w : WaitAnswer)
| SendThrows.

(** What the task's promise is resolved with: [status], [confirmations]
    where the pool writes the field itself, and [method]. *)
Record ReceiptData := mkReceiptData {
  receiptStatus : JsValue;
  receiptConfirmations : option Z;
  receiptMethod : string
}.

Inductive TryOutcome :=
| Resolves (receipt : ReceiptData)
| Throws.

(** Lines 166-195. *)
Definition afterSend (cfg : PoolConfig) (a : SendAnswer) : TryOutcome :=
  match a with
  | SendThrows => Throws
  | Sent w =>
      if (0 <? confirmations cfg)%Z
      then
        match w with
        | WaitReceipt status =>
            Resolves
              (mkReceiptData
                 (match status with JsUndefined => JsNumber 1 | v => v end)
                 None "standard_sendTransaction_with_wait")
        | WaitNull =>
            Resolves
              (mkReceiptData (JsNumber 1) (Some (confirmations cfg))
                 "standard_sendTransaction_wait_returned_null")
        | WaitThrows message =>
            if Mint.includes (Mint.toLowerCase message) "full block not allowed"
            then
              Resolves
                (mkReceiptData (JsNumber 1) (Some 0%Z)
                   "standard_sendTransaction_full_block_fallback")
            else Throws
        end
      else
        Resolves
          (mkReceiptData (JsNumber 1) (Some 0%Z) "standard_sendTransaction_no_wait")
  end.

(** The block for a task that is sent as raw data or cannot be sent at
    all; [populateTransaction] of the other branch is not modelled. *)
Definition tryBlock (cfg : PoolConfig) (task : TaskData) (a : SendAnswer)
    : option TryOutcome :=
  match prepare cfg task with
  | RawRequest _ => Some (afterSend cfg a)
  | Populated => None
  | InsufficientData => Some Throws
  end.

(** What the pool's event loop sees of it. *)
Definition outcomeOf (o : TryOutcome) : ProxyManager.SendOutcome :=
  match o with
  | Resolves _ => ProxyManager.Receipt
  | Throws => ProxyManager.Thrown
  end.

(** The task [mint.js] submits (lines 631-639) with the nonce [n], and the
    manager it builds (line 562 with lines 352, 356 and 360). *)
Definition mintTask (data : string) (n : Z) : TaskData :=
  mkTaskData (JsString data) []
    (<["gasLimit" := JsNumber 5000000]> (<["gasPrice" := JsNumber 1900000]> ∅))
    (JsNumber n).

Definition mintConfig (confirmationsRequired : Z) : PoolConfig :=
  mkPoolConfig (JsString "0xb1f60733c7b76f8f4085af3d9f6e374c43e462f8") []
    confirmationsRequired.

End ProxySend.

(** * Proofs *)

(** ** The partition *)

Section Partition.
Import Mint.

Lemma innerLoop_full w n total overall out :
  overall + n <= total ->
  innerLoop w n total overall out = (overall + n, out ++ replicate n w).
Proof.
  revert overall out.
  induction n as [|n IH]; intros overall out Hle; simpl.
  - by rewrite Nat.add_0_r, app_nil_r.
  - destruct (Nat.leb_spec total overall) as [Hge|Hlt]; [lia|].
    rewrite IH by lia.
    f_equal; [lia|].
    by rewrite <- app_assoc.
Qed.

Lemma partitionSpec_nothing ws base rem :
  length ws * base + Nat.min rem (length ws) = 0 ->
  partitionSpec ws base rem = [].
Proof.
  revert rem.
  induction ws as [|w ws IH]; intros rem H; [done|].
  simpl in *.
  assert (base = 0) by lia. subst base.
  assert (rem = 0) by lia. subst rem.
  simpl. apply IH. simpl. lia.
Qed.

Lemma outerLoop_spec ws base rem total overall out :
  overall + (length ws * base + Nat.min rem (length ws)) = total ->
  outerLoop ws base rem total overall out = out ++ partitionSpec ws base rem.
Proof.
  revert rem overall out.
  induction ws as [|w ws IH]; intros rem overall out H.
  { cbn. by rewrite app_nil_r. }
  cbn [outerLoop partitionSpec].
  cbn [length] in H.
  destruct (Nat.ltb_spec 0 rem) as [Hrem|Hrem].
  - (* one extra for this wallet *)
    change (S base =? 0) with false. cbv iota.
    rewrite innerLoop_full by lia.
    destruct (Nat.leb_spec total (overall + S base)) as [Hdone|Hmore].
    + rewrite (partitionSpec_nothing ws base (rem - 1)) by lia.
      by rewrite app_nil_r.
    + rewrite IH by lia.
      by rewrite <- app_assoc.
  - assert (rem = 0) by lia. subst rem.
    destruct (Nat.eqb_spec base 0) as [Hb|Hb].
    + subst base. cbn [replicate app]. apply IH. lia.
    + rewrite innerLoop_full by lia.
      destruct (Nat.leb_spec total (overall + base)) as [Hdone|Hmore].
      * rewrite (partitionSpec_nothing ws base (0 - 1)) by (cbn; lia).
        by rewrite app_nil_r.
      * rewrite IH by (cbn; lia).
        by rewrite <- app_assoc.
Qed.





Lemma dispatchPlan_spec total n :
  1 <= n ->
  dispatchPlan total n = partitionSpec (seq 0 n) (total / n) (total mod n).
Proof.
  intros Hn. unfold dispatchPlan.
  rewrite outerLoop_spec; [done|].
  rewrite length_seq.
  pose proof (Nat.div_mod_eq total n).
  pose proof (Nat.mod_upper_bound total n).
  lia.
Qed.


End Partition.



(** ** _selectProxy *)

Section Select.
Import ProxyManager.

Lemma selectLoop_spec ps r c :
  c < length ps ->
  let e := selectExamined ps r c in
  e <= r /\
  (selectLoop ps r c).2 = (c + e) mod length ps /\
  match (selectLoop ps r c).1 with
  | Selected i =>
      1 <= e /\ i = (c + (e - 1)) mod length ps /\ healthyAt ps i /\
      forall j, j < e - 1 -> ~ healthyAt ps ((c + j) mod length ps)
  | NoProxy =>
      e = r /\ forall j, j < r -> ~ healthyAt ps ((c + j) mod length ps)
  | SelectThrew => False
  end.
Proof.
  revert c.
  induction r as [|r IH]; intros c Hc; cbn [selectLoop selectExamined].
  - cbn. rewrite Nat.add_0_r, Nat.mod_small by done.
    repeat split; [lia|]. intros j Hj. lia.
  - destruct (lookup_lt_is_Some_2 ps c Hc) as [proxy Hp].
    rewrite Hp.
    destruct (isHealthy proxy) eqn:Hh.
    + cbn. repeat split; try lia.
      * rewrite Nat.add_0_r, Nat.mod_small; done.
      * exists proxy. done.
    + assert ((c + 1) mod length ps < length ps) as Hc'
        by (apply Nat.mod_upper_bound; lia).
      specialize (IH _ Hc').
      cbn zeta in IH.
      destruct IH as (Hle & Hcur & Hres).
      set (e1 := selectExamined ps r ((c + 1) mod length ps)) in *.
      assert (forall k, ((c + 1) mod length ps + k) mod length ps
                        = (c + S k) mod length ps) as Hshift.
      { intros k. rewrite Nat.Div0.add_mod_idemp_l. f_equal. lia. }
      assert (~ healthyAt ps ((c + 0) mod length ps)) as Hhere.
      { rewrite Nat.add_0_r, Nat.mod_small by done.
        intros (p' & Hp' & Hh'). congruence. }
      split; [lia|]. split; [by rewrite Hcur, Hshift|].
      destruct (selectLoop ps r ((c + 1) mod length ps)).1 as [i| |]; [| |done].
      * destruct Hres as (He & Hi & Hhi & Hbefore).
        split; [lia|]. split.
        { rewrite Hi, Hshift. f_equal. lia. }
        split; [done|].
        intros [|j] Hj; [done|].
        rewrite <- Hshift. apply Hbefore. lia.
      * destruct Hres as (He & Hbefore).
        split; [lia|].
        intros [|j] Hj; [done|].
        rewrite <- Hshift. apply Hbefore. lia.
Qed.

Lemma every_index_scanned n c i :
  c < n -> i < n -> exists j, j < n /\ (c + j) mod n = i.
Proof.
  intros Hc Hi.
  destruct (le_lt_dec c i).
  - exists (i - c). split; [lia|].
    replace (c + (i - c)) with i by lia. by apply Nat.mod_small.
  - exists (i + n - c). split; [lia|].
    replace (c + (i + n - c)) with (i + 1 * n) by lia.
    rewrite Nat.Div0.mod_add. by apply Nat.mod_small.
Qed.

Lemma selectProxy_proxies m : proxies (_selectProxy m).2 = proxies m.
Proof.
  unfold _selectProxy.
  by destruct (selectLoop (proxies m) (length (proxies m)) (currentProxyIndex m)).
Qed.

Lemma selectProxy_healthy m i :
  (_selectProxy m).1 = Selected i -> healthyAt (proxies m) i.
Proof.
  unfold _selectProxy.
  destruct (selectLoop (proxies m) (length (proxies m)) (currentProxyIndex m))
    as [r c'] eqn:Hsel.
  cbn. intros ->.
  assert (forall r c, (selectLoop (proxies m) r c).1 = Selected i ->
                      healthyAt (proxies m) i) as Hgen.
  { clear. induction r as [|r IH]; intros c; cbn; [done|].
    destruct (proxies m !! c) as [proxy|] eqn:Hp; [|done].
    destruct (isHealthy proxy) eqn:Hh; [|apply IH].
    cbn. intros [= <-]. by exists proxy. }
  apply (Hgen (length (proxies m)) (currentProxyIndex m)).
  by rewrite Hsel.
Qed.

Lemma selectProxy_cursorOk m : cursorOk m -> cursorOk (_selectProxy m).2.
Proof.
  intros [Hc|[Hnil Hz]].
  - left. rewrite selectProxy_proxies.
    pose proof (selectLoop_spec (proxies m) (length (proxies m)) _ Hc) as (_ & Hcur & _).
    unfold _selectProxy.
    destruct (selectLoop (proxies m) (length (proxies m)) (currentProxyIndex m)).
    cbn in *. subst. apply Nat.mod_upper_bound. lia.
  - right. unfold _selectProxy. rewrite Hnil, Hz. by cbn.
Qed.

End Select.

(** C5. On every pool whose cursor indexes the array, [_selectProxy] walks
    the array from the cursor, wrapping around, moving the cursor one
    place for every proxy it looks at ([e] of them, at most the number of
    proxies and at least one when there is any); it returns the first
    healthy proxy it meets and leaves the cursor just past it, or returns
    null after a full round, which happens exactly when no proxy is
    healthy; the array of proxies itself is never changed. *)
Theorem C5_selectProxy_round_robin (m : ProxyManager.Manager) :
  ProxyManager.cursorOk m ->
  let ps := ProxyManager.proxies m in
  let n := length ps in
  let c := ProxyManager.currentProxyIndex m in
  let e := ProxyManager.selectExamined ps n c in
  let r := (ProxyManager._selectProxy m).1 in
  let m' := (ProxyManager._selectProxy m).2 in
  ProxyManager.proxies m' = ps /\
  ProxyManager.cursorOk m' /\
  e <= n /\ (1 <= n -> 1 <= e) /\
  ProxyManager.currentProxyIndex m' = (if n =? 0 then c else (c + e) mod n) /\
  (r = ProxyManager.NoProxy <-> forall i, ~ ProxyManager.healthyAt ps i) /\
  match r with
  | ProxyManager.Selected i =>
      i = (c + (e - 1)) mod n /\ ProxyManager.healthyAt ps i /\
      forall j, j < e - 1 -> ~ ProxyManager.healthyAt ps ((c + j) mod n)
  | ProxyManager.NoProxy => e = n /\ ProxyManager.currentProxyIndex m' = c
  | ProxyManager.SelectThrew => False
  end.
Proof.
  intros Hok ps n c e r m'.
  split; [apply selectProxy_proxies|].
  split; [by apply selectProxy_cursorOk|].
  destruct Hok as [Hc|[Hnil Hz]].
  - pose proof (selectLoop_spec ps n c Hc) as (Hle & Hcur & Hres).
    fold e in Hle, Hcur, Hres.
    assert (r = (ProxyManager.selectLoop ps n c).1) as Hr.
    { subst r. unfold ProxyManager._selectProxy. fold ps n c.
      by destruct (ProxyManager.selectLoop ps n c). }
    assert (ProxyManager.currentProxyIndex m' = (ProxyManager.selectLoop ps n c).2) as Hm.
    { subst m'. unfold ProxyManager._selectProxy. fold ps n c.
      by destruct (ProxyManager.selectLoop ps n c). }
    rewrite <- Hr in Hres. rewrite <- Hm in Hcur.
    change (length ps) with n in Hcur, Hres.
    assert (c < n) as Hcn by exact Hc.
    destruct (Nat.eqb_spec n 0) as [|_]; [lia|].
    split; [done|].
    assert (1 <= e) as He.
    { destruct r; [lia| |done]. destruct Hres as [-> _]. lia. }
    split; [done|]. split; [done|].
    destruct r as [i| |]; [| |done].
    + destruct Hres as (_ & Hi & Hhi & Hbefore).
      split; [|done].
      split; [done|]. intros Hnone. by destruct (Hnone i).
    + destruct Hres as (Hen & Hnone).
      assert (ProxyManager.currentProxyIndex m' = c) as Hsame.
      { rewrite Hcur, Hen.
        replace (c + n) with (c + 1 * n) by lia.
        rewrite Nat.Div0.mod_add. by apply Nat.mod_small. }
      split; [|done].
      split; [|done]. intros _ i (p & Hp & Hh).
      pose proof (lookup_lt_Some _ _ _ Hp) as Hi.
      destruct (every_index_scanned n c i Hc Hi) as (j & Hj & Hij).
      apply (Hnone j Hj). rewrite Hij. by exists p.
  - subst r m' e. unfold ProxyManager._selectProxy.
    subst n c ps. rewrite Hnil, Hz. cbn.
    repeat split; try done; try lia.
    intros _ i (p & Hp & _). by rewrite lookup_nil in Hp.
Qed.

Lemma C5_selectProxy_round_robin_witness :
  ProxyManager.proxies (ProxyManager._selectProxy ProxyManager.examplePool).2
  = ProxyManager.proxies ProxyManager.examplePool.
Proof.
  refine (proj1 (C5_selectProxy_round_robin ProxyManager.examplePool _)).
  left. cbn. lia.
Defined.

Example examplePool_selects_second :
  ProxyManager._selectProxy ProxyManager.examplePool
  = (ProxyManager.Selected 1,
     ProxyManager.mkManager (ProxyManager.proxies ProxyManager.examplePool) 2).
Proof. reflexivity. Qed.


(** ** The retry loop *)

Section Worker.
Import Mint.

Lemma runFor_S fuel env r :
  runFor (S fuel) env r =
  match runStep env r with
  | None => r
  | Some r' => runFor fuel env r'
  end.
Proof. reflexivity. Qed.

Lemma runFor_stuck fuel env r : runStep env r = None -> runFor fuel env r = r.
Proof. intros H. destruct fuel; [done|]. by rewrite runFor_S, H. Qed.

Lemma runStep_send_conflict env a n acts s f e :
  sendAnswer env s = Some e -> isNonceError e = true ->
  runStep env (mkRun (AwaitSend a) n acts s f) =
  Some (mkRun (AwaitNonceDelay a 0) n
          (acts ++ [ActDelay (NONCE_RETRY_DELAY_MS * (Z.of_nat 0 + 1))]) (S s) f).
Proof.
  intros Hs He. unfold runStep, nextResume. cbn [runPc runSends runNonce].
  rewrite Hs. cbn [resume]. by rewrite He.
Qed.

Lemma runStep_nonce_delay env a k n acts s f :
  runStep env (mkRun (AwaitNonceDelay a k) n acts s f) =
  Some (mkRun (AwaitNonceFetch a k) n (acts ++ [ActFetchNonce]) s f).
Proof. reflexivity. Qed.

Lemma runStep_fetch_retry env a k n n' acts s f :
  nonceAnswer env f = FetchOk n' -> a < MAX_TRANSACTION_RETRIES - 1 ->
  runStep env (mkRun (AwaitNonceFetch a k) n acts s f) =
  Some (mkRun (AwaitSend (S a)) n' (acts ++ [ActSetNonce n'; ActSubmit n']) s (S f)).
Proof.
  intros Hf Ha. unfold runStep, nextResume. cbn [runPc runFetches runNonce].
  rewrite Hf. cbn [resume].
  destruct (Nat.ltb_spec a (MAX_TRANSACTION_RETRIES - 1)); [|lia].
  unfold startAttempt.
  destruct (Nat.ltb_spec (S a) MAX_TRANSACTION_RETRIES);
    [done|unfold MAX_TRANSACTION_RETRIES in *; lia].
Qed.

Lemma runStep_fetch_last env a k n n' acts s f :
  nonceAnswer env f = FetchOk n' -> MAX_TRANSACTION_RETRIES - 1 <= a ->
  runStep env (mkRun (AwaitNonceFetch a k) n acts s f) =
  Some (mkRun Threw n' (acts ++ [ActSetNonce n']) s (S f)).
Proof.
  intros Hf Ha. unfold runStep, nextResume. cbn [runPc runFetches runNonce].
  rewrite Hf. cbn [resume].
  destruct (Nat.ltb_spec a (MAX_TRANSACTION_RETRIES - 1)); [lia|].
  unfold lastCheck.
  destruct (Nat.leb_spec (MAX_TRANSACTION_RETRIES - 1) a); [done|lia].
Qed.

(** One round of the conflict branch: the send is rejected, the delay
    elapses, the re-fetch answers. *)
Lemma conflict_round env fuel a n acts s f :
  (forall k, exists e, sendAnswer env k = Some e /\ isNonceError e = true) ->
  (forall k, exists n', nonceAnswer env k = FetchOk n') ->
  a < MAX_TRANSACTION_RETRIES - 1 ->
  exists n',
    runFor (3 + fuel) env (mkRun (AwaitSend a) n acts s f) =
    runFor fuel env
      (mkRun (AwaitSend (S a)) n'
         (acts ++ [ActDelay NONCE_RETRY_DELAY_MS; ActFetchNonce;
                   ActSetNonce n'; ActSubmit n']) (S s) (S f)).
Proof.
  intros Hsend Hfetch Ha.
  destruct (Hsend s) as (e & Hs & He).
  destruct (Hfetch f) as (n' & Hf).
  exists n'.
  change (3 + fuel) with (S (S (S fuel))).
  rewrite runFor_S, (runStep_send_conflict _ _ _ _ _ _ _ Hs He).
  rewrite runFor_S, runStep_nonce_delay.
  rewrite runFor_S, (runStep_fetch_retry _ _ _ _ _ _ _ _ Hf Ha).
  by rewrite <- !app_assoc.
Qed.

Lemma conflict_last_round env fuel a n acts s f :
  (forall k, exists e, sendAnswer env k = Some e /\ isNonceError e = true) ->
  (forall k, exists n', nonceAnswer env k = FetchOk n') ->
  MAX_TRANSACTION_RETRIES - 1 <= a ->
  exists n',
    runFor (3 + fuel) env (mkRun (AwaitSend a) n acts s f) =
    mkRun Threw n'
      (acts ++ [ActDelay NONCE_RETRY_DELAY_MS; ActFetchNonce; ActSetNonce n'])
      (S s) (S f).
Proof.
  intros Hsend Hfetch Ha.
  destruct (Hsend s) as (e & Hs & He).
  destruct (Hfetch f) as (n' & Hf).
  exists n'.
  change (3 + fuel) with (S (S (S fuel))).
  rewrite runFor_S, (runStep_send_conflict _ _ _ _ _ _ _ Hs He).
  rewrite runFor_S, runStep_nonce_delay.
  rewrite runFor_S, (runStep_fetch_last _ _ _ _ _ _ _ _ Hf Ha).
  rewrite runFor_stuck by done.
  by rewrite <- !app_assoc.
Qed.

(** The whole transaction when every send meets a nonce error. *)
Lemma conflict_transaction env nonce :
  (forall k, exists e, sendAnswer env k = Some e /\ isNonceError e = true) ->
  (forall k, exists n', nonceAnswer env k = FetchOk n') ->
  exists n1 n2 n3 n4 n5,
    transaction env nonce =
    mkRun Threw n5
      ([ActSubmit nonce;
        ActDelay NONCE_RETRY_DELAY_MS; ActFetchNonce; ActSetNonce n1; ActSubmit n1;
        ActDelay NONCE_RETRY_DELAY_MS; ActFetchNonce; ActSetNonce n2; ActSubmit n2;
        ActDelay NONCE_RETRY_DELAY_MS; ActFetchNonce; ActSetNonce n3; ActSubmit n3;
        ActDelay NONCE_RETRY_DELAY_MS; ActFetchNonce; ActSetNonce n4; ActSubmit n4;
        ActDelay NONCE_RETRY_DELAY_MS; ActFetchNonce; ActSetNonce n5])
      5 5.
Proof.
  intros Hsend Hfetch.
  unfold transaction, enoughFuel.
  change (startRun nonce) with (mkRun (AwaitSend 0) nonce [ActSubmit nonce] 0 0).
  change 60 with (3 + (3 + (3 + (3 + (3 + 45))))).
  destruct (conflict_round env (3 + (3 + (3 + (3 + 45)))) 0 nonce
              [ActSubmit nonce] 0 0 Hsend Hfetch) as (n1 & ->);
    [unfold MAX_TRANSACTION_RETRIES; lia|].
  match goal with |- context [mkRun (AwaitSend 1) n1 ?acts _ _] =>
    destruct (conflict_round env (3 + (3 + (3 + 45))) 1 n1 acts 1 1 Hsend Hfetch)
      as (n2 & ->); [unfold MAX_TRANSACTION_RETRIES; lia|] end.
  match goal with |- context [mkRun (AwaitSend 2) n2 ?acts _ _] =>
    destruct (conflict_round env (3 + (3 + 45)) 2 n2 acts 2 2 Hsend Hfetch)
      as (n3 & ->); [unfold MAX_TRANSACTION_RETRIES; lia|] end.
  match goal with |- context [mkRun (AwaitSend 3) n3 ?acts _ _] =>
    destruct (conflict_round env (3 + 45) 3 n3 acts 3 3 Hsend Hfetch)
      as (n4 & ->); [unfold MAX_TRANSACTION_RETRIES; lia|] end.
  match goal with |- context [mkRun (AwaitSend 4) n4 ?acts _ _] =>
    destruct (conflict_last_round env 45 4 n4 acts 4 4 Hsend Hfetch)
      as (n5 & ->); [unfold MAX_TRANSACTION_RETRIES; lia|] end.
  exists n1, n2, n3, n4, n5. reflexivity.
Qed.

End Worker.



Section WorkerInvariants.
Import Mint.

Ltac crush_pc :=
  repeat match goal with
         | |- context [?a <? ?b] => destruct (Nat.ltb_spec a b)
         | |- context [?a <=? ?b] => destruct (Nat.leb_spec a b)
         | H : context [?a <? ?b] |- _ => destruct (Nat.ltb_spec a b)
         | H : context [?a <=? ?b] |- _ => destruct (Nat.leb_spec a b)
         | H : Some _ = Some _ |- _ => injection H as <- <- <-
         | H : (_, _) = (_, _) |- _ => injection H as <- <- <-
         end.

Lemma resume_progress pc n x pc' n' acts :
  wfPc pc -> resume pc n x = Some (pc', n', acts) ->
  wfPc pc' /\ resumptionsLeft pc' < resumptionsLeft pc.
Proof.
  destruct pc as [a|a k|a k|a|a| |]; destruct x as [|e|  |m|]; cbn [resume];
    try discriminate; intros Hwf H;
    unfold startNonceAttempt, startAttempt, lastCheck, after in H;
    try (destruct (isNonceError e); [|destruct (isRetryableError e)]);
    crush_pc;
    cbn [wfPc resumptionsLeft] in *; unfold MAX_TRANSACTION_RETRIES in *; lia.
Qed.

Lemma runStep_resume env r r' :
  runStep env r = Some r' ->
  exists x acts,
    resume (runPc r) (runNonce r) x = Some (runPc r', runNonce r', acts) /\
    runActions r' = runActions r ++ acts.
Proof.
  unfold runStep.
  destruct (nextResume env r) as [x|]; [|done].
  destruct (resume (runPc r) (runNonce r) x) as [[[pc n] acts]|] eqn:Hres; [|done].
  intros [= <-]. by exists x, acts.
Qed.

Lemma runStep_none_terminal env r :
  wfPc (runPc r) -> runStep env r = None -> terminal (runPc r) = true.
Proof.
  unfold runStep, nextResume.
  destruct r as [pc n acts s f]; cbn [runPc runNonce runSends runFetches].
  destruct pc as [a|a k|a k|a|a| |]; try done; intros Hwf.
  - destruct (sendAnswer env s); cbn [resume].
    + destruct (isNonceError j); [|destruct (isRetryableError j)];
        unfold startNonceAttempt, lastCheck;
        repeat match goal with |- context [if ?b then _ else _] => destruct b end;
        done.
    + done.
  - destruct (nonceAnswer env f); cbn [resume];
      unfold startNonceAttempt, startAttempt, lastCheck, after;
      repeat match goal with |- context [if ?b then _ else _] => destruct b end;
      done.
  - cbn [resume]. unfold startAttempt, lastCheck.
    repeat match goal with |- context [if ?b then _ else _] => destruct b end; done.
  - cbn [resume]. unfold startAttempt.
    repeat match goal with |- context [if ?b then _ else _] => destruct b end; done.
Qed.

(** Every transaction comes to an end within [enoughFuel] resumptions,
    whatever the environment answers. *)
Lemma runFor_terminates env fuel r :
  wfPc (runPc r) -> resumptionsLeft (runPc r) <= fuel ->
  terminal (runPc (runFor fuel env r)) = true.
Proof.
  revert r.
  induction fuel as [|fuel IH]; intros r Hwf Hm.
  - cbn. destruct (runPc r) as [a|a k|a k|a|a| |]; try done;
      cbn in Hwf, Hm; unfold MAX_TRANSACTION_RETRIES in *; lia.
  - rewrite runFor_S.
    destruct (runStep env r) as [r'|] eqn:Hstep.
    + destruct (runStep_resume _ _ _ Hstep) as (x & acts & Hres & _).
      destruct (resume_progress _ _ _ _ _ _ Hwf Hres) as [Hwf' Hlt].
      apply IH; [done|lia].
    + by apply runStep_none_terminal with env.
Qed.

Lemma transaction_terminates env n :
  terminal (runPc (transaction env n)) = true.
Proof.
  unfold transaction, enoughFuel.
  apply runFor_terminates; cbn; unfold MAX_TRANSACTION_RETRIES; lia.
Qed.

Lemma runFor_invariant (P : Run -> Prop) env :
  (forall r r', P r -> runStep env r = Some r' -> P r') ->
  forall fuel r, P r -> P (runFor fuel env r).
Proof.
  intros Hstep.
  induction fuel as [|fuel IH]; intros r HP; [done|].
  rewrite runFor_S.
  destruct (runStep env r) as [r'|] eqn:Hr; [|done].
  apply IH. by apply Hstep with r.
Qed.

Lemma lastSubmitted_app l1 l2 :
  lastSubmitted (l1 ++ l2) =
  match lastSubmitted l2 with
  | Some n => Some n
  | None => lastSubmitted l1
  end.
Proof.
  induction l1 as [|a l1 IH]; cbn.
  - by destruct (lastSubmitted l2).
  - rewrite IH. destruct (lastSubmitted l2); [done|].
    by destruct (lastSubmitted l1).
Qed.

Lemma sentWithCurrent_step env r r' :
  sentWithCurrent r -> runStep env r = Some r' -> sentWithCurrent r'.
Proof.
  intros Hinv Hstep.
  destruct (runStep_resume _ _ _ Hstep) as (x & acts & Hres & Hacts).
  clear Hstep. destruct r' as [pc' n' acts' s' f'].
  unfold sentWithCurrent in *. cbn [runPc runNonce runActions] in *.
  subst acts'. rewrite lastSubmitted_app.
  destruct (runPc r) as [a|a k|a k|a|a| |]; destruct x as [|e|  |m|];
    cbn [resume] in Hres; try discriminate;
    unfold startNonceAttempt, startAttempt, lastCheck, after in Hres.
  - injection Hres as <- <- <-. cbn. eauto.
  - destruct (isNonceError e); [|destruct (isRetryableError e)];
      crush_pc; done.
  - crush_pc; done.
  - crush_pc; done.
  - crush_pc; done.
  - crush_pc; done.
  - crush_pc; done.
Qed.

Lemma keepsNonce_step start env r r' :
  keepsNonce start r -> runStep env r = Some r' -> keepsNonce start r'.
Proof.
  intros Hinv Hstep.
  destruct (runStep_resume _ _ _ Hstep) as (x & acts & Hres & Hacts).
  clear Hstep. destruct r' as [pc' n' acts' s' f'].
  unfold keepsNonce, quiet in *. cbn [runPc runNonce runActions] in *.
  subst acts'.
  intros Hq.
  assert (forall a, a ∈ acts -> isSetNonce a = false) as Hq2.
  { intros a Ha. apply Hq. apply elem_of_app. by right. }
  assert (runNonce r =
          match runPc r with Returned => (start + 1)%Z | _ => start end) as Hn.
  { apply Hinv. intros a Ha. apply Hq. apply elem_of_app. by left. }
  clear Hinv Hq.
  destruct (runPc r) as [a|a k|a k|a|a| |]; destruct x as [|e|  |m|];
    cbn [resume] in Hres; try discriminate;
    unfold startNonceAttempt, startAttempt, lastCheck, after in Hres.
  - injection Hres as <- <- <-. by rewrite Hn.
  - destruct (isNonceError e); [|destruct (isRetryableError e)];
      crush_pc; done.
  - crush_pc; done.
  - exfalso.
    crush_pc;
      (assert (isSetNonce (ActSetNonce m) = false) as Hbad
         by (apply Hq2; left));
      discriminate.
  - crush_pc; done.
  - crush_pc; done.
  - crush_pc; done.
Qed.

Lemma transaction_sentWithCurrent env n : sentWithCurrent (transaction env n).
Proof.
  apply runFor_invariant with (P := sentWithCurrent).
  - intros r r'. apply sentWithCurrent_step.
  - by cbn.
Qed.

Lemma transaction_keepsNonce env n : keepsNonce n (transaction env n).
Proof.
  apply runFor_invariant with (P := keepsNonce n).
  - intros r r'. apply keepsNonce_step.
  - by cbn.
Qed.

Lemma quiet_wallet envs n :
  (forall r, r ∈ walletRuns envs n -> quiet r) ->
  consecutive (usedNonces (walletRuns envs n)) /\
  forall u, head (usedNonces (walletRuns envs n)) = Some u -> u = n.
Proof.
  revert n.
  induction envs as [|env envs IH]; intros n Hq; [done|].
  cbn [walletRuns usedNonces].
  set (r := transaction env n) in *.
  assert (quiet r) as Hqr by (apply Hq; cbn; left).
  pose proof (transaction_keepsNonce env n Hqr) as Hkeep. fold r in Hkeep.
  pose proof (transaction_sentWithCurrent env n) as Hsent. fold r in Hsent.
  destruct (IH (runNonce r)) as [Hcons Hhead].
  { intros r' Hr'. apply Hq. cbn. by right. }
  unfold sentWithCurrent in Hsent.
  destruct (runPc r) eqn:Hpc; try (split; [done|]; intros u Hu; by rewrite (Hhead u Hu)).
  destruct Hsent as (u & Hu & Hnu). rewrite Hu.
  assert (u = n) by lia. subst u.
  split; [|by intros u [= <-]].
  cbn [consecutive]. split; [|done].
  destruct (usedNonces (walletRuns envs (runNonce r))) as [|b rest] eqn:Hused; [done|].
  rewrite (Hhead b eq_refl). lia.
Qed.

Lemma walletRuns_transactions envs n r :
  r ∈ walletRuns envs n -> exists env m, r = transaction env m.
Proof.
  revert n.
  induction envs as [|env envs IH]; intros n Hr; cbn in Hr.
  - by apply elem_of_nil in Hr.
  - apply elem_of_cons in Hr as [->|Hr]; [by exists env, n|].
    by apply IH with (runNonce (transaction env n)).
Qed.

Lemma all_quiet rs :
  forallb quietb rs = true -> forall r, r ∈ rs -> quiet r.
Proof.
  intros Hall r Hr a Ha.
  apply forallb_forall with (x := r) in Hall; [|by apply list_elem_of_In].
  unfold quietb in Hall.
  apply forallb_forall with (x := a) in Hall; [|by apply list_elem_of_In].
  by destruct (isSetNonce a).
Qed.

End WorkerInvariants.

Section AttemptBudget.
Import Mint.

Lemma attempts_app r pc n acts s f :
  attempts (mkRun pc n (runActions r ++ acts) s f) =
  attempts r + length (filter (fun a => isSubmit a = true) acts).
Proof. unfold attempts. cbn. by rewrite filter_app, length_app. Qed.

Lemma withinBudget_step env r r' :
  withinBudget r -> runStep env r = Some r' -> withinBudget r'.
Proof.
  intros Hinv Hstep.
  destruct (runStep_resume _ _ _ Hstep) as (x & acts & Hres & Hacts).
  clear Hstep. destruct r' as [pc' n' acts' s' f'].
  cbn [runPc runNonce runActions] in *. subst acts'.
  unfold withinBudget in *. rewrite attempts_app. cbn [runPc].
  destruct (runPc r) as [a|a k|a k|a|a| |]; destruct x as [|e|  |m|];
    cbn [resume] in Hres; try discriminate;
    unfold startNonceAttempt, startAttempt, lastCheck, after in Hres;
    try (destruct (isNonceError e); [|destruct (isRetryableError e)]);
    repeat match goal with
           | H : context [?a <? ?b] |- _ => destruct (Nat.ltb_spec a b)
           | H : context [?a <=? ?b] |- _ => destruct (Nat.leb_spec a b)
           | H : Some _ = Some _ |- _ => injection H as <- <- <-
           end;
    cbn; repeat case_decide; try discriminate; cbn [length];
    unfold MAX_TRANSACTION_RETRIES in *; lia.
Qed.

Lemma transaction_withinBudget env n :
  attempts (transaction env n) <= MAX_TRANSACTION_RETRIES.
Proof.
  assert (withinBudget (transaction env n)) as Hb.
  { apply runFor_invariant with (P := withinBudget).
    - intros r r'. apply withinBudget_step.
    - split; [reflexivity|]. unfold MAX_TRANSACTION_RETRIES. lia. }
  unfold withinBudget in Hb.
  destruct (runPc (transaction env n)); unfold MAX_TRANSACTION_RETRIES in *; lia.
Qed.

End AttemptBudget.

(** C3. When every call of [submitTransaction] of a transaction is
    rejected with an error the loop classifies as a nonce error, and every
    re-fetch through the queue is answered, the transaction ends by
    throwing after exactly [MAX_TRANSACTION_RETRIES] = 5 calls of
    [submitTransaction]: no resumption is left to run.  Whatever the
    errors are, one counter bounds the calls of every transaction by 5,
    and every transaction comes to an end. *)
Theorem C3_conflicts_use_five_attempts (env : Mint.Answers) (nonce : Z) :
  (forall k, exists e, Mint.sendAnswer env k = Some e /\ Mint.isNonceError e = true) ->
  (forall k, exists n, Mint.nonceAnswer env k = Mint.FetchOk n) ->
  let r := Mint.transaction env nonce in
  Mint.runPc r = Mint.Threw /\
  Mint.attempts r = Mint.MAX_TRANSACTION_RETRIES /\
  Mint.MAX_TRANSACTION_RETRIES = 5 /\
  Mint.runSends r = 5 /\
  Mint.runStep env r = None /\
  (forall env' nonce',
     Mint.attempts (Mint.transaction env' nonce') <= Mint.MAX_TRANSACTION_RETRIES /\
     Mint.terminal (Mint.runPc (Mint.transaction env' nonce')) = true).
Proof.
  intros Hsend Hfetch r.
  destruct (conflict_transaction env nonce Hsend Hfetch)
    as (n1 & n2 & n3 & n4 & n5 & Hr).
  subst r. rewrite Hr.
  repeat split.
  - apply transaction_withinBudget.
  - apply transaction_terminates.
Qed.

Lemma C3_conflicts_use_five_attempts_witness :
  Mint.attempts (Mint.transaction (Mint.alwaysConflict 7) 7)
  = Mint.MAX_TRANSACTION_RETRIES.
Proof.
  refine (proj1 (proj2 (C3_conflicts_use_five_attempts (Mint.alwaysConflict 7) 7 _ _))).
  - intros k. exists Mint.nonceTooLow. split; [reflexivity|].
    vm_compute. reflexivity.
  - intros k. exists 7%Z. reflexivity.
Defined.


(** ** The proxy pool: what every reachable state satisfies *)

Section Pool.
Import ProxyManager.

Lemma Qfloor_add_nonneg (z : Z) (q : Q) : (0 <= q)%Q -> (z <= Qfloor (inject_Z z + q))%Z.
Proof.
  intros Hq. rewrite <- (Qfloor_Z z) at 1. apply Qfloor_resp_le.
  rewrite <- (Qplus_0_r (inject_Z z)) at 1.
  apply Qplus_le_r. exact Hq.
Qed.

Lemma processQueue_cases i now jitter w :
  _processQueue i now jitter w = w \/
  exists proxy task rest,
    proxies (manager w) !! i = Some proxy /\
    isProcessing proxy = false /\ isHealthy proxy = true /\
    requestQueue proxy = task :: rest /\
    _processQueue i now jitter w =
    mkWorld
      (mkManager
         (<[i := mkProxy rest true (failureCount proxy) true (lastRequestTime proxy)]>
            (proxies (manager w)))
         (currentProxyIndex (manager w)))
      (mkTimer i task now (inject_Z (delayRequired now proxy) + jitter) :: timers w)
      (sending w) (settled w) (nextPromise w) (history w).
Proof.
  unfold _processQueue.
  destruct (proxies (manager w) !! i) as [proxy|] eqn:Hp; [|by left].
  destruct (isProcessing proxy) eqn:Hproc; [by left|].
  destruct (isHealthy proxy) eqn:Hh; [|by left].
  destruct (requestQueue proxy) as [|task rest] eqn:Hq; [by left|].
  right. exists proxy, task, rest. cbn. by rewrite Hh.
Qed.

Lemma proxies_split (ps : list Proxy) i p :
  ps !! i = Some p ->
  exists l1 l2, ps = l1 ++ p :: l2 /\ forall p', <[i:=p']> ps = l1 ++ p' :: l2.
Proof.
  intros H.
  destruct (list_elem_of_split_length ps i p H) as (l1 & l2 & -> & ->).
  exists l1, l2. split; [done|]. intros p'.
  rewrite insert_app_r_alt by lia. by rewrite Nat.sub_diag.
Qed.

Lemma queued_middle l1 p l2 :
  queuedPromises (l1 ++ p :: l2) = queuedPromises l1 ++ queuePromises p ++ queuedPromises l2.
Proof. unfold queuedPromises. by rewrite bind_app, bind_cons. Qed.

Lemma queued_insert_perm ps i p p' :
  ps !! i = Some p ->
  queuedPromises (<[i:=p']> ps) ++ queuePromises p ≡ₚ queuedPromises ps ++ queuePromises p'.
Proof.
  intros H. destruct (proxies_split ps i p H) as (l1 & l2 & -> & Hins).
  rewrite Hins, !queued_middle.
  rewrite <- !(assoc (++)). f_equiv.
  rewrite (comm (++) (queuePromises p') (queuedPromises l2 ++ queuePromises p)).
  rewrite (comm (++) (queuedPromises l2) (queuePromises p)).
  by rewrite <- !(assoc (++)).
Qed.

Lemma queued_insert_same ps i p p' :
  ps !! i = Some p -> requestQueue p' = requestQueue p ->
  queuedPromises (<[i:=p']> ps) = queuedPromises ps.
Proof.
  intros H Hq. destruct (proxies_split ps i p H) as (l1 & l2 & -> & Hins).
  rewrite Hins, !queued_middle. unfold queuePromises. by rewrite Hq.
Qed.

Lemma queued_insert_pop ps i p p' t rest :
  ps !! i = Some p -> requestQueue p = t :: rest -> requestQueue p' = rest ->
  promise t :: queuedPromises (<[i:=p']> ps) ≡ₚ queuedPromises ps.
Proof.
  intros H Hq Hq'.
  pose proof (queued_insert_perm ps i p p' H) as Hperm.
  unfold queuePromises in Hperm. rewrite Hq, Hq' in Hperm. cbn in Hperm.
  apply (Permutation_app_inv_r (promise <$> rest)).
  rewrite <- Hperm. cbn. by rewrite Permutation_middle.
Qed.

Lemma queued_insert_push ps i p t :
  ps !! i = Some p ->
  queuedPromises (<[i:=pushTask t p]> ps) ≡ₚ promise t :: queuedPromises ps.
Proof.
  intros H.
  pose proof (queued_insert_perm ps i p (pushTask t p) H) as Hperm.
  unfold queuePromises in Hperm. cbn in Hperm. rewrite fmap_app in Hperm. cbn in Hperm.
  apply (Permutation_app_inv_r (promise <$> requestQueue p)).
  rewrite Hperm.
  rewrite (comm (++) (promise <$> requestQueue p) [promise t]).
  by rewrite (assoc (++)), (comm (++) _ [promise t]).
Qed.

Lemma cursorOk_insert ps cur i p :
  i < length ps ->
  cursorOk (mkManager ps cur) -> cursorOk (mkManager (<[i:=p]> ps) cur).
Proof.
  intros Hi [H|[H _]]; cbn in *.
  - left. cbn. by rewrite length_insert.
  - subst ps. cbn in Hi. lia.
Qed.

Lemma dispatchTimes_other i e h :
  match e with EffLastRequestTime j _ => i <> j | _ => True end ->
  dispatchTimes i (e :: h) = dispatchTimes i h.
Proof.
  destruct e; cbn; try done.
  intros Hne. destruct (Nat.eqb_spec i i0); [done|done].
Qed.

Lemma delay_reaches_interval now last jitter :
  (0 <= jitter)%Q ->
  (last + MIN_REQUEST_INTERVAL_MS
   <= now + Qfloor (inject_Z (Z.max 0 (MIN_REQUEST_INTERVAL_MS - (now - last))) + jitter))%Z.
Proof.
  intros Hj.
  pose proof (Qfloor_add_nonneg (Z.max 0 (MIN_REQUEST_INTERVAL_MS - (now - last))) jitter Hj).
  lia.
Qed.

Lemma promises_moved w w' :
  allPromises w' ≡ₚ allPromises w -> nextPromise w' = nextPromise w ->
  NoDup (allPromises w) -> (forall q, q ∈ allPromises w -> q < nextPromise w) ->
  NoDup (allPromises w') /\ (forall q, q ∈ allPromises w' -> q < nextPromise w').
Proof.
  intros Hperm Hnext Hnd Hb. split.
  - by rewrite Hperm.
  - intros q Hq. rewrite Hnext. apply Hb. by rewrite <- Hperm.
Qed.

Lemma promises_fresh w w' :
  allPromises w' ≡ₚ nextPromise w :: allPromises w ->
  nextPromise w' = S (nextPromise w) ->
  NoDup (allPromises w) -> (forall q, q ∈ allPromises w -> q < nextPromise w) ->
  NoDup (allPromises w') /\ (forall q, q ∈ allPromises w' -> q < nextPromise w').
Proof.
  intros Hperm Hnext Hnd Hb. split.
  - rewrite Hperm. apply NoDup_cons. split; [|done].
    intros Hin. specialize (Hb _ Hin). lia.
  - intros q Hq. rewrite Hnext. rewrite Hperm in Hq.
    apply elem_of_cons in Hq as [->|Hq]; [lia|].
    specialize (Hb _ Hq). lia.
Qed.

Lemma processQueue_inv i now jitter w :
  (0 <= jitter)%Q -> Inv w -> Inv (_processQueue i now jitter w).
Proof.
  intros Hj HI.
  destruct (processQueue_cases i now jitter w)
    as [->|(proxy & task & rest & Hp & Hproc & Hh & Hq & ->)]; [done|].
  destruct HI as [Hcur Hnd Hbusy Hhealth Htimer Hdisp Hpnd Hpb].
  match goal with |- Inv ?w' =>
    destruct (promises_moved w w') as [Hpnd' Hpb']; [|done|done|done|] end.
  { unfold allPromises, pendingPromises; cbn.
    rewrite <- (queued_insert_pop _ i proxy
               (mkProxy rest true (failureCount proxy) true (lastRequestTime proxy))
               task rest Hp Hq eq_refl).
    cbn. by rewrite <- Permutation_middle. }
  clear Hpnd Hpb.
  destruct w as [[ps cur] tms snd stl nxt hist].
  unfold busy in *; cbn in Hcur, Hnd, Hbusy, Hhealth, Htimer, Hdisp, Hp.
  pose proof (lookup_lt_Some _ _ _ Hp) as Hilt.
  assert (i ∉ (timerProxy <$> tms) ++ snd.*1) as Hfree.
  { intros Hin. destruct (Hbusy i Hin) as (p' & Hp' & Hproc'). congruence. }
  constructor; [| | | | | |exact Hpnd'|exact Hpb']; cbn; unfold busy; cbn.
  - by apply cursorOk_insert.
  - by apply NoDup_cons.
  - intros j Hj'. destruct (decide (i = j)) as [<-|Hne].
    + eexists. by rewrite list_lookup_insert_eq.
    + rewrite list_lookup_insert_ne by done. apply Hbusy.
      apply elem_of_cons in Hj' as [?|?]; [congruence|done].
  - intros j p' Hp'. apply list_lookup_insert_Some in Hp' as [(<- & <- & _)|(Hne & Hp')].
    + cbn. specialize (Hhealth _ _ Hp). by rewrite Hh in Hhealth.
    + by apply Hhealth with j.
  - intros tm p' Htm Hp'. apply elem_of_cons in Htm as [->|Htm].
    + cbn in *. rewrite list_lookup_insert_eq in Hp' by done.
      injection Hp' as <-. cbn. unfold delayRequired.
      by apply delay_reaches_interval.
    + apply list_lookup_insert_Some in Hp' as [(Heq & <- & _)|(Hne & Hp')].
      * exfalso. apply Hfree. apply elem_of_app. left.
        apply list_elem_of_fmap. eauto.
      * by apply Htimer.
  - intros j p' Hp'. apply list_lookup_insert_Some in Hp' as [(<- & <- & _)|(Hne & Hp')].
    + cbn. by apply Hdisp.
    + by apply Hdisp.
Qed.

Lemma busy_of_timer w k tm :
  timers w !! k = Some tm ->
  busy w ≡ₚ timerProxy tm :: busy (dropTimer k w).
Proof.
  intros Hk. unfold busy; cbn.
  by rewrite (delete_Permutation _ _ _ Hk) at 1.
Qed.

Lemma busy_of_sending w k i task :
  sending w !! k = Some (i, task) ->
  busy w ≡ₚ i :: busy (dropSending k w).
Proof.
  intros Hk. unfold busy; cbn.
  rewrite (delete_Permutation _ _ _ Hk) at 1. cbn.
  by rewrite <- Permutation_middle.
Qed.

Lemma spaced_cons gap t l :
  spaced gap l ->
  (forall t1, head l = Some t1 -> (t1 + gap <= t)%Z) ->
  spaced gap (t :: l).
Proof.
  intros Hs Hh. cbn [spaced]. split; [|done].
  destruct l as [|t1 rest]; [done|]. by apply Hh.
Qed.

Lemma dispatchTimes_here i t h :
  dispatchTimes i (EffLastRequestTime i t :: h) = t :: dispatchTimes i h.
Proof. cbn. by rewrite Nat.eqb_refl. Qed.

Lemma timerFire_inv w k tm fire :
  Inv w -> timers w !! k = Some tm ->
  (timerSet tm + Qfloor (timerDelay tm) <= fire)%Z ->
  Inv (timerFire tm fire (dropTimer k w)).
Proof.
  intros HI Hk Hfire.
  destruct HI as [Hcur Hnd Hbusy Hhealth Htimer Hdisp Hpnd Hpb].
  pose proof (busy_of_timer w k tm Hk) as Hperm.
  assert (tm ∈ timers w) as Htm by (apply list_elem_of_lookup; eauto).
  destruct (Hbusy (timerProxy tm)) as (proxy & Hp & Hproc).
  { rewrite Hperm. left. }
  rewrite Hperm in Hnd. apply NoDup_cons in Hnd as [Hfree Hnd].
  unfold timerFire. cbn [dropTimer manager]. rewrite Hp.
  match goal with |- Inv ?w' =>
    destruct (promises_moved w w') as [Hpnd' Hpb']; [|done|done|done|] end.
  { unfold allPromises, pendingPromises; cbn.
    rewrite (queued_insert_same _ _ proxy) by done.
    rewrite (delete_Permutation _ _ _ Hk) at 2. cbn.
    by rewrite <- !Permutation_middle. }
  clear Hpnd Hpb.
  pose proof (lookup_lt_Some _ _ _ Hp) as Hilt.
  destruct w as [[ps cur] tms snd stl nxt hist].
  unfold busy in *; cbn in *.
  constructor; [| | | | | |exact Hpnd'|exact Hpb']; cbn -[dispatchTimes spaced]; unfold busy; cbn -[dispatchTimes spaced].
  - by apply cursorOk_insert.
  - rewrite <- Permutation_middle. by apply NoDup_cons.
  - intros j Hj.
    assert (j ∈ (timerProxy <$> tms) ++ snd.*1) as Hj'.
    { rewrite Hperm. revert Hj. by rewrite <- Permutation_middle. }
    destruct (decide (timerProxy tm = j)) as [<-|Hne].
    + eexists. by rewrite list_lookup_insert_eq.
    + rewrite list_lookup_insert_ne by done. by apply Hbusy.
  - intros j p' Hp'. apply list_lookup_insert_Some in Hp' as [(<- & <- & _)|(Hne & Hp')].
    + cbn. by apply (Hhealth _ _ Hp).
    + by apply Hhealth with j.
  - intros tm' p' Htm' Hp'.
    apply list_lookup_insert_Some in Hp' as [(Heq & <- & _)|(Hne & Hp')].
    + exfalso. apply Hfree. apply elem_of_app. left.
      apply list_elem_of_fmap. eauto.
    + apply Htimer; [|done]. by apply list_elem_of_delete_inv in Htm'.
  - intros j p' Hp'.
    apply list_lookup_insert_Some in Hp' as [(<- & <- & _)|(Hne & Hp')].
    + rewrite dispatchTimes_here. cbn [lastRequestTime].
      destruct (Hdisp _ _ Hp) as [Hsp Hhd].
      split; [|by intros t [= <-]].
      apply spaced_cons; [done|].
      intros t1 Ht1. rewrite (Hhd t1 Ht1).
      specialize (Htimer tm proxy Htm Hp). lia.
    + rewrite dispatchTimes_other by (cbn; congruence). by apply Hdisp.
Qed.

Lemma mark_health o proxy :
  isHealthy proxy = true -> failureCount proxy < MAX_PROXY_FAILURES ->
  if isHealthy (mark o proxy)
  then failureCount (mark o proxy) < MAX_PROXY_FAILURES
  else failureCount (mark o proxy) = MAX_PROXY_FAILURES.
Proof.
  intros Hh Hc.
  destruct o; unfold mark, markSuccess, markFailure; cbn [isHealthy failureCount].
  - unfold MAX_PROXY_FAILURES. lia.
  - rewrite Hh.
    destruct (Nat.leb_spec MAX_PROXY_FAILURES (S (failureCount proxy)));
      unfold MAX_PROXY_FAILURES in *; lia.
Qed.

Lemma finishSend_eq i task o w proxy :
  proxies (manager w) !! i = Some proxy ->
  finishSend i task o w =
  mkWorld
    (mkManager (<[i := clearProcessing (mark o proxy)]> (proxies (manager w)))
               (currentProxyIndex (manager w)))
    (timers w) (sending w)
    ((promise task, settlementOf o) :: settled w) (nextPromise w)
    (EffSettle (promise task) (settlementOf o)
       :: EffMark i (failureCount (mark o proxy)) (isHealthy (mark o proxy))
       :: history w).
Proof.
  intros Hp. unfold finishSend. rewrite Hp.
  unfold setProxy, settle, record;
    cbn [manager proxies currentProxyIndex timers sending settled nextPromise history].
  by rewrite list_insert_insert_eq.
Qed.

Lemma finishSend_inv w k i task o :
  Inv w -> sending w !! k = Some (i, task) ->
  Inv (finishSend i task o (dropSending k w)).
Proof.
  intros HI Hk.
  destruct HI as [Hcur Hnd Hbusy Hhealth Htimer Hdisp Hpnd Hpb].
  pose proof (busy_of_sending w k i task Hk) as Hperm.
  destruct (Hbusy i) as (proxy & Hp & Hproc).
  { rewrite Hperm. left. }
  rewrite Hperm in Hnd. apply NoDup_cons in Hnd as [Hfree Hnd].
  pose proof (Hhealth _ _ Hp) as Hhp.
  destruct (isHealthy proxy) eqn:Hh; [|destruct Hhp; congruence].
  rewrite (finishSend_eq i task o _ proxy) by done.
  cbn [dropSending manager timers sending settled nextPromise history].
  match goal with |- Inv ?w' =>
    destruct (promises_moved w w') as [Hpnd' Hpb']; [|done|done|done|] end.
  { unfold allPromises, pendingPromises; cbn.
    rewrite (queued_insert_same _ _ proxy) by (done || by destruct o).
    rewrite (delete_Permutation _ _ _ Hk) at 2. cbn.
    rewrite <- !(assoc (++)). do 2 f_equiv.
    by rewrite <- !Permutation_middle. }
  clear Hpnd Hpb.
  pose proof (lookup_lt_Some _ _ _ Hp) as Hilt.
  pose proof (mark_health o proxy Hh Hhp) as Hmark.
  destruct w as [[ps cur] tms snd stl nxt hist].
  unfold busy in *; cbn in *.
  constructor; [| | | | | |exact Hpnd'|exact Hpb']; cbn -[dispatchTimes spaced]; unfold busy; cbn -[dispatchTimes spaced].
  - by apply cursorOk_insert.
  - done.
  - intros j Hj.
    assert (i <> j) as Hne by (intros ->; done).
    rewrite list_lookup_insert_ne by done. apply Hbusy.
    rewrite Hperm. by right.
  - intros j p' Hp'. apply list_lookup_insert_Some in Hp' as [(<- & <- & _)|(Hne & Hp')].
    + unfold clearProcessing; cbn [isHealthy failureCount isProcessing].
      by destruct (isHealthy (mark o proxy)).
    + by apply Hhealth with j.
  - intros tm' p' Htm' Hp'.
    apply list_lookup_insert_Some in Hp' as [(Heq & <- & _)|(Hne & Hp')].
    + exfalso. apply Hfree. apply elem_of_app. left.
      apply list_elem_of_fmap. eauto.
    + by apply Htimer.
  - intros j p' Hp'.
    rewrite !dispatchTimes_other by done.
    apply list_lookup_insert_Some in Hp' as [(<- & <- & _)|(Hne & Hp')].
    + destruct o; cbn; by apply Hdisp.
    + by apply Hdisp.
Qed.

Lemma record_inv e w :
  match e with EffLastRequestTime _ _ => False | _ => True end ->
  Inv w -> Inv (record e w).
Proof.
  intros He [Hcur Hnd Hbusy Hhealth Htimer Hdisp Hpnd Hpb].
  constructor; try done.
  cbn -[dispatchTimes].
  intros j p Hp. rewrite dispatchTimes_other by (by destruct e). by apply Hdisp.
Qed.

Lemma newWorld_inv n : Inv (newWorld n).
Proof.
  constructor; cbn.
  - destruct n as [|n]; [by right|left]. cbn. rewrite length_replicate. lia.
  - constructor.
  - intros i Hi. by apply elem_of_nil in Hi.
  - intros i p Hp. apply lookup_replicate in Hp as [-> _]. cbn.
    unfold MAX_PROXY_FAILURES. lia.
  - intros tm p Htm. by apply elem_of_nil in Htm.
  - done.
  - unfold allPromises, pendingPromises, queuedPromises; cbn.
    rewrite !app_nil_r.
    induction n as [|n IH]; cbn; [constructor|done].
  - unfold allPromises, pendingPromises, queuedPromises; cbn.
    rewrite !app_nil_r.
    intros q Hq. exfalso.
    induction n as [|n IH]; cbn in Hq; [by apply elem_of_nil in Hq|done].
Qed.

Lemma enqueue_inv pk n w : Inv w -> Inv (enqueue pk n w).2.
Proof.
  intros HI.
  destruct HI as [Hcur Hnd Hbusy Hhealth Htimer Hdisp Hpnd Hpb].
  unfold enqueue.
  pose proof (selectProxy_proxies (manager w)) as Hps.
  pose proof (selectProxy_cursorOk (manager w) Hcur) as Hcur'.
  pose proof (selectProxy_healthy (manager w)) as Hsel.
  destruct (_selectProxy (manager w)) as [sel m']. cbn [fst snd] in *.
  destruct m' as [ps' cur']. cbn [proxies] in *. subst ps'.
  assert (forall w', allPromises w' ≡ₚ nextPromise w :: allPromises w ->
                     nextPromise w' = S (nextPromise w) ->
                     NoDup (allPromises w') /\
                     (forall q, q ∈ allPromises w' -> q < nextPromise w')) as Hfresh.
  { intros w' H1 H2. by apply (promises_fresh w w'). }
  assert (Inv (settle (nextPromise w) Rejected
                 (freshPromise (withManager (mkManager (proxies (manager w)) cur') w))))
    as Hreject.
  { match goal with |- Inv ?w' => destruct (Hfresh w') as [Hpnd' Hpb'] end.
    { unfold allPromises, pendingPromises; cbn.
      by rewrite <- !Permutation_middle. }
    { done. }
    constructor; try done;
      cbn -[dispatchTimes]; intros j p Hp;
      rewrite dispatchTimes_other by done; by apply Hdisp. }
  destruct sel as [i| |]; [|done|done].
  destruct (Hsel i eq_refl) as (proxy & Hp & Hh).
  rewrite Hp. cbn [snd].
  match goal with |- Inv ?w' => destruct (Hfresh w') as [Hpnd' Hpb'] end.
  { unfold allPromises, pendingPromises; cbn.
    by rewrite (queued_insert_push _ _ _ _ Hp). }
  { done. }
  clear Hfresh Hreject Hpnd Hpb Hsel.
  pose proof (lookup_lt_Some _ _ _ Hp) as Hilt.
  destruct w as [[ps cur] tms snd stl nxt hist].
  unfold busy in *; cbn in *.
  constructor; [| | | | | |exact Hpnd'|exact Hpb'];
    cbn -[dispatchTimes spaced]; unfold busy; cbn -[dispatchTimes spaced].
  - by apply cursorOk_insert.
  - done.
  - intros j Hj. destruct (Hbusy j Hj) as (p' & Hp' & Hproc).
    destruct (decide (i = j)) as [<-|Hne].
    + rewrite list_lookup_insert_eq by done. eexists; split; [done|].
      cbn. congruence.
    + rewrite list_lookup_insert_ne by done. eauto.
  - intros j p' Hp'. apply list_lookup_insert_Some in Hp' as [(<- & <- & _)|(Hne & Hp')].
    + cbn. by apply (Hhealth _ _ Hp).
    + by apply Hhealth with j.
  - intros tm' p' Htm' Hp'.
    apply list_lookup_insert_Some in Hp' as [(Heq & <- & _)|(Hne & Hp')].
    + cbn. apply Htimer; [done|]. by rewrite Heq in Hp.
    + by apply Htimer.
  - intros j p' Hp'.
    apply list_lookup_insert_Some in Hp' as [(<- & <- & _)|(Hne & Hp')].
    + cbn. by apply Hdisp.
    + by apply Hdisp.
Qed.

Lemma submitTransaction_inv pk n now jitter w :
  (0 <= jitter)%Q -> Inv w -> Inv (submitTransaction pk n now jitter w).2.
Proof.
  intros Hj HI. unfold submitTransaction.
  pose proof (enqueue_inv pk n w HI) as HI2.
  destruct (enqueue pk n w) as [sel w2]. cbn [snd] in *.
  destruct sel as [i|]; [|done].
  destruct (proxies (manager w2) !! i) as [proxy|]; [|done].
  destruct (isProcessing proxy); [done|].
  by apply processQueue_inv.
Qed.

Lemma sendDone_inv w k i task o now jitter :
  (0 <= jitter)%Q -> Inv w -> sending w !! k = Some (i, task) ->
  Inv (sendDone i task o now jitter (dropSending k w)).
Proof.
  intros Hj HI Hk. unfold sendDone.
  pose proof (finishSend_inv w k i task o HI Hk) as HI3.
  destruct (proxies (manager (finishSend i task o (dropSending k w))) !! i)
    as [proxy|]; [|done].
  destruct (drainsAgain proxy); [|done].
  apply processQueue_inv; [done|]. by apply record_inv.
Qed.

Lemma step_inv w w' : Inv w -> step w w' -> Inv w'.
Proof.
  intros HI Hstep. destruct Hstep.
  - by apply submitTransaction_inv.
  - by apply timerFire_inv.
  - by apply sendDone_inv.
Qed.

Lemma steps_inv w w' : Inv w -> steps w w' -> Inv w'.
Proof.
  intros HI Hsteps. induction Hsteps; [done|].
  apply step_inv with w2; auto.
Qed.

Lemma reachable_inv w : reachable w -> Inv w.
Proof.
  intros [n Hn]. apply steps_inv with (newWorld n); [apply newWorld_inv|done].
Qed.

End Pool.

Section PoolFacts.
Import ProxyManager.

Lemma processQueue_other i j now jitter w :
  i <> j ->
  proxies (manager (_processQueue j now jitter w)) !! i = proxies (manager w) !! i.
Proof.
  intros Hne.
  destruct (processQueue_cases j now jitter w)
    as [->|(proxy & task & rest & Hp & Hproc & Hh & Hq & ->)]; [done|].
  cbn. by rewrite list_lookup_insert_ne.
Qed.

Lemma processQueue_unhealthy i now jitter w p :
  proxies (manager w) !! i = Some p -> isHealthy p = false ->
  _processQueue i now jitter w = w.
Proof.
  intros Hp Hh. unfold _processQueue. rewrite Hp, Hh.
  by destruct (isProcessing p).
Qed.

Lemma processQueue_frozen i j now jitter w p :
  proxies (manager w) !! i = Some p -> isHealthy p = false ->
  proxies (manager (_processQueue j now jitter w)) !! i = Some p.
Proof.
  intros Hp Hh. destruct (decide (i = j)) as [<-|Hne].
  - by rewrite (processQueue_unhealthy i now jitter w p).
  - by rewrite processQueue_other.
Qed.

Lemma unhealthy_not_busy w i p :
  Inv w -> proxies (manager w) !! i = Some p -> isHealthy p = false ->
  i ∉ busy w.
Proof.
  intros HI Hp Hh Hin.
  destruct (inv_busy_processing w HI i Hin) as (p' & Hp' & Hproc).
  pose proof (inv_health w HI i p Hp) as Hhealth.
  rewrite Hh in Hhealth. destruct Hhealth as [_ Hfalse]. congruence.
Qed.

Lemma enqueue_frozen pk n w i p :
  proxies (manager w) !! i = Some p -> isHealthy p = false ->
  proxies (manager (enqueue pk n w).2) !! i = Some p /\
  (enqueue pk n w).1 <> Some i.
Proof.
  intros Hp Hh. unfold enqueue.
  pose proof (selectProxy_proxies (manager w)) as Hps.
  pose proof (selectProxy_healthy (manager w)) as Hsel.
  destruct (_selectProxy (manager w)) as [sel m']. cbn [fst snd] in *.
  destruct sel as [j| |]; cbn; rewrite ?Hps; try done.
  destruct (Hsel j eq_refl) as (proxy & Hpj & Hhj).
  rewrite Hpj. cbn. rewrite Hps.
  assert (j <> i) as Hne by (intros ->; congruence).
  rewrite list_lookup_insert_ne by done. split; [done|congruence].
Qed.

Lemma finishSend_other i j task o w :
  i <> j ->
  proxies (manager (finishSend j task o w)) !! i = proxies (manager w) !! i.
Proof.
  intros Hne. unfold finishSend.
  destruct (proxies (manager w) !! j) as [proxy|]; [|done].
  cbn. by rewrite !list_lookup_insert_ne.
Qed.

Lemma timerFire_other i tm fire w :
  i <> timerProxy tm ->
  proxies (manager (timerFire tm fire w)) !! i = proxies (manager w) !! i.
Proof.
  intros Hne. unfold timerFire.
  destruct (proxies (manager w) !! timerProxy tm) as [proxy|]; [|done].
  cbn. by rewrite list_lookup_insert_ne.
Qed.

(** An unhealthy proxy is never touched again. *)
Lemma step_frozen w w' i p :
  Inv w -> proxies (manager w) !! i = Some p -> isHealthy p = false ->
  step w w' -> proxies (manager w') !! i = Some p.
Proof.
  intros HI Hp Hh Hstep.
  pose proof (unhealthy_not_busy w i p HI Hp Hh) as Hfree.
  destruct Hstep as [w pk n now jitter Hj|w k tm fire Hk Hfire|w k j task o now jitter Hk Hj].
  - unfold submitTransaction.
    destruct (enqueue_frozen pk n w i p Hp Hh) as [Hp2 Hsel].
    destruct (enqueue pk n w) as [sel w2]. cbn [fst snd] in *.
    destruct sel as [j|]; [|done].
    destruct (proxies (manager w2) !! j) as [proxy|]; [|done].
    destruct (isProcessing proxy); [done|].
    by apply processQueue_frozen.
  - assert (i <> timerProxy tm) as Hne.
    { intros ->. apply Hfree. unfold busy. apply elem_of_app. left.
      apply list_elem_of_fmap. exists tm. split; [done|].
      apply list_elem_of_lookup. eauto. }
    by rewrite timerFire_other.
  - assert (i <> j) as Hne.
    { intros ->. apply Hfree. unfold busy. apply elem_of_app. right.
      apply list_elem_of_fmap. exists (j, task). split; [done|].
      apply list_elem_of_lookup. eauto. }
    unfold sendDone.
    assert (proxies (manager (finishSend j task o (dropSending k w))) !! i = Some p)
      as Hp3 by (by rewrite finishSend_other).
    destruct (proxies (manager (finishSend j task o (dropSending k w))) !! j)
      as [proxy|]; [|done].
    destruct (drainsAgain proxy); [|done].
    by apply processQueue_frozen.
Qed.

Lemma steps_frozen w w' i p :
  Inv w -> proxies (manager w) !! i = Some p -> isHealthy p = false ->
  steps w w' -> Inv w' /\ proxies (manager w') !! i = Some p.
Proof.
  intros HI Hp Hh Hsteps.
  induction Hsteps as [w|w w2 w3 Hsteps IH Hstep]; [done|].
  destruct (IH HI Hp) as [HI2 Hp2].
  split; [by apply step_inv with w2|by apply step_frozen with w2].
Qed.

Lemma queued_promise_pending w i p t :
  proxies (manager w) !! i = Some p -> t ∈ requestQueue p ->
  promise t ∈ queuedPromises (proxies (manager w)).
Proof.
  intros Hp Ht. unfold queuedPromises.
  apply list_elem_of_bind. exists p. split.
  - unfold queuePromises. apply list_elem_of_fmap. eauto.
  - apply list_elem_of_lookup. eauto.
Qed.

(** A promise that is queued is nowhere else. *)
Lemma queued_promise_elsewhere w q :
  Inv w -> q ∈ queuedPromises (proxies (manager w)) ->
  (q ∉ (fun t => promise (timerTask t)) <$> timers w) /\
  (q ∉ (fun x => promise (snd x)) <$> sending w) /\
  (q ∉ fst <$> settled w).
Proof.
  intros HI Hq.
  pose proof (inv_promises_nodup w HI) as Hnd.
  unfold allPromises, pendingPromises in Hnd.
  rewrite <- !(assoc (++)) in Hnd.
  apply NoDup_app in Hnd as (_ & Hdisj & _).
  specialize (Hdisj q Hq).
  rewrite !elem_of_app in Hdisj. tauto.
Qed.

Lemma sendDone_history i task o now jitter w proxy :
  proxies (manager w) !! i = Some proxy ->
  history (sendDone i task o now jitter w) =
  rev (sendDoneEffects i task o proxy) ++ history w.
Proof.
  intros Hp. unfold sendDone.
  rewrite (finishSend_eq i task o w proxy Hp).
  cbn [manager proxies].
  rewrite list_lookup_insert_eq by (by apply lookup_lt_Some in Hp).
  unfold sendDoneEffects.
  destruct (drainsAgain (clearProcessing (mark o proxy))) eqn:Hd.
  - match goal with |- history (_processQueue ?i ?n ?j ?w') = _ =>
      destruct (processQueue_cases i n j w')
        as [->|(pr & tk & rs & _ & _ & _ & _ & ->)] end; done.
  - done.
Qed.

Lemma sendDone_lastRequestTime i task o now jitter w proxy :
  proxies (manager w) !! i = Some proxy ->
  lastRequestTime <$> proxies (manager (sendDone i task o now jitter w)) !! i =
  Some (lastRequestTime proxy).
Proof.
  intros Hp. unfold sendDone.
  rewrite (finishSend_eq i task o w proxy Hp).
  cbn [manager proxies].
  pose proof (lookup_lt_Some _ _ _ Hp) as Hlt.
  rewrite list_lookup_insert_eq by done.
  destruct (drainsAgain (clearProcessing (mark o proxy))).
  - match goal with |- _ <$> proxies (manager (_processQueue ?i ?n ?j ?w')) !! _ = _ =>
      destruct (processQueue_cases i n j w')
        as [->|(pr & tk & rs & Hpr & _ & _ & _ & ->)] end; cbn.
    + rewrite list_lookup_insert_eq by done. cbn. by destruct o.
    + cbn in Hpr. rewrite list_lookup_insert_eq in Hpr by done.
      injection Hpr as <-.
      rewrite list_lookup_insert_eq by (by rewrite length_insert).
      cbn. by destruct o.
  - cbn. rewrite list_lookup_insert_eq by done. cbn. by destruct o.
Qed.

End PoolFacts.

Section PoolRuns.
Import ProxyManager.

Lemma feed_step a w w' : feed a w = Some w' -> step w w'.
Proof.
  destruct a as [pk n now jitter|k fire|k o now jitter]; cbn [feed].
  - destruct (Qle_bool 0 jitter) eqn:Hj; [|done].
    intros [= <-]. apply step_submit. by apply Qle_bool_iff.
  - destruct (timers w !! k) as [tm|] eqn:Hk; [|done].
    destruct (Z.leb_spec (timerSet tm + Qfloor (timerDelay tm)) fire); [|done].
    intros [= <-]. by apply step_timer.
  - destruct (sending w !! k) as [[i task]|] eqn:Hk; [|done].
    destruct (Qle_bool 0 jitter) eqn:Hj; [|done].
    intros [= <-]. apply step_send; [done|]. by apply Qle_bool_iff.
Qed.

Lemma feedAll_steps l w w' : feedAll l w = Some w' -> steps w w'.
Proof.
  revert w.
  induction l as [|a l IH]; intros w; cbn [feedAll].
  - intros [= <-]. apply steps_refl.
  - destruct (feed a w) as [w1|] eqn:Ha; [|done].
    intros Hrest. specialize (IH _ Hrest).
    apply feed_step in Ha.
    clear Hrest. induction IH as [w1|w1 w2 w3 H12 IH12 H23].
    + apply steps_more with w; [apply steps_refl|done].
    + apply steps_more with w2; [by apply IH12|done].
Qed.

Lemma strandedWorld_reachable : reachable strandedWorld.
Proof.
  exists 1. apply (feedAll_steps strandingTrace). by vm_compute.
Qed.

Lemma slowSendWorld_reachable : reachable slowSendWorld.
Proof.
  exists 1. apply (feedAll_steps slowSendTrace). by vm_compute.
Qed.

End PoolRuns.

(** C4. In every state the pool can reach, for every proxy: a failed send
    adds exactly one to [failureCount]; the proxy is unhealthy exactly when
    [failureCount] is [MAX_PROXY_FAILURES] = 3, which a failure brings
    about exactly when it makes the counter reach 3; and [_selectProxy]
    does not return a proxy that is unhealthy. *)
Theorem C4_unhealthy_at_three_failures
    (w : ProxyManager.World) (i : nat) (p : ProxyManager.Proxy) :
  ProxyManager.reachable w ->
  ProxyManager.proxies (ProxyManager.manager w) !! i = Some p ->
  ProxyManager.failureCount (ProxyManager.markFailure p)
    = S (ProxyManager.failureCount p) /\
  (forall k task,
     ProxyManager.sending w !! k = Some (i, task) ->
     ProxyManager.proxies
       (ProxyManager.manager
          (ProxyManager.finishSend i task ProxyManager.Thrown
             (ProxyManager.dropSending k w))) !! i
     = Some (ProxyManager.clearProcessing (ProxyManager.markFailure p))) /\
  ProxyManager.MAX_PROXY_FAILURES = 3 /\
  (ProxyManager.isHealthy p = false <->
   ProxyManager.failureCount p = ProxyManager.MAX_PROXY_FAILURES) /\
  (ProxyManager.isHealthy p = true ->
   (ProxyManager.isHealthy (ProxyManager.markFailure p) = false <->
    ProxyManager.failureCount (ProxyManager.markFailure p)
      = ProxyManager.MAX_PROXY_FAILURES)) /\
  (ProxyManager.isHealthy p = false ->
   (ProxyManager._selectProxy (ProxyManager.manager w)).1
     <> ProxyManager.Selected i).
Proof.
  intros Hreach Hp.
  pose proof (reachable_inv w Hreach) as HI.
  pose proof (ProxyManager.inv_health w HI i p Hp) as Hhealth.
  split; [reflexivity|]. split.
  { intros k task Hk.
    rewrite (finishSend_eq i task ProxyManager.Thrown _ p) by done.
    cbn. apply list_lookup_insert_eq. by apply lookup_lt_Some in Hp. }
  split; [reflexivity|]. split; [|split].
  - destruct (ProxyManager.isHealthy p).
    + split; [done|]. intros Heq. rewrite Heq in Hhealth. lia.
    + split; [by intros _; apply Hhealth|done].
  - intros Hh. rewrite Hh in Hhealth.
    unfold ProxyManager.markFailure;
      cbn [ProxyManager.isHealthy ProxyManager.failureCount].
    destruct (Nat.leb_spec ProxyManager.MAX_PROXY_FAILURES
                (S (ProxyManager.failureCount p)));
      unfold ProxyManager.MAX_PROXY_FAILURES in *.
    + split; [lia|done].
    + rewrite Hh. split; [done|lia].
  - intros Hh Hsel.
    destruct (selectProxy_healthy _ _ Hsel) as (p' & Hp' & Hh').
    congruence.
Qed.

Lemma C4_unhealthy_at_three_failures_witness :
  ProxyManager.isHealthy
    (ProxyManager.mkProxy [ProxyManager.mkTask 1 3 3] false 3 false 300) = false <->
  ProxyManager.failureCount
    (ProxyManager.mkProxy [ProxyManager.mkTask 1 3 3] false 3 false 300)
  = ProxyManager.MAX_PROXY_FAILURES.
Proof.
  refine (proj1 (proj2 (proj2 (proj2
            (C4_unhealthy_at_three_failures ProxyManager.strandedWorld 0
               (ProxyManager.mkProxy [ProxyManager.mkTask 1 3 3] false 3 false 300)
               _ _))))).
  - exists 1. apply (feedAll_steps ProxyManager.strandingTrace).
    vm_compute. reflexivity.
  - vm_compute. reflexivity.
Defined.



(** C7 as stated fails: a send that was dispatched at time 1000 and
    completed at time 9000 leaves [lastRequestTime] at 1000. *)
Lemma C7_completion_keeps_lastRequestTime :
  ProxyManager.feedAll ProxyManager.slowSendTrace (ProxyManager.newWorld 1)
    = Some ProxyManager.slowSendWorld /\
  ProxyManager.lastRequestTime <$>
    ProxyManager.proxies (ProxyManager.manager ProxyManager.slowSendWorld) !! 0
    = Some 1000%Z /\
  ProxyManager.lastRequestTime <$>
    ProxyManager.proxies (ProxyManager.manager ProxyManager.slowSendWorld) !! 0
    <> Some 9000%Z.
Proof. by vm_compute. Qed.

(** C7, amended. [lastRequestTime] is written when the timer callback runs,
    before the send starts, and the task is then in flight.  When the send
    completes, the proxy's health is updated (success: counter 0 and
    healthy; failure: counter plus one, unhealthy from 3), then the task's
    promise is resolved on success and rejected on failure, then
    [isProcessing] is cleared and [_processQueue] is called again exactly
    when the proxy is healthy and its queue is not empty, which pops the
    next task and sets a timer for it; [lastRequestTime] is not touched. *)
Theorem C7_completion_order
    (w : ProxyManager.World) (i : nat) (p : ProxyManager.Proxy) :
  ProxyManager.proxies (ProxyManager.manager w) !! i = Some p ->
  (forall k tm fire,
     ProxyManager.timers w !! k = Some tm -> ProxyManager.timerProxy tm = i ->
     let w' := ProxyManager.timerFire tm fire (ProxyManager.dropTimer k w) in
     ProxyManager.proxies (ProxyManager.manager w') !! i
     = Some (ProxyManager.mkProxy (ProxyManager.requestQueue p)
               (ProxyManager.isProcessing p) (ProxyManager.failureCount p)
               (ProxyManager.isHealthy p) fire) /\
     ProxyManager.lastRequestTime <$>
       ProxyManager.proxies (ProxyManager.manager w') !! i = Some fire /\
     ProxyManager.history w'
     = ProxyManager.EffLastRequestTime i fire :: ProxyManager.history w /\
     ProxyManager.sending w' = (i, ProxyManager.timerTask tm) :: ProxyManager.sending w /\
     ProxyManager.settled w' = ProxyManager.settled w) /\
  (forall k task o now jitter,
     ProxyManager.sending w !! k = Some (i, task) ->
     let failures :=
       match o with
       | ProxyManager.Receipt => 0
       | ProxyManager.Thrown => S (ProxyManager.failureCount p)
       end in
     let healthy :=
       match o with
       | ProxyManager.Receipt => true
       | ProxyManager.Thrown =>
           if 3 <=? S (ProxyManager.failureCount p) then false
           else ProxyManager.isHealthy p
       end in
     let verdict :=
       match o with
       | ProxyManager.Receipt => ProxyManager.Resolved
       | ProxyManager.Thrown => ProxyManager.Rejected
       end in
     let again := healthy && (0 <? length (ProxyManager.requestQueue p)) in
     let w1 := ProxyManager.finishSend i task o (ProxyManager.dropSending k w) in
     let w' := ProxyManager.sendDone i task o now jitter (ProxyManager.dropSending k w) in
     ProxyManager.proxies (ProxyManager.manager w1) !! i
     = Some (ProxyManager.mkProxy (ProxyManager.requestQueue p) false failures healthy
               (ProxyManager.lastRequestTime p)) /\
     ProxyManager.settled w1
     = (ProxyManager.promise task, verdict) :: ProxyManager.settled w /\
     ProxyManager.history w1
     = ProxyManager.EffSettle (ProxyManager.promise task) verdict
       :: ProxyManager.EffMark i failures healthy :: ProxyManager.history w /\
     w' = (if again
           then ProxyManager._processQueue i now jitter
                  (ProxyManager.record (ProxyManager.EffProcessQueue i) w1)
           else w1) /\
     ProxyManager.history w' =
       rev ([ProxyManager.EffMark i failures healthy;
             ProxyManager.EffSettle (ProxyManager.promise task) verdict]
            ++ (if again then [ProxyManager.EffProcessQueue i] else []))
       ++ ProxyManager.history w /\
     ProxyManager.settled w'
     = (ProxyManager.promise task, verdict) :: ProxyManager.settled w /\
     ProxyManager.sending w' = delete k (ProxyManager.sending w) /\
     match ProxyManager.requestQueue p, healthy with
     | next :: rest, true =>
         ProxyManager.proxies (ProxyManager.manager w') !! i
         = Some (ProxyManager.mkProxy rest true failures true
                   (ProxyManager.lastRequestTime p)) /\
         ProxyManager.timers w'
         = ProxyManager.mkTimer i next now
             (inject_Z (Z.max 0 (100 - (now - ProxyManager.lastRequestTime p))) + jitter)
           :: ProxyManager.timers w
     | _, _ =>
         ProxyManager.proxies (ProxyManager.manager w') !! i
         = Some (ProxyManager.mkProxy (ProxyManager.requestQueue p) false failures
                   healthy (ProxyManager.lastRequestTime p)) /\
         ProxyManager.timers w' = ProxyManager.timers w
     end /\
     ProxyManager.lastRequestTime <$>
       ProxyManager.proxies (ProxyManager.manager w') !! i
       = Some (ProxyManager.lastRequestTime p)).
Proof.
  intros Hp. pose proof (lookup_lt_Some _ _ _ Hp) as Hlt. split.
  - intros k tm fire Hk Htm w'. subst w' i.
    unfold ProxyManager.timerFire. cbn [ProxyManager.dropTimer ProxyManager.manager].
    rewrite Hp. cbn.
    rewrite list_lookup_insert_eq by done. done.
  - intros k task o now jitter Hk failures healthy verdict again w1 w'.
    assert (ProxyManager.mark o p
            = ProxyManager.mkProxy (ProxyManager.requestQueue p)
                (ProxyManager.isProcessing p) failures healthy
                (ProxyManager.lastRequestTime p)) as Hmark.
    { subst failures healthy. by destruct o. }
    assert (ProxyManager.settlementOf o = verdict) as Hverdict.
    { subst verdict. by destruct o. }
    assert (w1 = ProxyManager.mkWorld
              (ProxyManager.mkManager
                 (<[i := ProxyManager.mkProxy (ProxyManager.requestQueue p) false
                           failures healthy (ProxyManager.lastRequestTime p)]>
                    (ProxyManager.proxies (ProxyManager.manager w)))
                 (ProxyManager.currentProxyIndex (ProxyManager.manager w)))
              (ProxyManager.timers w) (delete k (ProxyManager.sending w))
              ((ProxyManager.promise task, verdict) :: ProxyManager.settled w)
              (ProxyManager.nextPromise w)
              (ProxyManager.EffSettle (ProxyManager.promise task) verdict
               :: ProxyManager.EffMark i failures healthy :: ProxyManager.history w))
      as Hw1.
    { subst w1. unfold ProxyManager.finishSend.
      cbn [ProxyManager.dropSending ProxyManager.manager].
      rewrite Hp, Hmark, Hverdict.
      unfold ProxyManager.setProxy, ProxyManager.settle, ProxyManager.record,
        ProxyManager.clearProcessing. cbn.
      by rewrite !list_insert_insert_eq. }
    assert (w' = (if again
                  then ProxyManager._processQueue i now jitter
                         (ProxyManager.record (ProxyManager.EffProcessQueue i) w1)
                  else w1)) as Hw'.
    { subst w'. unfold ProxyManager.sendDone. fold w1. rewrite Hw1 at 1.
      cbn [ProxyManager.manager ProxyManager.proxies].
      rewrite list_lookup_insert_eq by done. reflexivity. }
    clearbody w1 w'. subst w1.
    split; [cbn; by rewrite list_lookup_insert_eq|].
    split; [done|]. split; [done|]. split; [done|].
    unfold ProxyManager._processQueue, ProxyManager.record in Hw'. cbn in Hw'.
    rewrite list_lookup_insert_eq in Hw' by done. cbn in Hw'.
    subst again.
    destruct healthy, (ProxyManager.requestQueue p) as [|next rest] eqn:Hq;
      cbn in Hw'; subst w'; cbn;
      rewrite ?list_insert_insert_eq, ?list_lookup_insert_eq by done; done.
Qed.

Lemma C7_completion_order_witness :
  ProxyManager.lastRequestTime <$>
    ProxyManager.proxies
      (ProxyManager.manager
         (ProxyManager.sendDone 0 (ProxyManager.mkTask 1 0 0) ProxyManager.Receipt
            9000 0
            (ProxyManager.dropSending 0
               (default (ProxyManager.newWorld 1)
                  (ProxyManager.feedAll
                     (take 2 ProxyManager.slowSendTrace)
                     (ProxyManager.newWorld 1)))))) !! 0
  = Some 1000%Z.
Proof.
  refine (proj2 (proj2 (proj2 (proj2 (proj2 (proj2 (proj2 (proj2
           (proj2 (C7_completion_order
              (default (ProxyManager.newWorld 1)
                 (ProxyManager.feedAll (take 2 ProxyManager.slowSendTrace)
                    (ProxyManager.newWorld 1)))
              0 (ProxyManager.mkProxy [] true 0 true 1000%Z) _)
              0 (ProxyManager.mkTask 1 0%Z 0) ProxyManager.Receipt 9000%Z 0%Q _))))))))).
  - reflexivity.
  - reflexivity.
Defined.

(** C10. Once a proxy is unhealthy, whatever the pool does afterwards, the
    proxy object stays as it is, with the same tasks in its queue; none of
    these tasks is ever popped onto a timer or sent, and the promise that
    [submitTransaction] returned for it is never resolved or rejected. *)
Theorem C10_stranded_tasks_never_settle
    (w w' : ProxyManager.World) (i : nat) (p : ProxyManager.Proxy)
    (t : ProxyManager.Task) :
  ProxyManager.reachable w ->
  ProxyManager.proxies (ProxyManager.manager w) !! i = Some p ->
  ProxyManager.isHealthy p = false ->
  t ∈ ProxyManager.requestQueue p ->
  ProxyManager.steps w w' ->
  ProxyManager.proxies (ProxyManager.manager w') !! i = Some p /\
  (forall tm, tm ∈ ProxyManager.timers w' ->
     ProxyManager.timerProxy tm <> i /\
     ProxyManager.promise (ProxyManager.timerTask tm) <> ProxyManager.promise t) /\
  (forall x, x ∈ ProxyManager.sending w' ->
     x.1 <> i /\ ProxyManager.promise x.2 <> ProxyManager.promise t) /\
  (forall s, (ProxyManager.promise t, s) ∉ ProxyManager.settled w') /\
  (forall now jitter, ProxyManager._processQueue i now jitter w' = w') /\
  (ProxyManager._selectProxy (ProxyManager.manager w')).1 <> ProxyManager.Selected i.
Proof.
  intros Hreach Hp Hh Ht Hsteps.
  pose proof (reachable_inv w Hreach) as HI.
  destruct (steps_frozen w w' i p HI Hp Hh Hsteps) as [HI' Hp'].
  pose proof (unhealthy_not_busy w' i p HI' Hp' Hh) as Hfree.
  pose proof (queued_promise_pending w' i p t Hp' Ht) as Hq.
  destruct (queued_promise_elsewhere w' _ HI' Hq) as (Htm & Hsn & Hst).
  split; [done|]. split; [|split; [|split; [|split]]].
  - intros tm Hin. split.
    + intros Heq. apply Hfree. unfold ProxyManager.busy.
      apply elem_of_app. left. apply list_elem_of_fmap. eauto.
    + intros Heq. apply Htm. apply list_elem_of_fmap. eauto.
  - intros x Hin. split.
    + intros Heq. apply Hfree. unfold ProxyManager.busy.
      apply elem_of_app. right. apply list_elem_of_fmap. eauto.
    + intros Heq. apply Hsn. apply list_elem_of_fmap. eauto.
  - intros s Hin. apply Hst. apply list_elem_of_fmap.
    exists (ProxyManager.promise t, s). done.
  - intros now jitter. by apply processQueue_unhealthy with p.
  - intros Hsel.
    destruct (selectProxy_healthy _ _ Hsel) as (p2 & Hp2 & Hh2). congruence.
Qed.

Lemma C10_stranded_tasks_never_settle_witness :
  ProxyManager.proxies
    (ProxyManager.manager
       (ProxyManager.submitTransaction 1 4 400 0 ProxyManager.strandedWorld).2) !! 0
  = Some (ProxyManager.mkProxy [ProxyManager.mkTask 1 3 3] false 3 false 300).
Proof.
  refine (proj1
            (C10_stranded_tasks_never_settle ProxyManager.strandedWorld
               (ProxyManager.submitTransaction 1 4 400 0 ProxyManager.strandedWorld).2
               0 (ProxyManager.mkProxy [ProxyManager.mkTask 1 3 3] false 3 false 300)
               (ProxyManager.mkTask 1 3 3) _ _ _ _ _)).
  - exists 1. apply (feedAll_steps ProxyManager.strandingTrace).
    vm_compute. reflexivity.
  - vm_compute. reflexivity.
  - reflexivity.
  - left.
  - apply ProxyManager.steps_more with ProxyManager.strandedWorld.
    + apply ProxyManager.steps_refl.
    + apply ProxyManager.step_submit. discriminate.
Defined.

(** ** The nonce queue *)

Section NonceQueueProofs.
Import Mint.

Lemma newNonceQueue_inv : QInv newNonceQueue.
Proof. by repeat split. Qed.

Lemma process_inv now q : QInv q -> QInv (processDirectNonceQueue now q).
Proof.
  intros HI. pose proof HI as [Hsp Hact]. unfold processDirectNonceQueue.
  destruct (isProcessingDirectNonceQueue q) eqn:Hflag; [done|].
  destruct (directProviderNonceQueue q) as [|r rest] eqn:Hq; [done|].
  destruct (activations q) as [|[r0 set ms|r0 start] [|]] eqn:Ha;
    try (destruct Hact; congruence); try done.
  destruct Hact as (_ & Hreq & Hlast).
  destruct (Z.ltb_spec (now - lastDirectNonceCallTime q)
              DIRECT_PROVIDER_CALL_INTERVAL_MS) as [Hsoon|Hlate].
  - split; [done|]. cbn. rewrite ?Ha. repeat split; try done. lia.
  - split.
    + cbn. apply spaced_cons; [done|].
      intros t Ht. specialize (Hlast t Ht). lia.
    + cbn. rewrite ?Ha. repeat split.
      rewrite Hreq. by rewrite <- app_assoc.
Qed.

Lemma fetch_inv addr now q : QInv q -> QInv (fetchNonceViaQueue addr now q).2.
Proof.
  intros HI. unfold fetchNonceViaQueue. cbn [snd].
  set (q1 := mkNonceQueue _ _ _ _ _ _ _ _).
  assert (QInv q1) as HI1.
  { destruct HI as [Hsp Hact]. split; [done|]. subst q1. cbn.
    destruct (activations q) as [|[r0 set ms|r0 start] [|]]; try done.
    - destruct Hact as (Hf & Hreq & Hlast). repeat split; try done.
      rewrite Hreq. by rewrite <- app_assoc.
    - destruct Hact as (Hf & Hreq & Hlast & Hdue). repeat split; try done.
      rewrite Hreq. by rewrite <- app_assoc.
    - destruct Hact as (Hf & Hreq & Hhd). repeat split; try done.
      rewrite Hreq. by rewrite <- app_assoc. }
  destruct (isProcessingDirectNonceQueue q1); [done|].
  by apply process_inv.
Qed.

Lemma delayOver_inv q k r set ms fire :
  QInv q -> activations q !! k = Some (Delaying r set ms) ->
  (set + ms <= fire)%Z -> QInv (delayOver k r fire q).
Proof.
  intros [Hsp Hact] Hk Hfire.
  destruct (activations q) as [|a [|]] eqn:Ha; [done| |by destruct a].
  destruct k as [|k]; [|done]. cbn in Hk. injection Hk as ->.
  destruct Hact as (Hf & Hreq & Hlast & Hdue).
  split.
  - cbn. apply spaced_cons; [done|].
    intros t Ht. specialize (Hlast t Ht). lia.
  - cbn. rewrite ?Ha. cbn. repeat split; [done|].
    rewrite Hreq. cbn. by rewrite <- app_assoc.
Qed.

Lemma callOver_inv q k r start res now now' :
  QInv q -> activations q !! k = Some (Calling r start) ->
  (start <= now)%Z -> QInv (callOver k r res now now' q).
Proof.
  intros [Hsp Hact] Hk Hnow.
  destruct (activations q) as [|a [|]] eqn:Ha; [done| |by destruct a].
  destruct k as [|k]; [|done]. cbn in Hk. injection Hk as ->.
  destruct Hact as (Hf & Hreq & Hhd).
  unfold callOver.
  set (q1 := mkNonceQueue _ _ _ _ _ _ _ _).
  assert (QInv q1) as HI1.
  { split; [done|]. subst q1. cbn. rewrite ?Ha. cbn. repeat split; [done|].
    intros t Ht. destruct (calls q) as [|[r1 t1] rest]; [done|].
    cbn in *. injection Hhd as -> ->. injection Ht as <-. done. }
  destruct (directProviderNonceQueue q1); [done|].
  by apply process_inv.
Qed.

Lemma qstep_inv q q' : QInv q -> qstep q q' -> QInv q'.
Proof.
  intros HI Hstep. destruct Hstep.
  - by apply fetch_inv.
  - by apply delayOver_inv with set ms.
  - by apply callOver_inv with start.
Qed.

Lemma qsteps_inv q : qsteps newNonceQueue q -> QInv q.
Proof.
  intros Hsteps.
  remember newNonceQueue as q0 eqn:Hq0.
  induction Hsteps as [q|q1 q2 q3 H12 IH H23].
  - subst. apply newNonceQueue_inv.
  - apply qstep_inv with q2; auto.
Qed.

Lemma qfeed_step a q q' : qfeed a q = Some q' -> qstep q q'.
Proof.
  destruct a as [addr now|k fire|k res now now']; cbn [qfeed].
  - intros [= <-]. apply qstep_fetch.
  - destruct (activations q !! k) as [[r set ms|r start]|] eqn:Hk; try done.
    destruct (Z.leb_spec (set + ms) fire); [|done].
    intros [= <-]. by apply qstep_delay with set ms.
  - destruct (activations q !! k) as [[r set ms|r start]|] eqn:Hk; try done.
    destruct (Z.leb_spec start now); [|done].
    intros [= <-]. by apply qstep_call with start.
Qed.

Lemma qfeedAll_steps l q q' : qfeedAll l q = Some q' -> qsteps q q'.
Proof.
  revert q.
  induction l as [|a l IH]; intros q; cbn [qfeedAll].
  - intros [= <-]. apply qsteps_refl.
  - destruct (qfeed a q) as [q1|] eqn:Ha; [|done].
    intros Hrest. specialize (IH _ Hrest).
    apply qfeed_step in Ha.
    clear Hrest. induction IH as [q1|q1 q2 q3 H12 IH12 H23].
    + apply qsteps_more with q; [apply qsteps_refl|done].
    + apply qsteps_more with q2; [by apply IH12|done].
Qed.

Lemma burstQueue_reachable : qsteps newNonceQueue burstQueue.
Proof. apply (qfeedAll_steps burstTrace). by vm_compute. Qed.

End NonceQueueProofs.

(** C8. In every state the nonce queue can reach: at most one activation
    of [processDirectNonceQueue] is suspended, so at most one call of
    [directProvider.getTransactionCount] made through the queue is in
    flight; the calls made so far are for the first requests pushed, in
    the order they were pushed; and each call was made at least
    [DIRECT_PROVIDER_CALL_INTERVAL_MS] after the one before it, whatever
    wallets they are for, given that a [delay] does not end early and the
    clock does not run backwards during a call. *)
Theorem C8_nonce_queue_single_flight (q : Mint.NonceQueue) :
  Mint.qsteps Mint.newNonceQueue q ->
  length (Mint.activations q) <= 1 /\
  Mint.inFlight q <= 1 /\
  (Mint.isProcessingDirectNonceQueue q = true <-> Mint.activations q <> []) /\
  rev (fst <$> Mint.calls q) `prefix_of` Mint.requested q /\
  ProxyManager.spaced Mint.DIRECT_PROVIDER_CALL_INTERVAL_MS (snd <$> Mint.calls q) /\
  (forall k r set ms,
     Mint.activations q !! k = Some (Mint.Delaying r set ms) ->
     (Mint.lastDirectNonceCallTime q + Mint.DIRECT_PROVIDER_CALL_INTERVAL_MS
      <= set + ms)%Z).
Proof.
  intros Hreach.
  destruct (qsteps_inv q Hreach) as [Hsp Hact].
  unfold Mint.inFlight.
  assert (forall l : list Mint.NonceRequest,
            Mint.requested q = rev (fst <$> Mint.calls q) ++ l ->
            rev (fst <$> Mint.calls q) `prefix_of` Mint.requested q) as Hprefix.
  { intros l ->. by apply prefix_app_r. }
  destruct (Mint.activations q) as [|a [|]] eqn:Ha; [| |by destruct a].
  - destruct Hact as (Hf & Hreq & Hlast).
    split; [cbn; lia|]. split; [vm_compute; lia|].
    split; [split; congruence|].
    split; [by apply Hprefix with (Mint.directProviderNonceQueue q)|].
    split; [done|]. intros k r set ms Hk. done.
  - destruct a as [r0 set0 ms0|r0 start0].
    + destruct Hact as (Hf & Hreq & Hlast & Hdue).
      split; [cbn; lia|]. split; [vm_compute; lia|].
      split; [split; congruence|].
      split; [by apply Hprefix with (r0 :: Mint.directProviderNonceQueue q)|].
      split; [done|].
      intros [|k] r set ms Hk; [|done]. cbn in Hk. by injection Hk as -> -> ->.
    + destruct Hact as (Hf & Hreq & Hhd).
      split; [cbn; lia|]. split; [vm_compute; lia|].
      split; [split; congruence|].
      split; [by apply Hprefix with (Mint.directProviderNonceQueue q)|].
      split; [done|].
      intros [|k] r set ms Hk; done.
Qed.

Lemma C8_nonce_queue_single_flight_witness :
  Mint.inFlight Mint.burstQueue <= 1.
Proof.
  refine (proj1 (proj2 (C8_nonce_queue_single_flight Mint.burstQueue _))).
  apply (qfeedAll_steps Mint.burstTrace). vm_compute. reflexivity.
Defined.

(** ** The wallet lock *)

Section LockProofs.
Import Mint.

Lemma addressOf_insert (ws : list WalletInfo) w wi n w' :
  ws !! w = Some wi ->
  address <$> (<[w := mkWalletInfo (address wi) n]> ws) !! w' = address <$> ws !! w'.
Proof.
  intros Hw. destruct (decide (w = w')) as [<-|Hne].
  - rewrite list_lookup_insert_eq by (by apply lookup_lt_Some in Hw).
    by rewrite Hw.
  - by rewrite list_lookup_insert_ne.
Qed.

(** What [continueOperation] leaves behind. *)
Lemma continueOperation_spec f w wi p o s :
  walletInfos s !! w = Some wi ->
  let r := continueOperation f w wi p o s in
  flows r.2 = flows s /\ nextLock r.2 = nextLock s /\
  (forall w', addressOf r.2 w' = addressOf s w') /\
  match r.1 with
  | InOperation p' _ => p' = p /\ walletLocks r.2 = walletLocks s
  | Over _ => walletLocks r.2 = delete (address wi) (walletLocks s)
  | AwaitLock _ => False
  end.
Proof.
  intros Hw. destruct o as [[pc n] acts]. unfold continueOperation.
  destruct (terminal pc); cbn; unfold addressOf; cbn;
    repeat split; try done; intros w'; by apply addressOf_insert.
Qed.

(** What [enter] leaves behind. *)
Lemma enter_spec f w wi s :
  walletInfos s !! w = Some wi ->
  let r := enter f w wi s in
  flows r.2 = flows s /\
  (forall w', addressOf r.2 w' = addressOf s w') /\
  match r.1 with
  | AwaitLock p => r.2 = s /\ walletLocks s !! address wi = Some p
  | InOperation p _ =>
      walletLocks s !! address wi = None /\ p = nextLock s /\
      nextLock r.2 = S (nextLock s) /\
      walletLocks r.2 = <[address wi := p]> (walletLocks s)
  | Over _ =>
      walletLocks s !! address wi = None /\
      nextLock r.2 = S (nextLock s) /\ walletLocks r.2 = walletLocks s
  end.
Proof.
  intros Hw. unfold enter.
  destruct (walletLocks s !! address wi) as [p|] eqn:Hlock; [done|].
  set (s1 := mkSystem _ _ _ _ _ _).
  pose proof (continueOperation_spec f w wi (nextLock s)
                (startAttempt 0 (currentNonce wi)) s1 Hw) as Hspec.
  cbn zeta in Hspec |- *.
  destruct (continueOperation f w wi (nextLock s)
              (startAttempt 0 (currentNonce wi)) s1) as [pc s'].
  cbn [fst snd] in *.
  destruct Hspec as (Hfl & Hnx & Haddr & Hpc).
  split; [done|]. split; [done|].
  destruct pc as [p|p pc|ok]; [done| |].
  - destruct Hpc as [-> Hlocks]. by rewrite Hlocks.
  - repeat split; try done. rewrite Hpc. subst s1. cbn.
    rewrite delete_insert_eq. by apply delete_id.
Qed.

Lemma newSystem_inv ws : LInv (newSystem ws).
Proof. by constructor. Qed.

(** A flow that has just taken the lock is recorded as flow [f]. *)
Lemma linv_enter s s' f w wi pc (fs : list Flow) :
  LInv s -> walletInfos s !! w = Some wi ->
  enter f w wi s = (pc, s') ->
  (forall g x p' pc', fs !! g = Some (mkFlow x (InOperation p' pc')) ->
     g = f \/ flows s !! g = Some (mkFlow x (InOperation p' pc'))) ->
  fs !! f = Some (mkFlow w pc) ->
  (forall x p' pc', flows s !! f <> Some (mkFlow x (InOperation p' pc'))) ->
  LInv (mkSystem (walletInfos s') (walletLocks s') (resolvedLocks s')
                 (nextLock s') fs (trail s')).
Proof.
  intros [Hst Hsi] Hw Henter Hfs Hf Hnot.
  pose proof (enter_spec f w wi s Hw) as Hspec. rewrite Henter in Hspec.
  cbn [fst snd] in Hspec. destruct Hspec as (_ & Haddr & Hpc).
  assert (addressOf s w = Some (address wi)) as Haw.
  { unfold addressOf. by rewrite Hw. }
  assert (forall x,
            addressOf (mkSystem (walletInfos s') (walletLocks s') (resolvedLocks s')
                         (nextLock s') fs (trail s')) x = addressOf s x) as Haddr'.
  { intros x. apply Haddr. }
  assert (forall g x p' pc',
            g <> f -> fs !! g = Some (mkFlow x (InOperation p' pc')) ->
            flows s !! g = Some (mkFlow x (InOperation p' pc'))) as Hold.
  { intros g x p' pc' Hne Hg. by destruct (Hfs _ _ _ _ Hg). }
  destruct pc as [p|p pc|ok].
  - (* waits *)
    destruct Hpc as [-> Hlock].
    constructor; cbn -[addressOf]; try setoid_rewrite Haddr'.
    + intros g x p' pc' Hg. destruct (decide (g = f)) as [->|Hne]; [congruence|].
      apply Hold in Hg; [|done].
      destruct (Hst _ _ _ _ Hg) as (Hlt & a & Ha & Hla).
      split; [done|]. exists a. done.
    + intros g h x y p' pc1 pc2 Hg Hh.
      destruct (decide (g = f)) as [->|Hng]; [congruence|].
      destruct (decide (h = f)) as [->|Hnh]; [congruence|].
      eapply Hsi; eauto.
  - (* takes the lock *)
    destruct Hpc as (Hfree & -> & Hnext & Hlocks).
    constructor; cbn -[addressOf]; try setoid_rewrite Haddr'; rewrite ?Hnext, ?Hlocks.
    + intros g x p' pc' Hg. destruct (decide (g = f)) as [->|Hne].
      * rewrite Hf in Hg. injection Hg as <- <- <-.
        split; [lia|]. exists (address wi).
        split; [done|]. by rewrite lookup_insert_eq.
      * apply Hold in Hg; [|done].
        destruct (Hst _ _ _ _ Hg) as (Hlt & a & Ha & Hla).
        split; [lia|]. exists a. split; [done|].
        rewrite lookup_insert_ne; [done|]. intros <-. congruence.
    + intros g h x y p' pc1 pc2 Hg Hh.
      destruct (decide (g = f)) as [->|Hng];
        destruct (decide (h = f)) as [->|Hnh]; [done| | |].
      * rewrite Hf in Hg. injection Hg as <- <- <-.
        apply Hold in Hh; [|done]. destruct (Hst _ _ _ _ Hh). lia.
      * rewrite Hf in Hh. injection Hh as <- <- <-.
        apply Hold in Hg; [|done]. destruct (Hst _ _ _ _ Hg). lia.
      * eapply Hsi; eauto.
  - (* the operation is over at once *)
    destruct Hpc as (Hfree & Hnext & Hlocks).
    constructor; cbn -[addressOf]; try setoid_rewrite Haddr'; rewrite ?Hnext, ?Hlocks.
    + intros g x p' pc' Hg. destruct (decide (g = f)) as [->|Hne]; [congruence|].
      apply Hold in Hg; [|done].
      destruct (Hst _ _ _ _ Hg) as (Hlt & a & Ha & Hla).
      split; [lia|]. exists a. split; [done|done].
    + intros g h x y p' pc1 pc2 Hg Hh.
      destruct (decide (g = f)) as [->|Hng]; [congruence|].
      destruct (decide (h = f)) as [->|Hnh]; [congruence|].
      eapply Hsi; eauto.
Qed.

Lemma call_inv s w wi :
  LInv s -> walletInfos s !! w = Some wi -> LInv (callWithWalletLock w wi s).
Proof.
  intros HI Hw. unfold callWithWalletLock.
  destruct (enter (length (flows s)) w wi s) as [pc s'] eqn:Henter.
  pose proof (enter_spec (length (flows s)) w wi s Hw) as Hspec.
  rewrite Henter in Hspec. cbn [fst snd] in Hspec. destruct Hspec as (Hfl & _).
  unfold newFlow. rewrite Hfl.
  apply (linv_enter s s' (length (flows s)) w wi pc); try done.
  - intros g x p' pc' Hg. apply lookup_snoc_Some in Hg as [[_ Hg]|[-> _]]; auto.
  - by apply list_lookup_middle.
  - intros x p' pc' Hf. apply lookup_lt_Some in Hf. lia.
Qed.

Lemma wake_inv s f w wi p :
  LInv s -> flows s !! f = Some (mkFlow w (AwaitLock p)) ->
  walletInfos s !! w = Some wi -> LInv (wakeFlow f w wi s).
Proof.
  intros HI Hf Hw. unfold wakeFlow.
  destruct (enter f w wi s) as [pc s'] eqn:Henter.
  pose proof (enter_spec f w wi s Hw) as Hspec.
  rewrite Henter in Hspec. cbn [fst snd] in Hspec. destruct Hspec as (Hfl & _).
  unfold putFlow. rewrite Hfl.
  apply (linv_enter s s' f w wi pc); try done.
  - intros g x p' pc' Hg.
    apply list_lookup_insert_Some in Hg as [(-> & _)|(Hne & Hg)]; auto.
  - apply list_lookup_insert_eq. by apply lookup_lt_Some in Hf.
  - intros x p' pc'. congruence.
Qed.

Lemma resume_inv s f w wi p pc o :
  LInv s -> flows s !! f = Some (mkFlow w (InOperation p pc)) ->
  walletInfos s !! w = Some wi -> LInv (resumeFlow f w wi p o s).
Proof.
  intros [Hst Hsi] Hf Hw. unfold resumeFlow.
  pose proof (continueOperation_spec f w wi p o s Hw) as Hspec.
  cbn zeta in Hspec.
  destruct (continueOperation f w wi p o s) as [pc2 s'].
  cbn [fst snd] in Hspec. destruct Hspec as (Hfl & Hnx & Haddr & Hpc).
  destruct (Hst _ _ _ _ Hf) as (Hlt & a & Ha & Hla).
  assert (a = address wi) as ->.
  { unfold addressOf in Ha. rewrite Hw in Ha. by injection Ha. }
  pose proof (lookup_lt_Some _ _ _ Hf) as Hflt.
  assert (forall fl x,
            addressOf (mkSystem (walletInfos s') (walletLocks s') (resolvedLocks s')
                         (nextLock s') fl (trail s')) x = addressOf s x) as Haddr'.
  { intros fl x. apply Haddr. }
  destruct pc2 as [q|q pc2|ok]; [done| |].
  - destruct Hpc as [-> Hlocks].
    constructor; cbn -[addressOf]; try setoid_rewrite Haddr'; rewrite ?Hnx, ?Hlocks, ?Hfl.
    + intros g x p' pc' Hg.
      apply list_lookup_insert_Some in Hg as [(<- & Heq & _)|(Hne & Hg)].
      * injection Heq as <- <- <-. split; [done|].
        exists (address wi). done.
      * destruct (Hst _ _ _ _ Hg) as (Hlt' & a' & Ha' & Hla').
        split; [done|]. exists a'. done.
    + intros g h x y p' pc1 pc2' Hg Hh.
      apply list_lookup_insert_Some in Hg as [(<- & Heq & _)|(Hng & Hg)];
        apply list_lookup_insert_Some in Hh as [(<- & Heq' & _)|(Hnh & Hh)];
        try done.
      * injection Heq as <- <- <-. eapply Hsi; eauto.
      * injection Heq' as <- <- <-. eapply Hsi; eauto.
      * eapply Hsi; eauto.
  - constructor; cbn -[addressOf]; try setoid_rewrite Haddr'; rewrite ?Hnx, ?Hpc, ?Hfl.
    + intros g x p' pc' Hg.
      apply list_lookup_insert_Some in Hg as [(<- & Heq & _)|(Hne & Hg)];
        [done|].
      destruct (Hst _ _ _ _ Hg) as (Hlt' & a' & Ha' & Hla').
      split; [done|]. exists a'. split; [done|].
      rewrite lookup_delete_ne; [done|].
      intros <-. rewrite Hla in Hla'. injection Hla' as <-.
      apply Hne. eapply Hsi; eauto.
    + intros g h x y p' pc1 pc2' Hg Hh.
      apply list_lookup_insert_Some in Hg as [(<- & Heq & _)|(Hng & Hg)];
        [done|].
      apply list_lookup_insert_Some in Hh as [(<- & Heq' & _)|(Hnh & Hh)];
        [done|].
      eapply Hsi; eauto.
Qed.

Lemma lstep_inv s l s' : LInv s -> lstep s l s' -> LInv s'.
Proof.
  intros HI Hstep. destruct Hstep.
  - by apply call_inv.
  - by apply wake_inv with p.
  - by apply resume_inv with pc.
Qed.

Lemma lsteps_inv ws s : lsteps (newSystem ws) s -> LInv s.
Proof.
  intros Hsteps. remember (newSystem ws) as s0 eqn:Hs0.
  induction Hsteps as [s|s1 s2 l s3 H12 IH H23].
  - subst. apply newSystem_inv.
  - apply lstep_inv with s2 l; auto.
Qed.

End LockProofs.

Section LockFacts.
Import Mint.

Lemma continueOperation_wallets f w wi p o s :
  walletInfos (continueOperation f w wi p o s).2 =
  <[w := mkWalletInfo (address wi) o.1.2]> (walletInfos s).
Proof.
  destruct o as [[pc n] acts]. unfold continueOperation.
  by destruct (terminal pc).
Qed.

Lemma startAttempt_nonce a n : (startAttempt a n).1.2 = n.
Proof. unfold startAttempt. by destruct (a <? MAX_TRANSACTION_RETRIES). Qed.

(** Entering [withWalletLock] changes no wallet's nonce. *)
Lemma enter_wallets f w wi s :
  walletInfos s !! w = Some wi ->
  walletInfos (enter f w wi s).2 = walletInfos s.
Proof.
  intros Hw. unfold enter.
  destruct (walletLocks s !! address wi); [done|].
  rewrite continueOperation_wallets, startAttempt_nonce. cbn.
  apply list_insert_id. rewrite Hw. by destruct wi.
Qed.

Lemma lfeed_step l s s' : lfeed l s = Some s' -> lstep s l s'.
Proof.
  destruct l as [w|f|f r]; cbn [lfeed].
  - destruct (walletInfos s !! w) as [wi|] eqn:Hw; [|done].
    intros [= <-]. by apply lstep_call.
  - destruct (flows s !! f) as [[w [p|p pc|ok]]|] eqn:Hf; try done.
    destruct (walletInfos s !! w) as [wi|] eqn:Hw; [|done].
    destruct (decide (p ∈ resolvedLocks s)); [|done].
    intros [= <-]. by apply lstep_wake with p.
  - destruct (flows s !! f) as [[w [p|p pc|ok]]|] eqn:Hf; try done.
    destruct (walletInfos s !! w) as [wi|] eqn:Hw; [|done].
    destruct (resume pc (currentNonce wi) r) as [o|] eqn:Hr; [|done].
    intros [= <-]. by apply lstep_resume with pc.
Qed.

Lemma lfeedAll_steps ls s s' : lfeedAll ls s = Some s' -> lsteps s s'.
Proof.
  revert s.
  induction ls as [|l ls IH]; intros s; cbn [lfeedAll].
  - intros [= <-]. apply lsteps_refl.
  - destruct (lfeed l s) as [s1|] eqn:Hl; [|done].
    intros Hrest. specialize (IH _ Hrest).
    apply lfeed_step in Hl.
    clear Hrest. induction IH as [s1|s1 s2 l2 s3 H12 IH12 H23].
    + apply lsteps_more with s l; [apply lsteps_refl|done].
    + apply lsteps_more with s2 l2; [by apply IH12|done].
Qed.

End LockFacts.

Section LockSubmits.
Import Mint.

Lemma startAttempt_submit a n m :
  ActSubmit m ∈ (startAttempt a n).2 ->
  exists a', (startAttempt a n).1 = (AwaitSend a', m).
Proof.
  unfold startAttempt.
  destruct (a <? MAX_TRANSACTION_RETRIES); cbn; intros Hin.
  - apply list_elem_of_singleton in Hin. injection Hin as ->. by exists a.
  - by apply elem_of_nil in Hin.
Qed.

Lemma lastCheck_submit a n m : ActSubmit m ∉ (lastCheck a n).2.
Proof.
  unfold lastCheck. destruct (MAX_TRANSACTION_RETRIES - 1 <=? a); cbn; intros Hin.
  - by apply elem_of_nil in Hin.
  - by apply list_elem_of_singleton in Hin.
Qed.

Lemma startNonceAttempt_submit a k n m : ActSubmit m ∉ (startNonceAttempt a k n).2.
Proof.
  unfold startNonceAttempt. destruct (k <? MAX_TRANSACTION_RETRIES).
  - cbn. intros Hin. by apply list_elem_of_singleton in Hin.
  - apply lastCheck_submit.
Qed.

(** A call of [submitTransaction] leaves the loop waiting for its answer,
    and it was made with the nonce the wallet is left with. *)
Lemma resume_submit pc n x o m :
  resume pc n x = Some o -> ActSubmit m ∈ o.2 ->
  exists a, o.1 = (AwaitSend a, m).
Proof.
  destruct pc as [a|a k|a k|a|a| |]; destruct x as [|e|  |n'|];
    cbn [resume]; try discriminate.
  - intros [= <-] Hin. cbn in Hin. by apply list_elem_of_singleton in Hin.
  - destruct (isNonceError e); [|destruct (isRetryableError e)];
      intros [= <-] Hin.
    + by apply startNonceAttempt_submit in Hin.
    + cbn in Hin. by apply list_elem_of_singleton in Hin.
    + by apply lastCheck_submit in Hin.
  - intros [= <-] Hin. cbn in Hin. by apply list_elem_of_singleton in Hin.
  - intros [= <-] Hin. unfold after in *.
    match type of Hin with context [if ?b then _ else _] => destruct b end.
    + pose proof (startAttempt_submit (S a) n' m) as Hs.
      destruct (startAttempt (S a) n') as [[pc2 n2] acts2]. cbn in *.
      apply elem_of_cons in Hin as [?|Hin]; [done|]. by apply Hs.
    + pose proof (lastCheck_submit a n' m) as Hs.
      destruct (lastCheck a n') as [[pc2 n2] acts2]. cbn in *.
      apply elem_of_cons in Hin as [?|Hin]; [done|]. by destruct Hs.
  - intros [= <-] Hin. by apply startNonceAttempt_submit in Hin.
  - intros [= <-] Hin.
    match type of Hin with context [if ?b then _ else _] => destruct b end.
    + by apply startAttempt_submit.
    + by apply lastCheck_submit in Hin.
  - intros [= <-] Hin. by apply startAttempt_submit.
Qed.

(** What [continueOperation] logs, and where it leaves a flow that has
    just called [submitTransaction]. *)
Lemma continueOperation_trail f w wi p o s :
  trail (continueOperation f w wi p o s).2 =
  rev ((fun a => (f, w, a)) <$> o.2) ++ trail s.
Proof.
  destruct o as [[pc n] acts]. unfold continueOperation.
  by destruct (terminal pc).
Qed.

Lemma continueOperation_sending f w wi p a m acts s :
  continueOperation f w wi p (AwaitSend a, m, acts) s =
  (InOperation p (AwaitSend a),
   mkSystem (<[w := mkWalletInfo (address wi) m]> (walletInfos s))
            (walletLocks s) (resolvedLocks s) (nextLock s) (flows s)
            (rev ((fun x => (f, w, x)) <$> acts) ++ trail s)).
Proof. reflexivity. Qed.

Lemma logged_submit (f w : nat) (acts : list Action) (g x : nat) m :
  (g, x, ActSubmit m) ∈ rev ((fun a => (f, w, a)) <$> acts) ->
  g = f /\ x = w /\ ActSubmit m ∈ acts.
Proof.
  intros Hin.
  apply list_elem_of_In, in_rev, list_elem_of_In in Hin.
  apply list_elem_of_fmap in Hin as (a & Heq & Ha).
  injection Heq as -> -> <-. done.
Qed.

(** What a step adds to the trail; every call of [submitTransaction] in
    it was made by a flow that is then inside the operation, waiting for
    the answer, with the wallet's nonce being the one it sent. *)
Lemma lstep_submits s l s' :
  lstep s l s' ->
  exists new,
    trail s' = new ++ trail s /\
    forall f w m, (f, w, ActSubmit m) ∈ new ->
      exists p a wi,
        flows s' !! f = Some (mkFlow w (InOperation p (AwaitSend a))) /\
        walletInfos s' !! w = Some wi /\ currentNonce wi = m.
Proof.
  assert (forall f w wi p o s0 (fs : list Flow),
            walletInfos s0 !! w = Some wi ->
            (forall m, ActSubmit m ∈ o.2 -> exists a, o.1 = (AwaitSend a, m)) ->
            (forall pc s1, continueOperation f w wi p o s0 = (pc, s1) ->
                           fs !! f = Some (mkFlow w pc)) ->
            forall g x m,
              (g, x, ActSubmit m) ∈ rev ((fun a => (f, w, a)) <$> o.2) ->
              exists p' a wi',
                fs !! g = Some (mkFlow x (InOperation p' (AwaitSend a))) /\
                walletInfos (continueOperation f w wi p o s0).2 !! x = Some wi' /\
                currentNonce wi' = m) as Hcont.
  { intros f w wi p o s0 fs Hw Hsub Hfs g x m Hin.
    apply logged_submit in Hin as (-> & -> & Hin).
    destruct (Hsub m Hin) as (a & Ho).
    destruct o as [[pc n] acts]. cbn in Ho. injection Ho as -> ->.
    rewrite continueOperation_sending in *.
    exists p, a, (mkWalletInfo (address wi) m).
    split; [by eapply Hfs|]. cbn. split; [|done].
    apply list_lookup_insert_eq. by apply lookup_lt_Some in Hw. }
  intros Hstep.
  destruct Hstep as [s w wi Hw|s f w wi p Hf Hw Hp|s f w wi p pc r o Hf Hw Hr].
  - unfold callWithWalletLock, enter.
    destruct (walletLocks s !! address wi) as [q|] eqn:Hlock.
    { exists []. cbn. split; [done|]. intros f' w' m Hin.
      by apply elem_of_nil in Hin. }
    set (s0 := mkSystem _ _ _ _ _ _).
    set (o := startAttempt 0 (currentNonce wi)).
    pose proof (continueOperation_trail (length (flows s)) w wi (nextLock s) o s0) as Htr.
    pose proof (Hcont (length (flows s)) w wi (nextLock s) o s0) as Hc.
    assert (flows (continueOperation (length (flows s)) w wi (nextLock s) o s0).2
            = flows s) as Hfl.
    { destruct o as [[pc n] acts]. unfold continueOperation.
      by destruct (terminal pc). }
    destruct (continueOperation (length (flows s)) w wi (nextLock s) o s0)
      as [pc s1] eqn:Hco.
    cbn [fst snd] in *.
    eexists. split; [exact Htr|].
    intros g x m Hin. cbn.
    apply (Hc (flows s1 ++ [mkFlow w pc])); try done.
    + intros m' Hm'. by apply startAttempt_submit.
    + intros pc' s1' [= <- <-]. rewrite Hfl. by apply list_lookup_middle.
  - unfold wakeFlow, enter.
    destruct (walletLocks s !! address wi) as [q|] eqn:Hlock.
    { exists []. cbn. split; [done|]. intros f' w' m Hin.
      by apply elem_of_nil in Hin. }
    set (s0 := mkSystem _ _ _ _ _ _).
    set (o := startAttempt 0 (currentNonce wi)).
    pose proof (continueOperation_trail f w wi (nextLock s) o s0) as Htr.
    pose proof (Hcont f w wi (nextLock s) o s0) as Hc.
    assert (flows (continueOperation f w wi (nextLock s) o s0).2 = flows s) as Hfl.
    { destruct o as [[pc n] acts]. unfold continueOperation.
      by destruct (terminal pc). }
    destruct (continueOperation f w wi (nextLock s) o s0) as [pc s1] eqn:Hco.
    cbn [fst snd] in *.
    eexists. split; [exact Htr|].
    intros g x m Hin. cbn.
    apply (Hc (<[f := mkFlow w pc]> (flows s1))); try done.
    + intros m' Hm'. by apply startAttempt_submit.
    + intros pc' s1' [= <- <-]. rewrite Hfl.
      apply list_lookup_insert_eq. by apply lookup_lt_Some in Hf.
  - unfold resumeFlow.
    pose proof (continueOperation_trail f w wi p o s) as Htr.
    pose proof (Hcont f w wi p o s) as Hc.
    assert (flows (continueOperation f w wi p o s).2 = flows s) as Hfl.
    { destruct o as [[pc' n] acts]. unfold continueOperation.
      by destruct (terminal pc'). }
    destruct (continueOperation f w wi p o s) as [pc2 s1] eqn:Hco.
    cbn [fst snd] in *.
    eexists. split; [exact Htr|].
    intros g x m Hin. cbn.
    apply (Hc (<[f := mkFlow w pc2]> (flows s1))); try done.
    + intros m' Hm'. by apply resume_submit with pc (currentNonce wi) r.
    + intros pc' s1' [= <- <-]. rewrite Hfl.
      apply list_lookup_insert_eq. by apply lookup_lt_Some in Hf.
Qed.

End LockSubmits.

Section LockStored.
Import Mint.

Lemma stored_lock s f w p pc :
  LInv s -> flows s !! f = Some (mkFlow w (InOperation p pc)) ->
  exists wi, walletInfos s !! w = Some wi /\ walletLocks s !! address wi = Some p.
Proof.
  intros [Hst _] Hf.
  destruct (Hst _ _ _ _ Hf) as (_ & a & Ha & Hla).
  unfold addressOf in Ha.
  destruct (walletInfos s !! w) as [wi|]; [|done].
  injection Ha as <-. by exists wi.
Qed.

End LockStored.

Section PendingNonce.
Import Mint.

Lemma startAttempt_sending a n a' m acts :
  startAttempt a n = (AwaitSend a', m, acts) -> m = n /\ acts = [ActSubmit m].
Proof.
  unfold startAttempt. destruct (a <? MAX_TRANSACTION_RETRIES); [|done].
  by intros [= <- <- <-].
Qed.

Lemma lastCheck_not_sending a n a' m acts :
  lastCheck a n <> (AwaitSend a', m, acts).
Proof. unfold lastCheck. by destruct (MAX_TRANSACTION_RETRIES - 1 <=? a). Qed.

Lemma startNonceAttempt_not_sending a k n a' m acts :
  startNonceAttempt a k n <> (AwaitSend a', m, acts).
Proof.
  unfold startNonceAttempt. destruct (k <? MAX_TRANSACTION_RETRIES); [done|].
  apply lastCheck_not_sending.
Qed.

(** The loop reaches the [await] of line 639 only through the call of
    [submitTransaction], made with the nonce the wallet is left with. *)
Lemma resume_sending pc n x a m acts :
  resume pc n x = Some (AwaitSend a, m, acts) ->
  exists pre, acts = pre ++ [ActSubmit m].
Proof.
  destruct pc as [a0|a0 k|a0 k|a0|a0| |]; destruct x as [|e|  |n'|];
    cbn [resume]; try discriminate; intros H.
  - destruct (isNonceError e); [|destruct (isRetryableError e)];
      apply (inj Some) in H;
      first [by apply startNonceAttempt_not_sending in H
            |by apply lastCheck_not_sending in H
            |discriminate].
  - apply (inj Some) in H. unfold after in H.
    destruct (a0 <? MAX_TRANSACTION_RETRIES - 1).
    + destruct (startAttempt (S a0) n') as [[pc2 n2] acts2] eqn:Hs.
      injection H as -> -> <-.
      apply startAttempt_sending in Hs as [_ ->]. by exists [ActSetNonce n'].
    + destruct (lastCheck a0 n') as [[pc2 n2] acts2] eqn:Hs.
      injection H as -> -> <-. by apply lastCheck_not_sending in Hs.
  - apply (inj Some) in H. by apply startNonceAttempt_not_sending in H.
  - apply (inj Some) in H. destruct (a0 <? MAX_TRANSACTION_RETRIES - 1).
    + apply startAttempt_sending in H as [_ ->]. by exists [].
    + by apply lastCheck_not_sending in H.
  - apply (inj Some) in H. apply startAttempt_sending in H as [_ ->]. by exists [].
Qed.

Lemma sentBy_other f g w acts tr :
  g <> f -> sentBy g (rev ((fun a => (f, w, a)) <$> acts) ++ tr) = sentBy g tr.
Proof.
  intros Hne.
  assert (forall l : list (nat * nat * Action),
            (forall x, x ∈ l -> x.1.1 = f) -> sentBy g (l ++ tr) = sentBy g tr) as Hgen.
  { induction l as [|[[h x] a] l IH]; intros Hall; [done|].
    cbn [app sentBy].
    assert (h = f) as -> by (apply (Hall (h, x, a)); left).
    rewrite IH by (intros y Hy; apply Hall; by right).
    destruct a; try done. by destruct (decide (f = g)) as [->|]. }
  apply Hgen. intros x Hx.
  apply list_elem_of_In, in_rev, list_elem_of_In in Hx.
  apply list_elem_of_fmap in Hx as (a & -> & _). done.
Qed.

Lemma sentBy_last f w pre m tr :
  sentBy f (rev ((fun a => (f, w, a)) <$> (pre ++ [ActSubmit m])) ++ tr) = Some m.
Proof.
  rewrite fmap_app, rev_app_distr. cbn. by destruct (decide (f = f)).
Qed.

(** A flow runs on from a suspension: its own pending send, if it has one
    now, was made with the nonce it leaves; the pending sends of the
    others are as they were. *)
Lemma pending_continue f w wi p o s (fs : list Flow) :
  walletInfos s !! w = Some wi ->
  (forall a m acts, o = (AwaitSend a, m, acts) -> exists pre, acts = pre ++ [ActSubmit m]) ->
  (forall g x q a, g <> f ->
     fs !! g = Some (mkFlow x (InOperation q (AwaitSend a))) ->
     flows s !! g = Some (mkFlow x (InOperation q (AwaitSend a))) /\
     (x = w -> o.1.2 = currentNonce wi)) ->
  fs !! f = Some (mkFlow w (continueOperation f w wi p o s).1) ->
  pendingCurrent (flows s) s ->
  pendingCurrent fs (continueOperation f w wi p o s).2.
Proof.
  intros Hw Hshape Hothers Hf HP g x q a Hg.
  pose proof (lookup_lt_Some _ _ _ Hw) as Hlt.
  pose proof (continueOperation_trail f w wi p o s) as Htr.
  assert (walletInfos (continueOperation f w wi p o s).2
          = <[w := mkWalletInfo (address wi) o.1.2]> (walletInfos s)) as Hws.
  { destruct o as [[pc n] acts]. unfold continueOperation. by destruct (terminal pc). }
  rewrite Htr, Hws.
  destruct (decide (g = f)) as [->|Hne].
  - rewrite Hg in Hf. injection Hf as <- Hpc.
    destruct o as [[pc n] acts]. cbn [fst snd] in *.
    assert (pc = AwaitSend a) as ->.
    { unfold continueOperation in Hpc. destruct (terminal pc); [done|].
      by injection Hpc as _ <-. }
    destruct (Hshape a n acts eq_refl) as [pre ->].
    exists (mkWalletInfo (address wi) n). split.
    + by apply list_lookup_insert_eq.
    + apply sentBy_last.
  - destruct (Hothers g x q a Hne Hg) as [Hold Hsame].
    destruct (HP g x q a Hold) as (wi' & Hx & Hsent).
    rewrite sentBy_other by done.
    destruct (decide (x = w)) as [->|Hxw].
    + rewrite Hw in Hx. injection Hx as <-.
      exists (mkWalletInfo (address wi) o.1.2). split.
      * by apply list_lookup_insert_eq.
      * cbn. by rewrite (Hsame eq_refl).
    + exists wi'. split; [|done]. by rewrite list_lookup_insert_ne.
Qed.

Lemma pending_enter f w wi s (fs : list Flow) :
  walletInfos s !! w = Some wi ->
  (forall g x q a, g <> f ->
     fs !! g = Some (mkFlow x (InOperation q (AwaitSend a))) ->
     flows s !! g = Some (mkFlow x (InOperation q (AwaitSend a)))) ->
  fs !! f = Some (mkFlow w (enter f w wi s).1) ->
  pendingCurrent (flows s) s ->
  pendingCurrent fs (enter f w wi s).2.
Proof.
  intros Hw Hothers Hf HP. unfold enter in *.
  destruct (walletLocks s !! address wi) as [q|] eqn:Hlock.
  - cbn [fst snd] in *. intros g x q' a Hg.
    destruct (decide (g = f)) as [->|Hne].
    + rewrite Hg in Hf. done.
    + apply (HP g x q' a). by apply Hothers.
  - set (s0 := mkSystem _ _ _ _ _ _) in *.
    apply pending_continue; try done.
    + intros a m acts Hs. apply startAttempt_sending in Hs as [_ ->]. by exists [].
    + intros g x q a Hne Hg. split; [by apply Hothers|].
      intros _. unfold startAttempt. by destruct (0 <? MAX_TRANSACTION_RETRIES).
Qed.

Lemma lstep_pending s l s' :
  LInv s -> pendingCurrent (flows s) s -> lstep s l s' ->
  pendingCurrent (flows s') s'.
Proof.
  intros HI HP Hstep.
  destruct Hstep as [s w wi Hw|s f w wi p Hf Hw Hp|s f w wi p pc r o Hf Hw Hr].
  - unfold callWithWalletLock.
    pose proof (pending_enter (length (flows s)) w wi s) as He.
    pose proof (enter_spec (length (flows s)) w wi s Hw) as Hspec.
    cbn zeta in Hspec.
    destruct (enter (length (flows s)) w wi s) as [pc s1] eqn:Hen.
    cbn [fst snd] in *. destruct Hspec as (Hfl & _).
    unfold newFlow. cbn [flows].
    intros g x q a Hg. cbn [walletInfos trail].
    refine (He (flows s1 ++ [mkFlow w pc]) Hw _ _ HP g x q a Hg).
    + intros g' x' q' a' Hne Hg'. rewrite Hfl in Hg'.
      apply lookup_app_Some in Hg' as [Hg'|[Hge Hg']]; [done|].
      apply list_lookup_singleton_Some in Hg' as [Hz _]. lia.
    + rewrite Hfl. by apply list_lookup_middle.
  - unfold wakeFlow.
    pose proof (pending_enter f w wi s) as He.
    pose proof (enter_spec f w wi s Hw) as Hspec.
    cbn zeta in Hspec.
    destruct (enter f w wi s) as [pc s1] eqn:Hen.
    cbn [fst snd] in *. destruct Hspec as (Hfl & _).
    unfold putFlow. cbn [flows].
    intros g x q a Hg. cbn [walletInfos trail].
    refine (He (<[f := mkFlow w pc]> (flows s1)) Hw _ _ HP g x q a Hg).
    + intros g' x' q' a' Hne Hg'. rewrite Hfl in Hg'.
      by rewrite list_lookup_insert_ne in Hg'.
    + rewrite Hfl. apply list_lookup_insert_eq. by apply lookup_lt_Some in Hf.
  - unfold resumeFlow.
    pose proof (pending_continue f w wi p o s) as Hc.
    pose proof (continueOperation_spec f w wi p o s Hw) as Hspec.
    cbn zeta in Hspec.
    destruct (continueOperation f w wi p o s) as [pc2 s1] eqn:Hco.
    cbn [fst snd] in *. destruct Hspec as (Hfl & _).
    unfold putFlow. cbn [flows].
    intros g x q a Hg. cbn [walletInfos trail].
    refine (Hc (<[f := mkFlow w pc2]> (flows s1)) Hw _ _ _ HP g x q a Hg).
    + intros a' m acts ->. by apply resume_sending in Hr.
    + intros g' x' q' a' Hne Hg'. rewrite Hfl in Hg'.
      rewrite list_lookup_insert_ne in Hg' by done.
      split; [done|]. intros ->. exfalso. apply Hne.
      destruct (stored_lock s _ _ _ _ HI Hf) as (wi1 & Hw1 & Hl1).
      destruct (stored_lock s _ _ _ _ HI Hg') as (wi2 & Hw2 & Hl2).
      rewrite Hw1 in Hw2. injection Hw2 as <-.
      rewrite Hl1 in Hl2. injection Hl2 as <-.
      by apply (linv_single s HI g' f w w p (AwaitSend a') pc).
    + rewrite Hfl. apply list_lookup_insert_eq. by apply lookup_lt_Some in Hf.
Qed.

Lemma lsteps_pending ws s :
  lsteps (newSystem ws) s -> pendingCurrent (flows s) s.
Proof.
  intros Hsteps. remember (newSystem ws) as s0 eqn:Hs0.
  induction Hsteps as [s|s1 s2 l s3 H12 IH H23].
  - subst. intros f w p a Hf. cbn in Hf. by rewrite lookup_nil in Hf.
  - apply lstep_pending with s2 l; auto.
    subst. by apply lsteps_inv with ws.
Qed.

(** When the pending send of a flow resolves, its wallet's nonce becomes
    the nonce the send was made with plus one, and no other wallet
    changes. *)
Lemma resolved_send_increments ws s s' f :
  lsteps (newSystem ws) s -> lstep s (LResume f SendResolved) s' ->
  exists w wi sent,
    walletInfos s !! w = Some wi /\
    sentBy f (trail s) = Some sent /\ currentNonce wi = sent /\
    walletInfos s' = <[w := mkWalletInfo (address wi) (sent + 1)]> (walletInfos s).
Proof.
  intros Hreach Hstep.
  pose proof (lsteps_pending ws s Hreach) as HP.
  inversion Hstep as [| |s0 f0 w wi p pc r o Hf Hw Hr]; subst.
  destruct pc as [a|a k|a k|a|a| |]; cbn [resume] in Hr; try discriminate.
  injection Hr as <-.
  destruct (HP f w p a Hf) as (wi' & Hw' & Hsent).
  rewrite Hw in Hw'. injection Hw' as <-.
  exists w, wi, (currentNonce wi). repeat split; done.
Qed.

End PendingNonce.

(** C1 as stated fails on the first revision of main (lines 207-286), which
    has no lock: with one wallet, the flow of the second iteration is
    started 25 ms after the first, while the send of the first is still
    pending, and both calls of [submitTransaction] carry nonce 5. *)
Lemma C1_first_revision_overlaps :
  Mint.firstRun 2 Mint.overlapTrace (Mint.newFirstMain Mint.oneWallet)
  = Some Mint.overlapped /\
  Mint.firstFlows Mint.overlapped = [(0, Mint.AwaitSend 0); (0, Mint.AwaitSend 0)] /\
  Mint.firstTrail Mint.overlapped = [(0, Mint.ActSubmit 5); (1, Mint.ActSubmit 5)] /\
  Mint.firstAttemptPending Mint.overlapped 0 0 /\
  Mint.firstAttemptPending Mint.overlapped 1 0 /\
  ~ (forall f g w,
       Mint.firstAttemptPending Mint.overlapped f w ->
       Mint.firstAttemptPending Mint.overlapped g w -> f = g).
Proof.
  assert (Mint.firstAttemptPending Mint.overlapped 0 0) as H0 by (by exists 0).
  assert (Mint.firstAttemptPending Mint.overlapped 1 0) as H1 by (by exists 0).
  repeat split; try done.
  intros Hone. by specialize (Hone 0 1 0 H0 H1).
Qed.

(** C1, amended: the claim holds of the revision that starts every flow
    through [withWalletLock] (lines 524-551 and 624-690).  In every state
    the flows of that revision can reach: for each wallet
    address at most one flow is inside the operation that
    [withWalletLock] guards, so at most one call of [submitTransaction]
    for that address is pending; the flow inside the operation holds the
    promise stored in [walletLocks] under the address; every call of
    [submitTransaction] is made by a flow that holds its wallet's lock and
    sends the wallet's current nonce; and a step changes a wallet's
    [currentNonce] only when it resumes the flow that holds that wallet's
    lock. *)
Theorem C1_wallet_lock_serializes (ws : list Mint.WalletInfo) (s : Mint.System) :
  Mint.lsteps (Mint.newSystem ws) s ->
  (forall a f g, Mint.holds s f a -> Mint.holds s g a -> f = g) /\
  (forall a f g, Mint.attemptPending s f a -> Mint.attemptPending s g a -> f = g) /\
  (forall f w p pc,
     Mint.flows s !! f = Some (Mint.mkFlow w (Mint.InOperation p pc)) ->
     exists wi, Mint.walletInfos s !! w = Some wi /\
                Mint.walletLocks s !! Mint.address wi = Some p) /\
  (forall l s',
     Mint.lstep s l s' ->
     exists new,
       Mint.trail s' = new ++ Mint.trail s /\
       forall f w m, (f, w, Mint.ActSubmit m) ∈ new ->
         exists p a wi,
           Mint.flows s' !! f
             = Some (Mint.mkFlow w (Mint.InOperation p (Mint.AwaitSend a))) /\
           Mint.walletInfos s' !! w = Some wi /\
           Mint.currentNonce wi = m /\
           Mint.walletLocks s' !! Mint.address wi = Some p) /\
  (forall l s' w wi wi',
     Mint.lstep s l s' ->
     Mint.walletInfos s !! w = Some wi ->
     Mint.walletInfos s' !! w = Some wi' ->
     Mint.currentNonce wi' <> Mint.currentNonce wi ->
     exists f r p pc,
       l = Mint.LResume f r /\
       Mint.flows s !! f = Some (Mint.mkFlow w (Mint.InOperation p pc)) /\
       Mint.walletLocks s !! Mint.address wi = Some p).
Proof.
  intros Hreach.
  pose proof (lsteps_inv ws s Hreach) as HI.
  pose proof (stored_lock s) as Hstored.
  assert (forall a f g, Mint.holds s f a -> Mint.holds s g a -> f = g) as Hone.
  { intros a f g (w1 & wi1 & p1 & pc1 & Hf & Hw1 & Ha1)
                 (w2 & wi2 & p2 & pc2 & Hg & Hw2 & Ha2).
    destruct (Hstored _ _ _ _ HI Hf) as (wi1' & Hw1' & Hl1).
    destruct (Hstored _ _ _ _ HI Hg) as (wi2' & Hw2' & Hl2).
    rewrite Hw1 in Hw1'. injection Hw1' as <-.
    rewrite Hw2 in Hw2'. injection Hw2' as <-.
    rewrite Ha1 in Hl1. rewrite Ha2 in Hl2.
    rewrite Hl1 in Hl2. injection Hl2 as <-.
    eapply (Mint.linv_single s HI); eauto. }
  split; [done|]. split; [|split; [|split]].
  - intros a f g (w1 & wi1 & p1 & k1 & Hf & Hw1 & Ha1)
                 (w2 & wi2 & p2 & k2 & Hg & Hw2 & Ha2).
    apply (Hone a); [by exists w1, wi1, p1, (Mint.AwaitSend k1)
                    |by exists w2, wi2, p2, (Mint.AwaitSend k2)].
  - intros f w p pc Hf. by apply (Hstored f w p pc).
  - intros l s' Hstep.
    pose proof (lstep_inv s l s' HI Hstep) as HI'.
    destruct (lstep_submits s l s' Hstep) as (new & Htr & Hnew).
    exists new. split; [done|].
    intros f w m Hin.
    destruct (Hnew f w m Hin) as (p & a & wi & Hf & Hw & Hn).
    destruct (stored_lock s' _ _ _ _ HI' Hf) as (wi2 & Hw2 & Hl2).
    rewrite Hw in Hw2. injection Hw2 as <-.
    by exists p, a, wi.
  - intros l s' w wi wi' Hstep Hw Hw' Hchange.
    destruct Hstep as [s x xi Hx|s f x xi p Hf Hx Hp|s f x xi p pc r o Hf Hx Hr].
    + exfalso. unfold Mint.callWithWalletLock in Hw'.
      pose proof (enter_wallets (length (Mint.flows s)) x xi s Hx) as Hsame.
      destruct (Mint.enter (length (Mint.flows s)) x xi s) as [pc' s1].
      cbn in Hw', Hsame. congruence.
    + exfalso. unfold Mint.wakeFlow in Hw'.
      pose proof (enter_wallets f x xi s Hx) as Hsame.
      destruct (Mint.enter f x xi s) as [pc' s1].
      cbn in Hw', Hsame. congruence.
    + unfold Mint.resumeFlow in Hw'.
      pose proof (continueOperation_wallets f x xi p o s) as Hws.
      destruct (Mint.continueOperation f x xi p o s) as [pc' s1].
      cbn in Hw', Hws. rewrite Hws in Hw'.
      apply list_lookup_insert_Some in Hw' as [(<- & _ & _)|(Hne & Hw')];
        [|congruence].
      destruct (Hstored _ _ _ _ HI Hf) as (wi2 & Hw2 & Hl2).
      rewrite Hw in Hw2. injection Hw2 as <-.
      by exists f, r, p, pc.
Qed.

Lemma C1_wallet_lock_serializes_witness :
  exists wi, Mint.walletInfos Mint.lockedSystem !! 0 = Some wi /\
             Mint.walletLocks Mint.lockedSystem !! Mint.address wi = Some 2.
Proof.
  refine (proj1 (proj2 (proj2
            (C1_wallet_lock_serializes Mint.twoWallets Mint.lockedSystem _)))
            1 0 2 (Mint.AwaitSend 0) _).
  - apply (lfeedAll_steps Mint.lockTrace). vm_compute. reflexivity.
  - vm_compute. reflexivity.
Defined.

(** C2 as stated fails.  Under [withWalletLock]: a transaction sent with
    nonce 5 succeeds, the next one meets a nonce error, the provider
    reports 10, and the retry with nonce 10 succeeds.  In the first
    revision of main, which has no lock: two flows of one wallet are both
    sent with nonce 5, both sends resolve, and the nonce ends at 7. *)
Lemma C2_refetch_breaks_the_chain :
  Mint.usedNonces
    (Mint.walletRuns [Mint.sendsAtOnce; Mint.conflictThenRefetch 10] 5)
  = [5; 10]%Z /\
  ~ Mint.consecutive
      (Mint.usedNonces
         (Mint.walletRuns [Mint.sendsAtOnce; Mint.conflictThenRefetch 10] 5)) /\
  Mint.firstRun 2 Mint.bothSentTrace (Mint.newFirstMain Mint.oneWallet)
  = Some Mint.bothSent /\
  Mint.firstTrail Mint.bothSent
  = [(0, Mint.ActSubmit 5); (1, Mint.ActSubmit 5);
     (0, Mint.ActIncrement); (1, Mint.ActIncrement)] /\
  Mint.firstFlows Mint.bothSent = [(0, Mint.Returned); (0, Mint.Returned)] /\
  Mint.activeWallets Mint.bothSent = [Mint.mkWalletInfo 10 7].
Proof.
  split; [by vm_compute|]. split; [|by vm_compute].
  vm_compute. intros [H _]. discriminate.
Qed.

(** C2, amended: for the revision that runs the transactions of a wallet
    one after another under [withWalletLock] (lines 624-690), and for
    nonces that are non-negative and stay below 2^53.  A send that
    resolves adds exactly one to the wallet's [currentNonce]; in every
    state the flows can reach under the lock, the send that resolves was
    made with the nonce its wallet has at that moment, so the wallet is
    left with the nonce that was sent plus one and no other wallet
    changes; a transaction that returned leaves the nonce it was sent with
    plus one; and the successful transactions that follow it for that
    wallet are sent with nonces that go up by exactly one each time, as
    long as none of them stores a re-fetched nonce (line 661 overwrites
    [currentNonce] with whatever the provider reports). *)
Theorem C2_nonce_increment (env : Mint.Answers) (later : list Mint.Answers) (n : Z) :
  let r := Mint.transaction env n in
  let rs := Mint.walletRuns later (Mint.runNonce r) in
  Mint.safeNonce n ->
  (forall k m, Mint.nonceAnswer env k = Mint.FetchOk m -> Mint.safeNonce m) ->
  (Mint.runNonce r + Z.of_nat (length later) <= Mint.nonceLimit)%Z ->
  Mint.runPc r = Mint.Returned ->
  (forall r', r' ∈ rs -> Mint.quiet r') ->
  (forall a m,
     Mint.safeNonce m ->
     Mint.resume (Mint.AwaitSend a) m Mint.SendResolved
     = Some (Mint.Returned, (m + 1)%Z, [Mint.ActIncrement])) /\
  (forall ws s s' f,
     Mint.lsteps (Mint.newSystem ws) s ->
     (forall wi, wi ∈ Mint.walletInfos s -> Mint.safeNonce (Mint.currentNonce wi)) ->
     Mint.lstep s (Mint.LResume f Mint.SendResolved) s' ->
     exists w wi sent,
       Mint.walletInfos s !! w = Some wi /\
       Mint.sentBy f (Mint.trail s) = Some sent /\
       Mint.currentNonce wi = sent /\
       Mint.walletInfos s'
       = <[w := Mint.mkWalletInfo (Mint.address wi) (sent + 1)%Z]> (Mint.walletInfos s)) /\
  (forall r', r' ∈ r :: rs -> Mint.runPc r' = Mint.Returned ->
     exists u, Mint.lastSubmitted (Mint.runActions r') = Some u /\
               Mint.runNonce r' = (u + 1)%Z) /\
  Mint.consecutive (Mint.usedNonces (r :: rs)).
Proof.
  intros r rs _ _ _ Hret Hquiet.
  assert (forall r', r' ∈ r :: rs -> Mint.runPc r' = Mint.Returned ->
            exists u, Mint.lastSubmitted (Mint.runActions r') = Some u /\
                      Mint.runNonce r' = (u + 1)%Z) as Hsent.
  { intros r' Hr' Hpc.
    assert (exists env' m, r' = Mint.transaction env' m) as (env' & m & ->).
    { apply elem_of_cons in Hr' as [->|Hr']; [by exists env, n|].
      by apply walletRuns_transactions with later (Mint.runNonce r). }
    pose proof (transaction_sentWithCurrent env' m) as Hs.
    unfold Mint.sentWithCurrent in Hs. by rewrite Hpc in Hs. }
  split; [done|]. split.
  { intros ws s s' f Hreach _ Hstep. by apply resolved_send_increments with ws. }
  split; [done|].
  destruct (Hsent r) as (u & Hu & Hnu); [left|done|].
  destruct (quiet_wallet later (Mint.runNonce r) Hquiet) as [Hcons Hhead].
  fold rs in Hcons, Hhead.
  cbn [Mint.usedNonces]. rewrite Hret, Hu.
  cbn [Mint.consecutive]. split; [|done].
  destruct (Mint.usedNonces rs) as [|b rest]; [done|].
  rewrite (Hhead b eq_refl). done.
Qed.

Lemma C2_nonce_increment_witness :
  Mint.consecutive
    (Mint.usedNonces
       (Mint.transaction (Mint.conflictThenRefetch 10) 5
        :: Mint.walletRuns [Mint.sendsAtOnce; Mint.sendsAtOnce]
             (Mint.runNonce (Mint.transaction (Mint.conflictThenRefetch 10) 5)))).
Proof.
  refine (proj2 (proj2 (proj2
            (C2_nonce_increment (Mint.conflictThenRefetch 10)
               [Mint.sendsAtOnce; Mint.sendsAtOnce] 5 _ _ _ _ _)))).
  - unfold Mint.safeNonce, Mint.nonceLimit. lia.
  - intros k m [= <-]. unfold Mint.safeNonce, Mint.nonceLimit. lia.
  - vm_compute. discriminate.
  - vm_compute. reflexivity.
  - apply all_quiet. vm_compute. reflexivity.
Defined.


(** * Further properties *)

(** ** The retry loop: outcomes, nonces and back-off *)

Section RetryOutcomes.
Import Mint.

Lemma runStep_counts env r r' :
  runStep env r = Some r' ->
  exists x acts,
    nextResume env r = Some x /\
    resume (runPc r) (runNonce r) x = Some (runPc r', runNonce r', acts) /\
    runActions r' = runActions r ++ acts /\
    runSends r' = (match runPc r with AwaitSend _ => S (runSends r) | _ => runSends r end) /\
    runFetches r' =
      (match runPc r with AwaitNonceFetch _ _ => S (runFetches r) | _ => runFetches r end).
Proof.
  unfold runStep.
  destruct (nextResume env r) as [x|]; [|done].
  destruct (resume (runPc r) (runNonce r) x) as [[[pc n] acts]|] eqn:Hres; [|done].
  intros [= <-]. by exists x, acts.
Qed.

Lemma sendsAccounted_step env r r' :
  sendsAccounted env r -> runStep env r = Some r' -> sendsAccounted env r'.
Proof.
  intros Hinv Hstep.
  destruct (runStep_counts _ _ _ Hstep) as (x & acts & Hnext & Hres & Hacts & Hs & Hf).
  clear Hstep. destruct r' as [pc' n' acts' s' f'].
  destruct r as [pc n acts0 s f].
  cbn [runPc runNonce runActions runSends runFetches] in *. subst acts' s' f'.
  unfold sendsAccounted in *. unfold nextResume in Hnext.
  unfold attempts in *.
  cbn [runPc runSends runFetches runActions] in *.
  assert (forall l : list Action,
             length (filter (fun a => isSubmit a = true) (acts0 ++ l)) =
             length (filter (fun a => isSubmit a = true) acts0) +
             length (filter (fun a => isSubmit a = true) l)) as attempts_app'
    by (intros l; by rewrite filter_app, length_app).
  assert (forall a, (forall k, k < a -> exists e, sendAnswer env k = Some e) ->
                    forall e, sendAnswer env a = Some e ->
                    forall k, k < S a -> exists e, sendAnswer env k = Some e) as Hext.
  { intros a Hb e He k Hk. destruct (decide (k = a)) as [->|]; [eauto|]. apply Hb. lia. }
  destruct pc as [a|a k|a k|a|a| |]; try discriminate.
  - destruct Hinv as (-> & Hatt & Ha & Hfail).
    destruct (sendAnswer env a) as [e|] eqn:Hans; injection Hnext as <-; cbn [resume] in Hres.
    + specialize (Hext a Hfail e Hans).
      unfold startNonceAttempt, lastCheck in Hres.
      destruct (isNonceError e); [|destruct (isRetryableError e)];
        repeat match goal with
               | H : context [?a <? ?b] |- _ => destruct (Nat.ltb_spec a b)
               | H : context [?a <=? ?b] |- _ => destruct (Nat.leb_spec a b)
               | H : Some _ = Some _ |- _ => injection H as <- <- <-
               end;
        rewrite attempts_app'; cbn [filter length]; cbn; repeat case_decide; try discriminate;
        cbn [length]; unfold MAX_TRANSACTION_RETRIES in *;
        repeat split; try lia; try (intros; apply Hext; lia).
    + injection Hres as <- <- <-. exists a.
      rewrite attempts_app'. cbn. repeat case_decide; try discriminate. cbn [length].
      repeat split; try lia; done.
  - injection Hnext as <-. cbn [resume] in Hres. injection Hres as <- <- <-.
    rewrite attempts_app'. cbn. repeat case_decide; try discriminate. cbn [length].
    destruct Hinv as (? & ? & ? & ?). repeat split; try lia; done.
  - destruct Hinv as (Hs & Hatt & Ha & Hfail).
    destruct (nonceAnswer env f) as [m|]; injection Hnext as <-; cbn [resume] in Hres;
      unfold startNonceAttempt, startAttempt, lastCheck, after in Hres;
      repeat match goal with
             | H : context [?a <? ?b] |- _ => destruct (Nat.ltb_spec a b)
             | H : context [?a <=? ?b] |- _ => destruct (Nat.leb_spec a b)
             | H : Some _ = Some _ |- _ => injection H as <- <- <-
             end;
      rewrite attempts_app'; cbn; repeat case_decide; try discriminate;
      cbn [length]; unfold MAX_TRANSACTION_RETRIES in *;
      repeat split; try lia; try done; try (intros; apply Hfail; lia).
  - destruct Hinv as (Hs & Hatt & Ha & Hfail).
    injection Hnext as <-; cbn [resume] in Hres;
      unfold startAttempt, lastCheck in Hres;
      repeat match goal with
             | H : context [?a <? ?b] |- _ => destruct (Nat.ltb_spec a b)
             | H : context [?a <=? ?b] |- _ => destruct (Nat.leb_spec a b)
             | H : Some _ = Some _ |- _ => injection H as <- <- <-
             end;
      rewrite attempts_app'; cbn; repeat case_decide; try discriminate;
      cbn [length]; unfold MAX_TRANSACTION_RETRIES in *;
      repeat split; try lia; try done; try (intros; apply Hfail; lia).
  - destruct Hinv as (Hs & Hatt & Ha & Hfail).
    injection Hnext as <-; cbn [resume] in Hres;
      unfold startAttempt, lastCheck in Hres;
      repeat match goal with
             | H : context [?a <? ?b] |- _ => destruct (Nat.ltb_spec a b)
             | H : context [?a <=? ?b] |- _ => destruct (Nat.leb_spec a b)
             | H : Some _ = Some _ |- _ => injection H as <- <- <-
             end;
      rewrite attempts_app'; cbn; repeat case_decide; try discriminate;
      cbn [length]; unfold MAX_TRANSACTION_RETRIES in *;
      repeat split; try lia; try done; try (intros; apply Hfail; lia).
Qed.

Lemma transaction_sendsAccounted env n : sendsAccounted env (transaction env n).
Proof.
  apply runFor_invariant with (P := sendsAccounted env).
  - intros r r'. apply sendsAccounted_step.
  - cbn. unfold MAX_TRANSACTION_RETRIES. repeat split; try lia.
Qed.

Lemma firstSuccessFrom_found env from count a :
  from <= a < from + count ->
  sendAnswer env a = None ->
  (forall k, from <= k < a -> exists e, sendAnswer env k = Some e) ->
  firstSuccessFrom env from count = Some a.
Proof.
  revert from.
  induction count as [|c IH]; intros from Hr Ha Hfail; [lia|].
  cbn [firstSuccessFrom].
  destruct (decide (from = a)) as [->|Hne].
  - by rewrite Ha.
  - destruct (Hfail from) as [e ->]; [lia|].
    apply IH; [lia|done|]. intros k Hk. apply Hfail. lia.
Qed.

Lemma firstSuccessFrom_none env from count :
  (forall k, from <= k < from + count -> exists e, sendAnswer env k = Some e) ->
  firstSuccessFrom env from count = None.
Proof.
  revert from.
  induction count as [|c IH]; intros from Hfail; [done|].
  cbn [firstSuccessFrom].
  destruct (Hfail from) as [e ->]; [lia|].
  apply IH. intros k Hk. apply Hfail. lia.
Qed.

(** Runs against environments that answer alike are the same run. *)
Lemma runStep_sameAnswers env1 env2 r :
  sameAnswers env1 env2 -> runStep env1 r = runStep env2 r.
Proof.
  intros [Hsend Hnonce].
  unfold runStep, nextResume.
  destruct r as [pc n acts s f]; cbn [runPc runNonce runSends runFetches runActions].
  destruct pc as [a|a k|a k|a|a| |]; try done.
  - specialize (Hsend s). unfold answerClass, classify in Hsend.
    destruct (sendAnswer env1 s) as [e1|], (sendAnswer env2 s) as [e2|];
      cbn in Hsend; try discriminate; try done.
    cbn [resume]. injection Hsend as Hsend.
    destruct (isNonceError e1), (isNonceError e2),
      (isRetryableError e1), (isRetryableError e2); try discriminate; done.
  - by rewrite Hnonce.
Qed.

Lemma runFor_sameAnswers env1 env2 fuel r :
  sameAnswers env1 env2 -> runFor fuel env1 r = runFor fuel env2 r.
Proof.
  intros Hsame. revert r.
  induction fuel as [|fuel IH]; intros r; [done|].
  rewrite !runFor_S, (runStep_sameAnswers env1 env2 r Hsame).
  destruct (runStep env2 r); [apply IH|done].
Qed.

End RetryOutcomes.

(** X1. Whatever the environment answers, a transaction returns exactly
    when one of its first five calls of [submitTransaction] succeeds: if
    the first success is call number [k] (counting from 0) the loop returns
    after [k + 1] calls, and if all five fail, whatever the errors are, it
    throws after exactly five calls (lines 627-689). *)
Theorem X1_outcome_by_first_success (env : Mint.Answers) (nonce : Z) :
  let r := Mint.transaction env nonce in
  match Mint.firstSuccess env with
  | Some k =>
      Mint.runPc r = Mint.Returned /\
      Mint.runSends r = S k /\ Mint.attempts r = S k
  | None =>
      Mint.runPc r = Mint.Threw /\
      Mint.runSends r = Mint.MAX_TRANSACTION_RETRIES /\
      Mint.attempts r = Mint.MAX_TRANSACTION_RETRIES
  end.
Proof.
  intros r.
  pose proof (transaction_sendsAccounted env nonce) as Hacc.
  pose proof (transaction_terminates env nonce) as Hterm.
  fold r in Hacc, Hterm.
  unfold Mint.sendsAccounted in Hacc.
  destruct (Mint.runPc r) eqn:Hpc; try discriminate.
  - destruct Hacc as (a & Hs & Hatt & Ha & Hok & Hfail).
    unfold Mint.firstSuccess.
    rewrite (firstSuccessFrom_found env 0 _ a); [done|lia|done|].
    intros k Hk. apply Hfail. lia.
  - destruct Hacc as (Hs & Hatt & Hfail).
    unfold Mint.firstSuccess.
    rewrite firstSuccessFrom_none; [done|].
    intros k Hk. apply Hfail. lia.
Qed.

(** X2. An error that is neither a nonce error nor a retryable one is
    retried all the same: when every send fails with such an error, whose
    message is made of ASCII characters, the loop submits five times with
    the nonce it started with, waits [RETRY_DELAY_MS] between two attempts
    and not after the last, never asks for the nonce, and throws. *)
Theorem X2_other_errors_are_retried (env : Mint.Answers) (nonce : Z) :
  (forall k, exists e,
      Mint.sendAnswer env k = Some e /\ Mint.isAscii (Mint.message e) = true /\
      Mint.classify e = Mint.OtherError) ->
  let r := Mint.transaction env nonce in
  Mint.runPc r = Mint.Threw /\ Mint.runNonce r = nonce /\
  Mint.runActions r = Mint.otherErrorActions nonce /\
  Mint.runFetches r = 0.
Proof.
  intros Hall r.
  assert (Mint.sameAnswers env
            (Mint.mkAnswers (fun _ => Some Mint.reverted) (Mint.nonceAnswer env))) as Hsame.
  { split; [|done]. intros k. destruct (Hall k) as (e & -> & _ & Hc). cbn. by rewrite Hc. }
  subst r. unfold Mint.transaction.
  rewrite (runFor_sameAnswers _ _ _ _ Hsame).
  vm_compute. done.
Qed.

Lemma X2_other_errors_are_retried_witness :
  Mint.runActions (Mint.transaction Mint.alwaysReverted 7) =
  [Mint.ActSubmit 7; Mint.ActDelay 1000; Mint.ActSubmit 7; Mint.ActDelay 1000;
   Mint.ActSubmit 7; Mint.ActDelay 1000; Mint.ActSubmit 7; Mint.ActDelay 1000;
   Mint.ActSubmit 7].
Proof.
  refine (proj1 (proj2 (proj2 (X2_other_errors_are_retried Mint.alwaysReverted 7 _)))).
  intros k. exists Mint.reverted. repeat split; reflexivity.
Defined.

(** X3. When every send fails with a retryable error the loop waits
    [RETRY_DELAY_MS] after every one of the five attempts, the last one
    included (line 676 comes before the test of line 677), keeps the nonce,
    and throws. *)
Theorem X3_retryable_errors_wait_every_time (env : Mint.Answers) (nonce : Z) :
  (forall k, exists e,
      Mint.sendAnswer env k = Some e /\ Mint.classify e = Mint.RetryableError) ->
  let r := Mint.transaction env nonce in
  Mint.runPc r = Mint.Threw /\ Mint.runNonce r = nonce /\
  Mint.runActions r = Mint.retryableErrorActions nonce /\
  Mint.runFetches r = 0.
Proof.
  intros Hall r.
  assert (Mint.sameAnswers env
            (Mint.mkAnswers (fun _ => Some Mint.txpoolFull) (Mint.nonceAnswer env))) as Hsame.
  { split; [|done]. intros k. destruct (Hall k) as (e & -> & Hc). cbn. by rewrite Hc. }
  subst r. unfold Mint.transaction.
  rewrite (runFor_sameAnswers _ _ _ _ Hsame).
  vm_compute. done.
Qed.

Lemma X3_retryable_errors_wait_every_time_witness :
  Mint.runActions (Mint.transaction Mint.alwaysCongested 7) =
  [Mint.ActSubmit 7; Mint.ActDelay 1000; Mint.ActSubmit 7; Mint.ActDelay 1000;
   Mint.ActSubmit 7; Mint.ActDelay 1000; Mint.ActSubmit 7; Mint.ActDelay 1000;
   Mint.ActSubmit 7; Mint.ActDelay 1000].
Proof.
  refine (proj1 (proj2 (proj2 (X3_retryable_errors_wait_every_time Mint.alwaysCongested 7 _)))).
  intros k. exists Mint.txpoolFull. split; reflexivity.
Defined.

(** X4. When every send fails with a nonce error and no re-fetch
    succeeds, each attempt makes five re-fetches after delays of 500, 1000,
    1500, 2000 and 2500 ms, then falls through to the general delay and
    sends again with the same stale nonce: five sends, twenty-five fetches,
    the nonce unchanged, and a throw. *)
Theorem X4_failed_refetch_keeps_stale_nonce (env : Mint.Answers) (nonce : Z) :
  (forall k, exists e,
      Mint.sendAnswer env k = Some e /\ Mint.classify e = Mint.NonceError) ->
  (forall k, Mint.nonceAnswer env k = Mint.FetchErr) ->
  let r := Mint.transaction env nonce in
  Mint.runPc r = Mint.Threw /\ Mint.runNonce r = nonce /\
  Mint.runActions r = Mint.staleNonceActions nonce /\
  Mint.runSends r = Mint.MAX_TRANSACTION_RETRIES /\
  Mint.runFetches r = Mint.MAX_TRANSACTION_RETRIES * Mint.MAX_TRANSACTION_RETRIES.
Proof.
  intros Hall Hnone r.
  assert (Mint.sameAnswers env Mint.staleForever) as Hsame.
  { split; [|done]. intros k. destruct (Hall k) as (e & -> & Hc). cbn. by rewrite Hc. }
  subst r. unfold Mint.transaction.
  rewrite (runFor_sameAnswers _ _ _ _ Hsame).
  vm_compute. done.
Qed.

Lemma X4_failed_refetch_keeps_stale_nonce_witness :
  Mint.runFetches (Mint.transaction Mint.staleForever 7) = 25 /\
  Mint.runNonce (Mint.transaction Mint.staleForever 7) = 7%Z.
Proof.
  pose proof (X4_failed_refetch_keeps_stale_nonce Mint.staleForever 7) as H.
  refine ((fun H' => conj (proj2 (proj2 (proj2 (proj2 H')))) (proj1 (proj2 H'))) (H _ _)).
  - intros k. exists Mint.nonceTooLow. split; reflexivity.
  - intros k. reflexivity.
Defined.

Section NonceLog.
Import Mint.

Lemma nonceAfter_app n l1 l2 :
  nonceAfter n (l1 ++ l2) = nonceAfter (nonceAfter n l1) l2.
Proof.
  revert n. induction l1 as [|a l1 IH]; intros n; [done|].
  destruct a; cbn; apply IH.
Qed.

Lemma submitsCurrent_app n l1 l2 :
  submitsCurrent n (l1 ++ l2) <->
  submitsCurrent n l1 /\ submitsCurrent (nonceAfter n l1) l2.
Proof.
  revert n. induction l1 as [|a l1 IH]; intros n; [cbn; tauto|].
  destruct a; cbn; rewrite ?IH; tauto.
Qed.

Lemma nonceLogged_step start env r r' :
  nonceLogged start r -> runStep env r = Some r' -> nonceLogged start r'.
Proof.
  intros (Hn & Hsub & Hinc) Hstep.
  destruct (runStep_resume _ _ _ Hstep) as (x & acts & Hres & Hacts).
  clear Hstep. destruct r' as [pc' n' acts' s' f'].
  unfold nonceLogged, increments in *. cbn [runPc runNonce runActions] in *.
  subst acts'. rewrite nonceAfter_app, submitsCurrent_app, filter_app, length_app, <- Hn, Hinc.
  destruct (runPc r) as [a|a k|a k|a|a| |]; destruct x as [|e|  |m|];
    cbn [resume] in Hres; try discriminate;
    unfold startNonceAttempt, startAttempt, lastCheck, after in Hres;
    try (destruct (isNonceError e); [|destruct (isRetryableError e)]);
    repeat match goal with
           | H : context [?a <? ?b] |- _ => destruct (Nat.ltb_spec a b)
           | H : context [?a <=? ?b] |- _ => destruct (Nat.leb_spec a b)
           | H : Some _ = Some _ |- _ => injection H as <- <- <-
           end;
    cbn; repeat case_decide; try discriminate; cbn [length]; repeat split; try done; lia.
Qed.

Lemma transaction_nonceLogged env n : nonceLogged n (transaction env n).
Proof.
  apply runFor_invariant with (P := nonceLogged n).
  - intros r r'. apply nonceLogged_step.
  - cbn. unfold nonceLogged, increments. cbn. repeat case_decide; try discriminate. done.
Qed.

Lemma first_send_succeeds env n :
  sendAnswer env 0 = None ->
  transaction env n = mkRun Returned (n + 1) [ActSubmit n; ActIncrement] 1 0.
Proof.
  intros H0. unfold transaction, enoughFuel.
  rewrite runFor_S.
  assert (runStep env (startRun n) =
          Some (mkRun Returned (n + 1) [ActSubmit n; ActIncrement] 1 0)) as ->.
  { unfold runStep, nextResume. cbn. by rewrite H0. }
  by apply runFor_stuck.
Qed.

End NonceLog.

Section Classification.
Import Mint.

Lemma prefix_includes p q s :
  String.prefix (p ++ q)%string s = true -> includes s q = true.
Proof.
  revert s. induction p as [|c p IH]; intros s H.
  - change (String.prefix q s = true) in H. destruct s; cbn [includes]; by rewrite H.
  - destruct s as [|c' s']; [done|].
    change (String.prefix (String c (p ++ q)) (String c' s') = true) in H.
    cbn [String.prefix] in H.
    destruct (Ascii.ascii_dec c c'); [|done].
    cbn [includes]. rewrite (IH s' H). by rewrite orb_true_r.
Qed.

Lemma includes_suffix p q s :
  includes s (p ++ q)%string = true -> includes s q = true.
Proof.
  induction s as [|c s IH]; cbn [includes]; intros H.
  - rewrite orb_false_r in H. by apply prefix_includes in H.
  - apply orb_true_iff in H as [H|H].
    + by apply prefix_includes in H.
    + cbn [includes]. rewrite (IH H). by rewrite orb_true_r.
Qed.

End Classification.

(** X5. In every transaction that starts from a non-negative nonce
    below 2^53 and is only ever given such nonces by a re-fetch, every call
    of [submitTransaction] is given the value [walletInfo.currentNonce] has
    at that moment (the starting nonce, or the last one a re-fetch
    stored); the nonce the transaction leaves is what the assignments of
    lines 642 and 661 make of the starting nonce; and the increment of line
    642 runs once when the transaction returns and never otherwise. *)
Theorem X5_nonce_only_moves_as_logged (env : Mint.Answers) (nonce : Z) :
  Mint.safeNonce nonce ->
  (forall k m, Mint.nonceAnswer env k = Mint.FetchOk m -> Mint.safeNonce m) ->
  let r := Mint.transaction env nonce in
  Mint.submitsCurrent nonce (Mint.runActions r) /\
  Mint.runNonce r = Mint.nonceAfter nonce (Mint.runActions r) /\
  Mint.increments r = (match Mint.runPc r with Mint.Returned => 1 | _ => 0 end).
Proof.
  intros _ _ r. destruct (transaction_nonceLogged env nonce) as (H1 & H2 & H3). done.
Qed.

Lemma X5_nonce_only_moves_as_logged_witness :
  Mint.runNonce (Mint.transaction (Mint.conflictThenRefetch 9) 5) = 10%Z /\
  Mint.increments (Mint.transaction (Mint.conflictThenRefetch 9) 5) = 1.
Proof.
  destruct (X5_nonce_only_moves_as_logged (Mint.conflictThenRefetch 9) 5)
    as (_ & Hnonce & Hcount).
  - unfold Mint.safeNonce, Mint.nonceLimit. lia.
  - intros k m [= <-]. unfold Mint.safeNonce, Mint.nonceLimit. lia.
  - split; [exact Hnonce|exact Hcount].
Defined.

(** X6. An error whose message contains "replacement transaction
    underpriced", in any letter case, passes both the nonce test of line 652
    and the retryable test of line 674, because it contains "transaction
    underpriced"; the [else if] makes it a nonce error, and the loop goes
    on to re-fetch the nonce. *)
Theorem X6_replacement_underpriced_is_a_nonce_error (e : Mint.JsError) :
  Mint.includes (Mint.errorMessage e) "replacement transaction underpriced" = true ->
  Mint.isNonceError e = true /\ Mint.isRetryableError e = true /\
  Mint.classify e = Mint.NonceError /\
  forall nonce,
    Mint.resume (Mint.AwaitSend 0) nonce (Mint.SendRejected e)
    = Some (Mint.AwaitNonceDelay 0 0, nonce, [Mint.ActDelay Mint.NONCE_RETRY_DELAY_MS]).
Proof.
  intros H.
  assert (Mint.isNonceError e = true) as Hn.
  { unfold Mint.isNonceError. rewrite H. by rewrite !orb_true_r. }
  assert (Mint.isRetryableError e = true) as Hr.
  { unfold Mint.isRetryableError.
    rewrite (includes_suffix "replacement " "transaction underpriced" _ H).
    by rewrite !orb_true_r. }
  repeat split; try done.
  - unfold Mint.classify. by rewrite Hn.
  - intros nonce. cbn [Mint.resume]. rewrite Hn. done.
Qed.

Lemma X6_replacement_underpriced_is_a_nonce_error_witness :
  Mint.classify
    (Mint.mkJsError "Replacement transaction underpriced" None (Some "REPLACEMENT_UNDERPRICED"))
  = Mint.NonceError.
Proof.
  refine (proj1 (proj2 (proj2
    (X6_replacement_underpriced_is_a_nonce_error
       (Mint.mkJsError "Replacement transaction underpriced" None
          (Some "REPLACEMENT_UNDERPRICED")) _)))).
  vm_compute. reflexivity.
Defined.

(** X7. For one wallet whose transactions run one after another under
    [withWalletLock], when the first send of each of them succeeds and the
    starting nonce is non-negative and, with the number of transactions
    added, at most 2^53, the transactions are sent with the nonces
    [nonce], [nonce + 1], and so on, one each, and the wallet is left with
    [nonce] plus the number of transactions. *)
Theorem X7_successes_use_consecutive_nonces (envs : list Mint.Answers) (nonce : Z) :
  (0 <= nonce)%Z ->
  (nonce + Z.of_nat (length envs) <= Mint.nonceLimit)%Z ->
  (forall env, env ∈ envs -> Mint.sendAnswer env 0 = None) ->
  Mint.usedNonces (Mint.walletRuns envs nonce)
  = (fun i => (nonce + Z.of_nat i)%Z) <$> seq 0 (length envs) /\
  Mint.nonceAfterRuns envs nonce = (nonce + Z.of_nat (length envs))%Z.
Proof.
  intros _ _. revert nonce.
  induction envs as [|env envs IH]; intros nonce Hall.
  - cbn. split; [done|lia].
  - assert (Mint.sendAnswer env 0 = None) as H0 by (apply Hall; left).
    destruct (IH (nonce + 1)%Z) as [IH1 IH2].
    { intros env' Hin. apply Hall. by right. }
    unfold Mint.nonceAfterRuns in *.
    cbn [Mint.walletRuns Mint.usedNonces foldl length seq fmap list_fmap].
    rewrite (first_send_succeeds env nonce H0).
    cbn [Mint.runPc Mint.runActions Mint.runNonce Mint.lastSubmitted].
    rewrite IH1, IH2. split.
    + f_equal; [f_equal; lia|].
      rewrite <- (fmap_S_seq 0), <- list_fmap_compose.
      apply list_fmap_ext. intros i x _. cbn. lia.
    + lia.
Qed.

Lemma X7_successes_use_consecutive_nonces_witness :
  Mint.usedNonces
    (Mint.walletRuns [Mint.sendsAtOnce; Mint.sendsAtOnce; Mint.sendsAtOnce] 5)
  = [5; 6; 7]%Z.
Proof.
  refine (proj1 (X7_successes_use_consecutive_nonces
                   [Mint.sendsAtOnce; Mint.sendsAtOnce; Mint.sendsAtOnce] 5 _ _ _)).
  { lia. }
  { unfold Mint.nonceLimit. cbn. lia. }
  intros env Hin.
  repeat (apply elem_of_cons in Hin as [->|Hin]; [reflexivity|]).
  by apply elem_of_nil in Hin.
Defined.

Section Backoff.
Import Mint.

Lemma totalDelay_app pc n acts acts' s f :
  totalDelay (mkRun pc n (acts ++ acts') s f)
  = (foldr (fun a acc => (delayOf a + acc)%Z) 0%Z acts
     + foldr (fun a acc => (delayOf a + acc)%Z) 0%Z acts')%Z.
Proof.
  unfold totalDelay. cbn [runActions].
  induction acts as [|a acts IH]; cbn [foldr app]; [lia|]. rewrite IH. lia.
Qed.

Lemma withinBackoff_step env r r' :
  withinBackoff r -> runStep env r = Some r' -> withinBackoff r'.
Proof.
  intros (Hwf & Hpos & Hdelay & Hfetch) Hstep.
  destruct (runStep_counts _ _ _ Hstep) as (x & acts & Hnext & Hres & Hacts & Hs & Hf).
  clear Hstep Hnext. destruct r' as [pc' n' acts' s' f'].
  destruct r as [pc n acts0 s f].
  cbn [runPc runNonce runActions runSends runFetches] in *. subst acts' s' f'.
  unfold withinBackoff. cbn [runPc runFetches].
  rewrite totalDelay_app.
  unfold totalDelay in Hpos, Hdelay. cbn [runActions] in Hpos, Hdelay.
  set (D := foldr (fun a acc => (delayOf a + acc)%Z) 0%Z acts0) in *.
  unfold worstDelay, worstFetches, refetchDelays, MAX_TRANSACTION_RETRIES,
    NONCE_RETRY_DELAY_MS, RETRY_DELAY_MS in *.
  destruct pc as [a|a k|a k|a|a| |]; destruct x as [|e|  |m|];
    cbn [resume] in Hres; try discriminate;
    unfold startNonceAttempt, startAttempt, lastCheck, after,
      MAX_TRANSACTION_RETRIES, NONCE_RETRY_DELAY_MS, RETRY_DELAY_MS in Hres;
    try (destruct (isNonceError e); [|destruct (isRetryableError e)]);
    cbn [wfPc] in Hwf; unfold MAX_TRANSACTION_RETRIES in Hwf;
    repeat match goal with
           | H : context [?a <? ?b] |- _ => destruct (Nat.ltb_spec a b)
           | H : context [?a <=? ?b] |- _ => destruct (Nat.leb_spec a b)
           | H : Some _ = Some _ |- _ => injection H as <- <- <-
           end;
    cbn [wfPc delayLeft fetchesLeft foldr delayOf app] in *;
    unfold delayAfterAttempt, delayFromAttempt, MAX_TRANSACTION_RETRIES in *;
    repeat match goal with
           | |- context [?a <? ?b] => destruct (Nat.ltb_spec a b)
           | H : context [?a <? ?b] |- _ => destruct (Nat.ltb_spec a b)
           end;
    cbn [refetchDelaysAfter] in *;
    try lia;
    try (destruct k as [|[|[|[|[|k]]]]]; cbn [refetchDelaysAfter] in *; lia).
Qed.

Lemma transaction_withinBackoff env n : withinBackoff (transaction env n).
Proof.
  apply runFor_invariant with (P := withinBackoff).
  - intros r r'. apply withinBackoff_step.
  - vm_compute. repeat split; try lia; discriminate.
Qed.

End Backoff.

(** X8. Whatever the environment answers, one transaction asks
    [delay] for at most 41500 ms in all (five rounds of 500 + 1000 + 1500 +
    2000 + 2500 ms and four delays of 1000 ms) and calls
    [fetchNonceViaQueue] at most 25 times; both bounds are reached when
    every send meets a nonce error and no re-fetch succeeds. *)
Theorem X8_backoff_is_bounded (env : Mint.Answers) (nonce : Z) :
  (0 <= Mint.totalDelay (Mint.transaction env nonce) <= Mint.worstDelay)%Z /\
  Mint.runFetches (Mint.transaction env nonce) <= Mint.worstFetches /\
  Mint.worstDelay = 41500%Z /\ Mint.worstFetches = 25 /\
  Mint.totalDelay (Mint.transaction Mint.staleForever nonce) = Mint.worstDelay /\
  Mint.runFetches (Mint.transaction Mint.staleForever nonce) = Mint.worstFetches.
Proof.
  destruct (transaction_withinBackoff env nonce) as (Hwf & Hpos & Hdelay & Hfetch).
  pose proof (transaction_terminates env nonce) as Hterm.
  destruct (Mint.runPc (Mint.transaction env nonce)); try discriminate;
    cbn [Mint.delayLeft Mint.fetchesLeft] in *;
    (split; [lia|]); (split; [lia|]); by vm_compute.
Qed.


(** ** The proxy pool: tasks in flight and promises *)

Section PoolFlight.
Import ProxyManager.

Lemma elem_of_flightPromises f i w :
  f ∈ flightPromises i w <->
  (exists tm, tm ∈ timers w /\ timerProxy tm = i /\ promise (timerTask tm) = f) \/
  (exists t, (i, t) ∈ sending w /\ promise t = f).
Proof.
  unfold flightPromises. rewrite elem_of_app, !list_elem_of_fmap.
  split.
  - intros [(tm & -> & Htm)|([j t] & -> & Hx)].
    + apply list_elem_of_filter in Htm as [? ?]. left; eauto.
    + apply list_elem_of_filter in Hx as [Hj ?]. cbn in Hj. subst j. right; eauto.
  - intros [(tm & Htm & Hi & <-)|(t & Ht & <-)].
    + left. exists tm. split; [done|]. by apply list_elem_of_filter.
    + right. exists (i, t). split; [done|]. by apply list_elem_of_filter.
Qed.

Lemma flight_in_busy f i w : f ∈ flightPromises i w -> i ∈ busy w.
Proof.
  rewrite elem_of_flightPromises. unfold busy. rewrite elem_of_app, !list_elem_of_fmap.
  intros [(tm & Htm & <- & _)|(t & Ht & _)]; [left; eauto|right].
  by exists (i, t).
Qed.

Lemma flight_pending f i w : f ∈ flightPromises i w -> f ∈ allPromises w.
Proof.
  rewrite elem_of_flightPromises. unfold allPromises, pendingPromises.
  rewrite !elem_of_app, !list_elem_of_fmap.
  intros [(tm & Htm & _ & <-)|(t & Ht & <-)]; left; right; [left; eauto|right].
  by exists (i, t).
Qed.

Lemma queued_pending w i p q :
  proxies (manager w) !! i = Some p -> q ∈ queuePromises p -> q ∈ allPromises w.
Proof.
  intros Hp Hq. unfold allPromises, pendingPromises, queuedPromises.
  rewrite !elem_of_app. left. left.
  apply list_elem_of_bind. exists p. split; [done|].
  apply list_elem_of_lookup. eauto.
Qed.

Lemma increasing_snoc l a :
  increasing l -> (forall b, b ∈ l -> b < a) -> increasing (l ++ [a]).
Proof.
  induction l as [|x l IH]; cbn [increasing app]; intros Hl Ha.
  - split; [|done]. intros b Hb. by apply elem_of_nil in Hb.
  - destruct Hl as [Hx Hl]. split.
    + intros b Hb. apply elem_of_app in Hb as [Hb|Hb]; [by apply Hx|].
      apply list_elem_of_singleton in Hb as ->. apply Ha. left.
    + apply IH; [done|]. intros b Hb. apply Ha. by right.
Qed.

Lemma processQueue_why i now jitter w :
  (_processQueue i now jitter w = w /\
   forall p, proxies (manager w) !! i = Some p ->
             isProcessing p = true \/ isHealthy p = false \/ requestQueue p = []) \/
  exists proxy task rest,
    proxies (manager w) !! i = Some proxy /\
    isProcessing proxy = false /\ isHealthy proxy = true /\
    requestQueue proxy = task :: rest /\
    _processQueue i now jitter w =
    mkWorld
      (mkManager
         (<[i := mkProxy rest true (failureCount proxy) true (lastRequestTime proxy)]>
            (proxies (manager w)))
         (currentProxyIndex (manager w)))
      (mkTimer i task now (inject_Z (delayRequired now proxy) + jitter) :: timers w)
      (sending w) (settled w) (nextPromise w) (history w).
Proof.
  unfold _processQueue.
  destruct (proxies (manager w) !! i) as [proxy|] eqn:Hp; [|by left].
  destruct (isProcessing proxy) eqn:Hproc.
  { left. split; [done|]. intros p [= <-]. by left. }
  destruct (isHealthy proxy) eqn:Hh.
  2:{ left. split; [done|]. intros p [= <-]. right. by left. }
  destruct (requestQueue proxy) as [|task rest] eqn:Hq.
  { left. split; [done|]. intros p [= <-]. right. by right. }
  right. exists proxy, task, rest. cbn. by rewrite Hh.
Qed.

Lemma flight_weaken x w : Flight w -> FlightBut x w.
Proof.
  intros [H1 H2 H3 H4]. constructor; try done.
  intros i p _. by apply H2.
Qed.

Lemma flight_close i w :
  FlightBut (Some i) w ->
  (forall p, proxies (manager w) !! i = Some p ->
             isProcessing p = true \/ isHealthy p = false \/ requestQueue p = []) ->
  Flight w.
Proof.
  intros [H1 H2 H3 H4] Hi. constructor; try done.
  intros j p _ Hp Hproc Hh.
  destruct (decide (j = i)) as [->|Hne].
  - destruct (Hi p Hp) as [?|[?|?]]; congruence.
  - apply H2 with j; [congruence|done..].
Qed.

Lemma processQueue_promises i now jitter w :
  allPromises (_processQueue i now jitter w) ≡ₚ allPromises w.
Proof.
  destruct (processQueue_cases i now jitter w)
    as [->|(proxy & task & rest & Hp & Hproc & Hh & Hq & ->)]; [done|].
  unfold allPromises, pendingPromises; cbn.
  rewrite <- (queued_insert_pop _ i proxy
             (mkProxy rest true (failureCount proxy) true (lastRequestTime proxy))
             task rest Hp Hq eq_refl).
  cbn. by rewrite <- Permutation_middle.
Qed.

Lemma processQueue_flight i now jitter w :
  Inv w -> FlightBut (Some i) w -> Flight (_processQueue i now jitter w).
Proof.
  intros HI HF.
  pose proof (processQueue_promises i now jitter w) as Hperm.
  destruct (processQueue_why i now jitter w)
    as [[-> Hwhy]|(proxy & task & rest & Hp & Hproc & Hh & Hq & Heq)].
  { by apply flight_close with i. }
  rewrite Heq in *. clear Heq.
  destruct HF as [Hbusy Hidle Hcount Hfifo].
  assert (i ∉ busy w) as Hfree.
  { intros Hin. destruct (inv_busy_processing w HI i Hin) as (p' & Hp' & Hproc').
    congruence. }
  constructor.
  - cbn. intros j p Hj Hpr. unfold busy; cbn.
    apply list_lookup_insert_Some in Hj as [(<- & <- & _)|(Hne & Hj)]; [left|].
    right. by apply Hbusy with p.
  - cbn. intros j p _ Hj Hpr Hhl.
    apply list_lookup_insert_Some in Hj as [(<- & <- & _)|(Hne & Hj)]; [done|].
    apply Hidle with j; [congruence|done..].
  - rewrite Hperm. exact Hcount.
  - intros j p Hj. cbn in Hj.
    apply list_lookup_insert_Some in Hj as [(<- & <- & _)|(Hne & Hj)].
    + destruct (Hfifo i proxy Hp) as [Hinc Hold].
      unfold queuePromises in *. rewrite Hq in Hinc. cbn in Hinc.
      destruct Hinc as [Hhead Hrest]. cbn [requestQueue]. split; [done|].
      intros f q Hf Hq'. apply elem_of_flightPromises in Hf. cbn in Hf.
      destruct Hf as [(tm & Htm & Hi & <-)|(t & Ht & <-)].
      * apply elem_of_cons in Htm as [->|Htm]; [by apply Hhead|].
        exfalso. apply Hfree. unfold busy. apply elem_of_app. left.
        apply list_elem_of_fmap. eauto.
      * exfalso. apply Hfree. unfold busy. apply elem_of_app. right.
        apply list_elem_of_fmap. by exists (i, t).
    + destruct (Hfifo j p Hj) as [Hinc Hold]. split; [done|].
      intros f q Hf Hq'. apply Hold; [|done].
      apply elem_of_flightPromises in Hf. apply elem_of_flightPromises. cbn in Hf.
      destruct Hf as [(tm & Htm & Hi & <-)|(t & Ht & <-)]; [|right; eauto].
      apply elem_of_cons in Htm as [->|Htm]; [cbn in Hi; congruence|].
      left; eauto.
Qed.

Lemma timerFire_promises w k tm fire :
  Inv w -> timers w !! k = Some tm ->
  allPromises (timerFire tm fire (dropTimer k w)) ≡ₚ allPromises w.
Proof.
  intros HI Hk.
  pose proof (busy_of_timer w k tm Hk) as Hperm.
  destruct (inv_busy_processing w HI (timerProxy tm)) as (proxy & Hp & Hproc).
  { rewrite Hperm. left. }
  unfold timerFire. cbn [dropTimer manager]. rewrite Hp.
  unfold allPromises, pendingPromises; cbn.
  rewrite (queued_insert_same _ _ proxy) by done.
  rewrite (delete_Permutation _ _ _ Hk) at 2. cbn.
  by rewrite <- !Permutation_middle.
Qed.

Lemma timerFire_flight w k tm fire :
  Inv w -> Flight w -> timers w !! k = Some tm ->
  Flight (timerFire tm fire (dropTimer k w)).
Proof.
  intros HI HF Hk.
  pose proof (timerFire_promises w k tm fire HI Hk) as Hpp.
  pose proof (busy_of_timer w k tm Hk) as Hperm.
  destruct (inv_busy_processing w HI (timerProxy tm)) as (proxy & Hp & Hproc).
  { rewrite Hperm. left. }
  assert (tm ∈ timers w) as Htm by (apply list_elem_of_lookup; eauto).
  destruct HF as [Hbusy Hidle Hcount Hfifo].
  unfold timerFire in *. cbn [dropTimer manager] in *. rewrite Hp in *.
  constructor.
  - cbn. intros j p Hj Hpr.
    assert (j ∈ busy w) as Hin.
    { apply list_lookup_insert_Some in Hj as [(<- & <- & _)|(Hne & Hj)].
      - by apply Hbusy with proxy.
      - by apply Hbusy with p. }
    rewrite Hperm in Hin. unfold busy in *; cbn in *.
    rewrite <- Permutation_middle. done.
  - cbn. intros j p _ Hj Hpr Hhl.
    apply list_lookup_insert_Some in Hj as [(<- & <- & _)|(Hne & Hj)].
    + cbn in *. by apply Hidle with (timerProxy tm).
    + by apply Hidle with j.
  - rewrite Hpp. exact Hcount.
  - intros j p Hj. cbn in Hj.
    assert (exists p0, proxies (manager w) !! j = Some p0 /\
                       requestQueue p0 = requestQueue p) as (p0 & Hp0 & Hq0).
    { apply list_lookup_insert_Some in Hj as [(<- & <- & _)|(Hne & Hj)]; eauto. }
    destruct (Hfifo j p0 Hp0) as [Hinc Hold].
    unfold queuePromises in *. rewrite <- Hq0. split; [done|].
    intros f q Hf Hq'. apply Hold; [|done].
    apply elem_of_flightPromises in Hf. apply elem_of_flightPromises. cbn in Hf.
    destruct Hf as [(tm' & Htm' & Hi & <-)|(t & Ht & <-)].
    + left. exists tm'. split; [|done]. by apply list_elem_of_delete_inv in Htm'.
    + apply elem_of_cons in Ht as [[= -> ->]|Ht]; [left; eauto|right; eauto].
Qed.

Lemma finishSend_promises w k i task o :
  Inv w -> sending w !! k = Some (i, task) ->
  allPromises (finishSend i task o (dropSending k w)) ≡ₚ allPromises w.
Proof.
  intros HI Hk.
  pose proof (busy_of_sending w k i task Hk) as Hperm.
  destruct (inv_busy_processing w HI i) as (proxy & Hp & Hproc).
  { rewrite Hperm. left. }
  rewrite (finishSend_eq i task o _ proxy) by done.
  unfold allPromises, pendingPromises; cbn.
  rewrite (queued_insert_same _ _ proxy) by (done || by destruct o).
  rewrite (delete_Permutation _ _ _ Hk) at 2. cbn.
  rewrite <- !(assoc (++)). do 2 f_equiv.
  by rewrite <- !Permutation_middle.
Qed.

Lemma finishSend_flight w k i task o :
  Inv w -> Flight w -> sending w !! k = Some (i, task) ->
  FlightBut (Some i) (finishSend i task o (dropSending k w)).
Proof.
  intros HI HF Hk.
  pose proof (finishSend_promises w k i task o HI Hk) as Hpp.
  pose proof (busy_of_sending w k i task Hk) as Hperm.
  destruct (inv_busy_processing w HI i) as (proxy & Hp & Hproc).
  { rewrite Hperm. left. }
  pose proof (inv_busy_nodup w HI) as Hnd.
  rewrite Hperm in Hnd. apply NoDup_cons in Hnd as [Hfree Hnd].
  destruct HF as [Hbusy Hidle Hcount Hfifo].
  rewrite (finishSend_eq i task o _ proxy) in * by done.
  cbn [dropSending manager timers sending settled nextPromise history proxies
       currentProxyIndex] in *.
  constructor.
  - cbn. intros j p Hj Hpr.
    apply list_lookup_insert_Some in Hj as [(<- & <- & _)|(Hne & Hj)]; [done|].
    pose proof (Hbusy j p Hj Hpr) as Hin. rewrite Hperm in Hin.
    apply elem_of_cons in Hin as [?|Hin]; [congruence|done].
  - cbn. intros j p Hex Hj Hpr Hhl.
    apply list_lookup_insert_Some in Hj as [(<- & <- & _)|(Hne & Hj)]; [done|].
    by apply Hidle with j.
  - rewrite Hpp. exact Hcount.
  - intros j p Hj. cbn in Hj.
    assert (exists p0, proxies (manager w) !! j = Some p0 /\
                       requestQueue p0 = requestQueue p) as (p0 & Hp0 & Hq0).
    { apply list_lookup_insert_Some in Hj as [(<- & <- & _)|(Hne & Hj)]; [|eauto].
      exists proxy. split; [done|]. by destruct o. }
    destruct (Hfifo j p0 Hp0) as [Hinc Hold].
    unfold queuePromises in *. rewrite <- Hq0. split; [done|].
    intros f q Hf Hq'. apply Hold; [|done].
    apply elem_of_flightPromises in Hf. apply elem_of_flightPromises. cbn in Hf.
    destruct Hf as [(tm' & Htm' & Hi & <-)|(t & Ht & <-)]; [left; eauto|].
    right. exists t. split; [|done]. by apply list_elem_of_delete_inv in Ht.
Qed.

Lemma record_flight x e w : FlightBut x w -> FlightBut x (record e w).
Proof. intros [H1 H2 H3 H4]. by constructor. Qed.

Lemma sendDone_flight w k i task o now jitter :
  Inv w -> Flight w -> sending w !! k = Some (i, task) ->
  Flight (sendDone i task o now jitter (dropSending k w)).
Proof.
  intros HI HF Hk. unfold sendDone.
  pose proof (finishSend_inv w k i task o HI Hk) as HI3.
  pose proof (finishSend_flight w k i task o HI HF Hk) as HF3.
  destruct (proxies (manager (finishSend i task o (dropSending k w))) !! i)
    as [proxy|] eqn:Hp.
  2:{ apply flight_close with i; [done|]. intros p Hp'. congruence. }
  destruct (drainsAgain proxy) eqn:Hd.
  - apply processQueue_flight; [by apply record_inv|by apply record_flight].
  - apply flight_close with i; [done|]. intros p Hp'.
    assert (p = proxy) as -> by congruence.
    unfold drainsAgain in Hd. apply andb_false_iff in Hd as [Hd|Hd]; [by right; left|].
    right. right. apply Nat.ltb_ge in Hd. destruct (requestQueue proxy); [done|].
    cbn in Hd. lia.
Qed.

Lemma enqueue_promises pk n w :
  allPromises (enqueue pk n w).2 ≡ₚ nextPromise w :: allPromises w /\
  nextPromise (enqueue pk n w).2 = S (nextPromise w).
Proof.
  unfold enqueue.
  pose proof (selectProxy_proxies (manager w)) as Hps.
  pose proof (selectProxy_healthy (manager w)) as Hsel.
  destruct (_selectProxy (manager w)) as [sel m']. cbn [fst snd] in *.
  destruct m' as [ps' cur']. cbn [proxies] in *. subst ps'.
  assert (allPromises (settle (nextPromise w) Rejected
             (freshPromise (withManager (mkManager (proxies (manager w)) cur') w)))
          ≡ₚ nextPromise w :: allPromises w) as Hrej.
  { unfold allPromises, pendingPromises; cbn. by rewrite <- !Permutation_middle. }
  destruct sel as [i| |]; [|done|done].
  destruct (Hsel i eq_refl) as (proxy & Hp & Hh).
  rewrite Hp. cbn [snd]. split; [|done].
  unfold allPromises, pendingPromises; cbn.
  by rewrite (queued_insert_push _ _ _ _ Hp).
Qed.

Lemma enqueue_flight pk n w :
  Inv w -> Flight w ->
  match (enqueue pk n w).1 with
  | Some i => FlightBut (Some i) (enqueue pk n w).2
  | None => Flight (enqueue pk n w).2
  end.
Proof.
  intros HI HF.
  destruct (enqueue_promises pk n w) as [Hpp Hnext].
  assert (length (allPromises (enqueue pk n w).2) = nextPromise (enqueue pk n w).2)
    as Hcount'.
  { rewrite Hpp, Hnext. cbn. f_equal. apply (flight_count _ _ HF). }
  revert Hcount'. clear Hpp Hnext.
  pose proof (inv_promises_bound w HI) as Hbound.
  destruct HF as [Hbusy Hidle Hcount Hfifo].
  unfold enqueue.
  pose proof (selectProxy_proxies (manager w)) as Hps.
  pose proof (selectProxy_healthy (manager w)) as Hsel.
  destruct (_selectProxy (manager w)) as [sel m']. cbn [fst snd] in *.
  destruct m' as [ps' cur']. cbn [proxies] in *. subst ps'.
  assert (Flight (settle (nextPromise w) Rejected
             (freshPromise (withManager (mkManager (proxies (manager w)) cur') w))) \/
          length (allPromises (settle (nextPromise w) Rejected
             (freshPromise (withManager (mkManager (proxies (manager w)) cur') w))))
          <> S (nextPromise w)) as Hrej.
  { destruct (decide (length (allPromises (settle (nextPromise w) Rejected
             (freshPromise (withManager (mkManager (proxies (manager w)) cur') w))))
          = S (nextPromise w))) as [Heq|]; [left|by right].
    constructor; done. }
  destruct sel as [i| |]; cbn [fst snd];
    [|intros Hc; destruct Hrej as [?|?]; done
     |intros Hc; destruct Hrej as [?|?]; done].
  clear Hrej.
  destruct (Hsel i eq_refl) as (proxy & Hp & Hh).
  rewrite Hp. cbn [fst snd]. intros Hcount'.
  constructor; [| |exact Hcount'|].
  - cbn. intros j p Hj Hpr. unfold busy; cbn.
    apply list_lookup_insert_Some in Hj as [(<- & <- & _)|(Hne & Hj)].
    + by apply Hbusy with proxy.
    + by apply Hbusy with p.
  - cbn. intros j p Hex Hj Hpr Hhl.
    apply list_lookup_insert_Some in Hj as [(<- & <- & _)|(Hne & Hj)]; [done|].
    by apply Hidle with j.
  - intros j p Hj. cbn in Hj.
    apply list_lookup_insert_Some in Hj as [(<- & <- & _)|(Hne & Hj)].
    + destruct (Hfifo i proxy Hp) as [Hinc Hold].
      unfold queuePromises in *. cbn [pushTask requestQueue].
      rewrite fmap_app. cbn [fmap list_fmap promise]. split.
      * apply increasing_snoc; [done|]. intros b Hb. apply Hbound.
        by apply queued_pending with i proxy.
      * intros f q Hf Hq'.
        assert (f ∈ flightPromises i w) as Hf'.
        { apply elem_of_flightPromises in Hf. by apply elem_of_flightPromises. }
        apply elem_of_app in Hq' as [Hq'|Hq']; [by apply Hold|].
        apply list_elem_of_singleton in Hq' as ->.
        apply Hbound. by apply flight_pending with i.
    + destruct (Hfifo j p Hj) as [Hinc Hold]. split; [done|].
      intros f q Hf Hq'. apply Hold; [|done].
      apply elem_of_flightPromises in Hf. by apply elem_of_flightPromises.
Qed.

Lemma submitTransaction_flight pk n now jitter w :
  Inv w -> Flight w -> Flight (submitTransaction pk n now jitter w).2.
Proof.
  intros HI HF. unfold submitTransaction.
  pose proof (enqueue_inv pk n w HI) as HI2.
  pose proof (enqueue_flight pk n w HI HF) as HF2.
  destruct (enqueue pk n w) as [sel w2]. cbn [fst snd] in *.
  destruct sel as [i|]; [|done].
  destruct (proxies (manager w2) !! i) as [proxy|] eqn:Hp.
  2:{ apply flight_close with i; [done|]. intros p Hp'. congruence. }
  destruct (isProcessing proxy) eqn:Hproc.
  - apply flight_close with i; [done|]. intros p Hp'. left. congruence.
  - by apply processQueue_flight.
Qed.

Lemma newWorld_flight n : Flight (newWorld n).
Proof.
  constructor; cbn.
  - intros i p Hp. apply lookup_replicate in Hp as [-> _]. done.
  - intros i p _ Hp. apply lookup_replicate in Hp as [-> _]. done.
  - unfold allPromises, pendingPromises, queuedPromises; cbn.
    rewrite !app_nil_r. induction n as [|n IH]; cbn; done.
  - intros i p Hp. apply lookup_replicate in Hp as [-> _]. split; [done|].
    intros f q _ Hq. by apply elem_of_nil in Hq.
Qed.

Lemma step_flight w w' : Inv w -> Flight w -> step w w' -> Flight w'.
Proof.
  intros HI HF Hstep. destruct Hstep.
  - by apply submitTransaction_flight.
  - by apply timerFire_flight.
  - by apply sendDone_flight.
Qed.

Lemma steps_flight w w' : Inv w -> Flight w -> steps w w' -> Flight w'.
Proof.
  intros HI HF Hsteps. induction Hsteps; [done|].
  apply step_flight with w2; [|auto|done].
  by apply steps_inv with w1.
Qed.

Lemma reachable_flight w : reachable w -> Flight w.
Proof.
  intros [n Hn].
  apply steps_flight with (newWorld n); [apply newWorld_inv|apply newWorld_flight|done].
Qed.

End PoolFlight.

Section PoolFlightFacts.
Import ProxyManager.

Lemma filter_eq_length (l : list nat) i :
  NoDup l ->
  length (filter (fun j => j = i) l) = (if decide (i ∈ l) then 1 else 0).
Proof.
  induction l as [|a l IH]; intros Hnd; [done|].
  apply NoDup_cons in Hnd as [Ha Hnd]. specialize (IH Hnd).
  rewrite filter_cons.
  destruct (decide (a = i)) as [->|Hne].
  - cbn [length]. rewrite IH.
    destruct (decide (i ∈ l)); [done|].
    destruct (decide (i ∈ i :: l)) as [|Hn]; [done|]. exfalso. apply Hn. left.
  - rewrite IH.
    destruct (decide (i ∈ l)) as [Hin|Hin]; destruct (decide (i ∈ a :: l)) as [Hin'|Hin'];
      try done.
    + exfalso. apply Hin'. by right.
    + exfalso. apply elem_of_cons in Hin' as [?|?]; [congruence|done].
Qed.

Lemma inFlightAt_spec w i p :
  Inv w -> Flight w -> proxies (manager w) !! i = Some p ->
  inFlightAt i w = (if isProcessing p then 1 else 0).
Proof.
  intros HI HF Hp. unfold inFlightAt.
  rewrite filter_eq_length by apply (inv_busy_nodup _ HI).
  destruct (isProcessing p) eqn:Hproc.
  - pose proof (flight_busy _ _ HF i p Hp Hproc). by destruct (decide (i ∈ busy w)).
  - destruct (decide (i ∈ busy w)) as [Hin|]; [|done].
    destruct (inv_busy_processing _ HI i Hin) as (p' & Hp' & Hproc'). congruence.
Qed.

Lemma full_count (l : list nat) n :
  NoDup l -> (forall q, q ∈ l -> q < n) -> length l = n -> l ≡ₚ seq 0 n.
Proof.
  intros Hnd Hb Hlen.
  apply submseteq_length_Permutation.
  - apply NoDup_submseteq; [done|]. intros x Hx. apply elem_of_seq.
    specialize (Hb x Hx). lia.
  - rewrite length_seq. lia.
Qed.

Lemma processQueue_settled i now jitter w :
  settled (_processQueue i now jitter w) = settled w.
Proof.
  destruct (processQueue_cases i now jitter w)
    as [->|(proxy & task & rest & Hp & Hproc & Hh & Hq & ->)]; done.
Qed.

Lemma step_settled w w' :
  step w w' -> exists new, settled w' = new ++ settled w.
Proof.
  intros Hstep. destruct Hstep as [w pk n now jitter Hj|w k tm fire Hk Hfire
                                   |w k i task o now jitter Hk Hj].
  - unfold submitTransaction.
    assert (exists new, settled (enqueue pk n w).2 = new ++ settled w) as [new Hnew].
    { unfold enqueue. destruct (_selectProxy (manager w)) as [sel m'].
      destruct sel as [i| |]; [|by exists [(nextPromise w, Rejected)]..].
      destruct (proxies m' !! i); by exists []. }
    destruct (enqueue pk n w) as [sel w2]. cbn [snd] in *.
    exists new. destruct sel as [i|]; [|done].
    destruct (proxies (manager w2) !! i) as [proxy|]; [|done].
    destruct (isProcessing proxy); [done|]. by rewrite processQueue_settled.
  - exists []. unfold timerFire. cbn [dropTimer manager].
    by destruct (proxies (manager w) !! timerProxy tm).
  - unfold sendDone.
    assert (exists new, settled (finishSend i task o (dropSending k w)) = new ++ settled w)
      as [new Hnew].
    { unfold finishSend. cbn [dropSending manager].
      destruct (proxies (manager w) !! i); [|by exists []].
      by exists [(promise task, settlementOf o)]. }
    exists new.
    destruct (proxies (manager (finishSend i task o (dropSending k w))) !! i)
      as [proxy|]; [|done].
    destruct (drainsAgain proxy); [|done].
    by rewrite processQueue_settled.
Qed.

Lemma steps_settled w w' :
  steps w w' -> exists new, settled w' = new ++ settled w.
Proof.
  induction 1 as [w|w1 w2 w3 H12 [new1 IH] H23]; [by exists []|].
  destruct (step_settled _ _ H23) as [new2 H2].
  exists (new2 ++ new1). by rewrite H2, IH, (assoc (++)).
Qed.

Lemma settled_once (l : list (nat * Settlement)) q s s' :
  NoDup (l.*1) -> (q, s) ∈ l -> (q, s') ∈ l -> s = s'.
Proof.
  induction l as [|[a b] l IH]; intros Hnd H1 H2; [by apply elem_of_nil in H1|].
  cbn in Hnd. apply NoDup_cons in Hnd as [Ha Hnd].
  apply elem_of_cons in H1 as [[= -> ->]|H1]; apply elem_of_cons in H2 as [[= ->]|H2].
  - done.
  - exfalso. apply Ha. apply list_elem_of_fmap. by exists (a, s').
  - exfalso. apply Ha. apply list_elem_of_fmap. subst. by exists (a, s).
  - by apply IH.
Qed.

Lemma selectLoop_none ps r c :
  (forall p, p ∈ ps -> isHealthy p = false) -> c < length ps ->
  selectLoop ps r c = (NoProxy, (c + r) mod length ps).
Proof.
  intros Hall. revert c.
  induction r as [|r IH]; intros c Hc; cbn [selectLoop].
  - by rewrite Nat.add_0_r, Nat.mod_small.
  - destruct (lookup_lt_is_Some_2 ps c Hc) as [proxy Hp]. rewrite Hp.
    rewrite (Hall proxy) by (apply list_elem_of_lookup; eauto).
    rewrite IH by (apply Nat.mod_upper_bound; lia).
    f_equal. rewrite Nat.Div0.add_mod_idemp_l. f_equal. lia.
Qed.

Lemma selectProxy_none m :
  cursorOk m -> (forall p, p ∈ proxies m -> isHealthy p = false) ->
  _selectProxy m = (NoProxy, m).
Proof.
  intros Hok Hall. unfold _selectProxy. destruct m as [ps c].
  unfold cursorOk in Hok. cbn [proxies currentProxyIndex] in *.
  destruct Hok as [Hc|[-> ->]]; [|done].
  rewrite selectLoop_none by done.
  replace (c + length ps) with (c + 1 * length ps) by lia.
  by rewrite Nat.Div0.mod_add, Nat.mod_small.
Qed.

Lemma selectProxy_first m :
  (forall p, p ∈ proxies m -> isHealthy p = true) ->
  currentProxyIndex m < length (proxies m) ->
  _selectProxy m =
  (Selected (currentProxyIndex m),
   mkManager (proxies m) ((currentProxyIndex m + 1) mod length (proxies m))).
Proof.
  intros Hall Hc. unfold _selectProxy.
  destruct (proxies m) as [|p0 ps] eqn:Hps; [cbn in Hc; lia|].
  rewrite <- Hps in *. cbn [length]. 
  destruct (length (proxies m)) as [|n] eqn:Hlen; [lia|].
  cbn [selectLoop].
  destruct (lookup_lt_is_Some_2 (proxies m) (currentProxyIndex m)) as [proxy Hp]; [lia|].
  rewrite Hp, (Hall proxy) by (apply list_elem_of_lookup; eauto).
  by rewrite Hlen.
Qed.

Lemma pipelineWorld_reachable : reachable pipelineWorld.
Proof.
  exists 2. apply (feedAll_steps pipelineTrace). by vm_compute.
Qed.

End PoolFlightFacts.

(** X9. In every reachable state of the pool each proxy has at most
    one task on a timer or being sent, and it has one exactly when its
    [isProcessing] flag is set. *)
Theorem X9_one_task_in_flight_per_proxy
    (w : ProxyManager.World) (i : nat) (p : ProxyManager.Proxy) :
  ProxyManager.reachable w ->
  ProxyManager.proxies (ProxyManager.manager w) !! i = Some p ->
  ProxyManager.inFlightAt i w = (if ProxyManager.isProcessing p then 1 else 0).
Proof.
  intros Hr Hp.
  apply inFlightAt_spec; [by apply reachable_inv|by apply reachable_flight|done].
Qed.

Lemma X9_one_task_in_flight_per_proxy_witness :
  ProxyManager.inFlightAt 0 ProxyManager.pipelineWorld = 1.
Proof.
  refine (X9_one_task_in_flight_per_proxy ProxyManager.pipelineWorld 0
            (ProxyManager.mkProxy [ProxyManager.mkTask 1 1 2] true 0 true 100) _ _).
  - exact pipelineWorld_reachable.
  - reflexivity.
Defined.

(** X10. In every reachable state a task waits in a proxy's queue
    only behind a task of that proxy that is on a timer or being sent, or
    on a proxy that has been marked unhealthy, where nothing is in flight
    any more: a healthy idle proxy has an empty queue. *)
Theorem X10_tasks_wait_only_behind_a_task_or_a_demotion
    (w : ProxyManager.World) (i : nat) (p : ProxyManager.Proxy) (t : ProxyManager.Task) :
  ProxyManager.reachable w ->
  ProxyManager.proxies (ProxyManager.manager w) !! i = Some p ->
  t ∈ ProxyManager.requestQueue p ->
  (ProxyManager.isHealthy p = true /\ ProxyManager.inFlightAt i w = 1) \/
  (ProxyManager.isHealthy p = false /\ ProxyManager.inFlightAt i w = 0).
Proof.
  intros Hr Hp Ht.
  pose proof (reachable_inv w Hr) as HI.
  pose proof (reachable_flight w Hr) as HF.
  rewrite (inFlightAt_spec w i p HI HF Hp).
  destruct (ProxyManager.isHealthy p) eqn:Hh.
  - left. split; [done|].
    destruct (ProxyManager.isProcessing p) eqn:Hproc; [done|].
    assert (ProxyManager.requestQueue p = []) as Hq.
    { by apply (ProxyManager.flight_idle _ _ HF i p). }
    rewrite Hq in Ht. by apply elem_of_nil in Ht.
  - right. split; [done|].
    pose proof (ProxyManager.inv_health w HI i p Hp) as Hhealth.
    rewrite Hh in Hhealth. destruct Hhealth as [_ ->]. done.
Qed.

Lemma X10_tasks_wait_only_behind_a_task_or_a_demotion_witness :
  (true = true /\ ProxyManager.inFlightAt 0 ProxyManager.pipelineWorld = 1) \/
  (true = false /\ ProxyManager.inFlightAt 0 ProxyManager.pipelineWorld = 0).
Proof.
  refine (X10_tasks_wait_only_behind_a_task_or_a_demotion ProxyManager.pipelineWorld 0
            (ProxyManager.mkProxy [ProxyManager.mkTask 1 1 2] true 0 true 100)
            (ProxyManager.mkTask 1 1 2) _ _ _).
  - exact pipelineWorld_reachable.
  - reflexivity.
  - left.
Defined.

(** X11. In every reachable state the promises handed out by
    [submitTransaction] are, each exactly once, in a queue, on a timer,
    being sent, or settled: no task is lost or duplicated and no promise is
    settled twice. *)
Theorem X11_promises_are_conserved (w : ProxyManager.World) :
  ProxyManager.reachable w ->
  ProxyManager.allPromises w ≡ₚ seq 0 (ProxyManager.nextPromise w).
Proof.
  intros Hr.
  pose proof (reachable_inv w Hr) as HI.
  pose proof (reachable_flight w Hr) as HF.
  apply full_count.
  - apply (ProxyManager.inv_promises_nodup _ HI).
  - apply (ProxyManager.inv_promises_bound _ HI).
  - apply (ProxyManager.flight_count _ _ HF).
Qed.

Lemma X11_promises_are_conserved_witness :
  ProxyManager.allPromises ProxyManager.strandedWorld ≡ₚ [0; 1; 2; 3].
Proof.
  refine (X11_promises_are_conserved ProxyManager.strandedWorld _).
  exact strandedWorld_reachable.
Defined.

(** X12. Each proxy serves its tasks first in, first out: its queue
    holds the tasks in the order they were submitted, and the task of that
    proxy that is on a timer or being sent was submitted before every task
    in its queue. *)
Theorem X12_proxy_queue_is_first_in_first_out
    (w : ProxyManager.World) (i : nat) (p : ProxyManager.Proxy) :
  ProxyManager.reachable w ->
  ProxyManager.proxies (ProxyManager.manager w) !! i = Some p ->
  ProxyManager.increasing (ProxyManager.queuePromises p) /\
  forall f q,
    f ∈ ProxyManager.flightPromises i w -> q ∈ ProxyManager.queuePromises p -> f < q.
Proof.
  intros Hr Hp.
  apply (ProxyManager.flight_fifo _ _ (reachable_flight w Hr) i p Hp).
Qed.

Lemma X12_proxy_queue_is_first_in_first_out_witness :
  ProxyManager.flightPromises 0 ProxyManager.pipelineWorld = [0] /\
  (ProxyManager.queuePromises <$> ProxyManager.proxies
     (ProxyManager.manager ProxyManager.pipelineWorld)) = [[2]; []] /\
  0 < 2.
Proof.
  split; [reflexivity|]. split; [reflexivity|].
  refine (proj2 (X12_proxy_queue_is_first_in_first_out ProxyManager.pipelineWorld 0
            (ProxyManager.mkProxy [ProxyManager.mkTask 1 1 2] true 0 true 100) _ _)
            0 2 _ _).
  - exact pipelineWorld_reachable.
  - reflexivity.
  - vm_compute. left.
  - vm_compute. left.
Defined.

(** X13. Once the pool has resolved or rejected a promise, every
    later state records it so, and no later state records another
    settlement for it. *)
Theorem X13_settlement_is_final
    (w w' : ProxyManager.World) (q : nat) (s : ProxyManager.Settlement) :
  ProxyManager.reachable w -> ProxyManager.steps w w' ->
  (q, s) ∈ ProxyManager.settled w ->
  (q, s) ∈ ProxyManager.settled w' /\
  forall s', (q, s') ∈ ProxyManager.settled w' -> s' = s.
Proof.
  intros Hr Hsteps Hq.
  destruct (steps_settled w w' Hsteps) as [new Hnew].
  assert ((q, s) ∈ ProxyManager.settled w') as Hq'.
  { rewrite Hnew. apply elem_of_app. by right. }
  split; [done|]. intros s' Hs'.
  assert (ProxyManager.Inv w') as HI'.
  { apply steps_inv with w; [by apply reachable_inv|done]. }
  pose proof (ProxyManager.inv_promises_nodup _ HI') as Hnd.
  unfold ProxyManager.allPromises in Hnd.
  apply NoDup_app in Hnd as (_ & _ & Hnd).
  by apply (settled_once (ProxyManager.settled w') q).
Qed.

Lemma X13_settlement_is_final_witness :
  (0, ProxyManager.Rejected)
    ∈ ProxyManager.settled
        (ProxyManager.submitTransaction 1 9 400 0 ProxyManager.strandedWorld).2.
Proof.
  refine (proj1 (X13_settlement_is_final ProxyManager.strandedWorld
            (ProxyManager.submitTransaction 1 9 400 0 ProxyManager.strandedWorld).2
            0 ProxyManager.Rejected _ _ _)).
  - exact strandedWorld_reachable.
  - apply ProxyManager.steps_more with ProxyManager.strandedWorld;
      [apply ProxyManager.steps_refl|].
    by apply ProxyManager.step_submit.
  - vm_compute. do 2 right. left.
Defined.

(** X14. When no proxy is healthy, and also when the pool is empty,
    [submitTransaction] rejects the promise at once and changes nothing
    else: no queue, timer or send is touched and the cursor is back where
    it was. *)
Theorem X14_no_healthy_proxy_rejects_at_once
    (pk : nat) (n now : Z) (jitter : Q) (w : ProxyManager.World) :
  ProxyManager.cursorOk (ProxyManager.manager w) ->
  (forall p, p ∈ ProxyManager.proxies (ProxyManager.manager w) ->
             ProxyManager.isHealthy p = false) ->
  ProxyManager.submitTransaction pk n now jitter w =
  (ProxyManager.nextPromise w,
   ProxyManager.mkWorld (ProxyManager.manager w) (ProxyManager.timers w)
     (ProxyManager.sending w)
     ((ProxyManager.nextPromise w, ProxyManager.Rejected) :: ProxyManager.settled w)
     (S (ProxyManager.nextPromise w))
     (ProxyManager.EffSettle (ProxyManager.nextPromise w) ProxyManager.Rejected
        :: ProxyManager.history w)).
Proof.
  intros Hok Hall.
  unfold ProxyManager.submitTransaction, ProxyManager.enqueue.
  rewrite (selectProxy_none _ Hok Hall).
  destruct w as [m tms snd stl nxt hist]. done.
Qed.

Lemma X14_no_healthy_proxy_rejects_at_once_witness :
  (ProxyManager.submitTransaction 1 9 400 0 ProxyManager.strandedWorld).1 = 4.
Proof.
  refine (f_equal fst
            (X14_no_healthy_proxy_rejects_at_once 1 9 400 0 ProxyManager.strandedWorld _ _)).
  - left. vm_compute. lia.
  - intros p Hp. vm_compute in Hp.
    apply list_elem_of_singleton in Hp as ->. reflexivity.
Defined.

(** X15. While all proxies are healthy, [k] selections in a row
    return the proxy at the cursor, the next one, and so on, wrapping
    around: the tasks are dealt evenly over the pool. *)
Theorem X15_healthy_pool_is_served_in_turn (k : nat) (m : ProxyManager.Manager) :
  (forall p, p ∈ ProxyManager.proxies m -> ProxyManager.isHealthy p = true) ->
  ProxyManager.currentProxyIndex m < length (ProxyManager.proxies m) ->
  ProxyManager.selectMany k m =
  (fun j => ProxyManager.Selected
              ((ProxyManager.currentProxyIndex m + j) mod length (ProxyManager.proxies m)))
    <$> seq 0 k.
Proof.
  revert m. induction k as [|k IH]; intros m Hall Hc; [done|].
  cbn [ProxyManager.selectMany]. rewrite (selectProxy_first m Hall Hc).
  rewrite IH; cbn [ProxyManager.proxies ProxyManager.currentProxyIndex];
    [|done|apply Nat.mod_upper_bound; lia].
  cbn [seq fmap list_fmap]. f_equal.
  - by rewrite Nat.add_0_r, Nat.mod_small.
  - rewrite <- (fmap_S_seq 0), <- list_fmap_compose.
    apply list_fmap_ext. intros j x _. cbn. f_equal.
    rewrite Nat.Div0.add_mod_idemp_l. f_equal. lia.
Qed.

Lemma X15_healthy_pool_is_served_in_turn_witness :
  ProxyManager.selectMany 5 (ProxyManager.mkManager (replicate 3 ProxyManager.newProxy) 1)
  = [ProxyManager.Selected 1; ProxyManager.Selected 2; ProxyManager.Selected 0;
     ProxyManager.Selected 1; ProxyManager.Selected 2].
Proof.
  refine (X15_healthy_pool_is_served_in_turn 5
            (ProxyManager.mkManager (replicate 3 ProxyManager.newProxy) 1) _ _).
  - intros p Hp. apply elem_of_replicate in Hp as [-> _]. reflexivity.
  - cbn. lia.
Defined.


(** ** The nonce queue: order of service *)

Section NonceQueueOrder.
Import Mint.

Lemma newNonceQueue_order : QOrder newNonceQueue.
Proof. by repeat split. Qed.

Lemma process_order now q :
  activations q = [] ->
  requestPromise <$> requested q = seq 0 (nextRequest q) ->
  fst <$> answered q = (fun c => requestPromise (fst c)) <$> calls q ->
  isProcessingDirectNonceQueue q = false ->
  QOrder (processDirectNonceQueue now q).
Proof.
  intros Ha Hreq Hans Hflag. unfold processDirectNonceQueue. rewrite Hflag.
  destruct (directProviderNonceQueue q) as [|r rest] eqn:Hq.
  { unfold QOrder, answeredCalls. by rewrite Ha, Hq. }
  destruct (Z.ltb_spec (now - lastDirectNonceCallTime q)
              DIRECT_PROVIDER_CALL_INTERVAL_MS) as [Hsoon|Hlate];
    unfold QOrder, answeredCalls; cbn; rewrite ?Ha; cbn; done.
Qed.

Lemma fetch_order addr now q :
  QInv q -> QOrder q -> QOrder (fetchNonceViaQueue addr now q).2.
Proof.
  intros [_ Hact] (Hreq & Hans & Hidle). unfold fetchNonceViaQueue. cbn [snd].
  set (q1 := mkNonceQueue _ _ _ _ _ _ _ _).
  assert (requestPromise <$> requested q1 = seq 0 (nextRequest q1)) as Hreq1.
  { subst q1. cbn [requested nextRequest]. rewrite fmap_app, Hreq, seq_S. done. }
  destruct (isProcessingDirectNonceQueue q1) eqn:Hflag.
  - subst q1. cbn in *. unfold QOrder, answeredCalls in *. cbn.
    repeat split; [done|done|congruence].
  - apply process_order; try done; subst q1; cbn in *.
    + destruct (activations q) as [|[r0 set ms|r0 start] [|]]; try done;
        destruct Hact; congruence.
    + unfold answeredCalls in Hans.
      destruct (activations q) as [|[r0 set ms|r0 start] [|]]; try done;
        destruct Hact; congruence.
Qed.

Lemma delayOver_order q k r set ms fire :
  QInv q -> QOrder q -> activations q !! k = Some (Delaying r set ms) ->
  QOrder (delayOver k r fire q).
Proof.
  intros [_ Hact] (Hreq & Hans & Hidle) Hk.
  destruct (activations q) as [|a [|]] eqn:Ha; [done| |by destruct a].
  destruct k as [|k]; [|done]. cbn in Hk. injection Hk as ->.
  destruct Hact as (Hf & _).
  unfold QOrder, answeredCalls in *. cbn. rewrite Ha in *. cbn.
  repeat split; [done|done|congruence].
Qed.

Lemma callOver_order q k r start res now now' :
  QInv q -> QOrder q -> activations q !! k = Some (Calling r start) ->
  QOrder (callOver k r res now now' q).
Proof.
  intros [_ Hact] (Hreq & Hans & Hidle) Hk.
  destruct (activations q) as [|a [|]] eqn:Ha; [done| |by destruct a].
  destruct k as [|k]; [|done]. cbn in Hk. injection Hk as ->.
  destruct Hact as (Hf & _ & Hhd).
  unfold callOver.
  set (q1 := mkNonceQueue _ _ _ _ _ _ _ _).
  assert (fst <$> answered q1 = (fun c => requestPromise (fst c)) <$> calls q1) as Hans1.
  { subst q1. cbn. unfold answeredCalls in Hans. rewrite Ha in Hans.
    destruct (calls q) as [|[r1 t1] rest]; [done|].
    cbn in *. injection Hhd as -> ->. by rewrite Hans. }
  destruct (directProviderNonceQueue q1) eqn:Hq1.
  - subst q1. cbn in *. unfold QOrder, answeredCalls. cbn. rewrite Ha. cbn.
    by rewrite Hq1.
  - apply process_order; try done. subst q1. cbn. by rewrite Ha.
Qed.

Lemma qstep_order q q' : QInv q -> QOrder q -> qstep q q' -> QOrder q'.
Proof.
  intros HI HO Hstep. destruct Hstep.
  - by apply fetch_order.
  - by apply delayOver_order with set ms.
  - by apply callOver_order with start.
Qed.

Lemma qsteps_order q : qsteps newNonceQueue q -> QOrder q.
Proof.
  intros Hsteps.
  remember newNonceQueue as q0 eqn:Hq0.
  induction Hsteps as [q|q1 q2 q3 H12 IH H23].
  - subst. apply newNonceQueue_order.
  - apply qstep_order with q2; auto. subst. by apply qsteps_inv.
Qed.

Lemma seq_prefix (l l' : list nat) n :
  l ++ l' = seq 0 n -> l = seq 0 (length l).
Proof.
  intros H.
  assert (length l <= n) as Hlen.
  { apply (f_equal length) in H. rewrite length_app, length_seq in H. lia. }
  rewrite <- (take_app_length l l'), H, take_seq.
  by rewrite length_seq.
Qed.

Lemma fmap_rev_list {A B} (f : A -> B) (l : list A) : f <$> rev l = rev (f <$> l).
Proof.
  induction l as [|a l IH]; [done|].
  cbn [rev fmap list_fmap]. rewrite fmap_app, IH. done.
Qed.

End NonceQueueOrder.

(** X16. In every reachable state of the nonce queue a request
    waits in the queue only while an activation of
    [processDirectNonceQueue] is under way: the queue is never left with
    requests and nothing running, also after a call that failed. *)
Theorem X16_nonce_requests_are_never_left_waiting (q : Mint.NonceQueue) :
  Mint.qsteps Mint.newNonceQueue q ->
  Mint.directProviderNonceQueue q = [] \/
  (Mint.isProcessingDirectNonceQueue q = true /\ length (Mint.activations q) = 1).
Proof.
  intros Hreach.
  destruct (qsteps_order q Hreach) as (_ & _ & Hidle).
  destruct (qsteps_inv q Hreach) as [_ Hact].
  destruct (Mint.isProcessingDirectNonceQueue q) eqn:Hflag; [right|left; by apply Hidle].
  split; [done|].
  destruct (Mint.activations q) as [|[r0 set ms|r0 start] [|]]; try done.
  by destruct Hact.
Qed.

Lemma X16_nonce_requests_are_never_left_waiting_witness :
  Mint.directProviderNonceQueue Mint.burstQueue = [] \/
  (Mint.isProcessingDirectNonceQueue Mint.burstQueue = true /\
   length (Mint.activations Mint.burstQueue) = 1).
Proof.
  refine (X16_nonce_requests_are_never_left_waiting Mint.burstQueue _).
  exact burstQueue_reachable.
Defined.

(** X17. The nonce queue answers the requests in the order they
    were made, each once: the [k]-th promise to be settled is the [k]-th
    promise handed out. *)
Theorem X17_nonce_requests_are_answered_in_order (q : Mint.NonceQueue) :
  Mint.qsteps Mint.newNonceQueue q ->
  rev (fst <$> Mint.answered q) = seq 0 (length (Mint.answered q)) /\
  length (Mint.answered q) <= Mint.nextRequest q.
Proof.
  intros Hreach.
  destruct (qsteps_order q Hreach) as (Hreq & Hans & _).
  destruct (qsteps_inv q Hreach) as [_ Hact].
  assert (exists rest,
            rev (fst <$> Mint.answered q) ++ rest = seq 0 (Mint.nextRequest q))
    as [rest Hrest].
  { rewrite <- Hreq, Hans. unfold Mint.answeredCalls.
    destruct (Mint.activations q) as [|[r0 set ms|r0 start] [|]]; try done.
    - destruct Hact as (_ & -> & _).
      exists (Mint.requestPromise <$> Mint.directProviderNonceQueue q).
      rewrite fmap_app, <- !fmap_rev_list, <- !list_fmap_compose. done.
    - destruct Hact as (_ & -> & _).
      exists (Mint.requestPromise <$> r0 :: Mint.directProviderNonceQueue q).
      rewrite fmap_app, <- !fmap_rev_list, <- !list_fmap_compose. done.
    - destruct Hact as (_ & -> & Hhd).
      destruct (Mint.calls q) as [|[r1 t1] tl]; [done|].
      exists (Mint.requestPromise <$> r1 :: Mint.directProviderNonceQueue q).
      cbn. rewrite fmap_app, fmap_app, <- !fmap_rev_list, <- !list_fmap_compose.
      by rewrite <- (assoc (++)). }
  pose proof (seq_prefix _ _ _ Hrest) as Hseq.
  rewrite length_rev, length_fmap in Hseq. split; [done|].
  apply (f_equal length) in Hrest.
  rewrite length_app, length_rev, length_fmap, length_seq in Hrest. lia.
Qed.

Lemma X17_nonce_requests_are_answered_in_order_witness :
  rev (fst <$> Mint.answered Mint.burstQueue) = [0; 1].
Proof.
  refine (proj1 (X17_nonce_requests_are_answered_in_order Mint.burstQueue _)).
  exact burstQueue_reachable.
Defined.


(** ** The wallet lock: release and progress *)

Section LockLive.
Import Mint.

Lemma newSystem_live ws : LLive (newSystem ws).
Proof.
  constructor; cbn; try done.
Qed.

Lemma resume_enabled pc n :
  terminal pc = false -> exists x o, resume pc n x = Some o.
Proof.
  destruct pc as [a|a k|a k|a|a| |]; try done; intros _.
  - exists SendResolved. cbn. eauto.
  - exists TimerElapsed. cbn. eauto.
  - exists NonceRejected. cbn. eauto.
  - exists TimerElapsed. cbn. eauto.
  - exists TimerElapsed. cbn. eauto.
Qed.

(** The operation of flow [f] runs on from a state in which [f] holds the
    lock [p] of its wallet's address. *)
Lemma live_continue s f w wi p o pc s' (fs : list Flow) :
  walletInfos s !! w = Some wi ->
  walletLocks s !! address wi = Some p ->
  (p ∉ resolvedLocks s) -> p < nextLock s ->
  (forall a p', walletLocks s !! a = Some p' -> a <> address wi ->
     (p' ∉ resolvedLocks s) /\ p' <> p /\
     exists g x pc', g <> f /\
       flows s !! g = Some (mkFlow x (InOperation p' pc')) /\
       addressOf s x = Some a) ->
  (forall g x p', g <> f -> flows s !! g = Some (mkFlow x (AwaitLock p')) ->
     (p' ∈ resolvedLocks s) \/ exists a, walletLocks s !! a = Some p') ->
  (forall g x p' pc', g <> f ->
     flows s !! g = Some (mkFlow x (InOperation p' pc')) ->
     wfPc pc' /\ terminal pc' = false) ->
  (forall g fl, g <> f -> flows s !! g = Some fl ->
     flowWallet fl < length (walletInfos s)) ->
  (forall q, q ∈ resolvedLocks s -> q < nextLock s) ->
  wfPc o.1.1 ->
  continueOperation f w wi p o s = (pc, s') ->
  (forall g, g <> f -> fs !! g = flows s !! g) ->
  fs !! f = Some (mkFlow w pc) ->
  LLive (mkSystem (walletInfos s') (walletLocks s') (resolvedLocks s')
                  (nextLock s') fs (trail s')).
Proof.
  intros Hw Hlock Hfresh Hlt Hheld Hwait Hin Hwal Hres Hwf Hcont Hfs Hf.
  destruct o as [[pc0 n] acts]. cbn [fst snd] in Hwf.
  unfold continueOperation in Hcont.
  pose proof (lookup_lt_Some _ _ _ Hw) as Hwlt.
  assert (forall ws' x,
            ws' = <[w := mkWalletInfo (address wi) n]> (walletInfos s) ->
            address <$> ws' !! x = addressOf s x) as Haddr.
  { intros ws' x ->. by apply addressOf_insert. }
  destruct (terminal pc0) eqn:Hterm; injection Hcont as <- <-;
    constructor; unfold addressOf;
    cbn [walletInfos walletLocks resolvedLocks nextLock flows trail].
  - (* the operation is over: the lock is deleted and resolved *)
    intros a p' Hl. apply lookup_delete_Some in Hl as [Hne Hl].
    destruct (Hheld a p' Hl) as (Hnr & Hnp & g & x & pc' & Hg & Hfl & Hax); [done|].
    split.
    { intros Hbad. apply elem_of_union in Hbad as [Hbad|Hbad]; [|done].
      by apply elem_of_singleton in Hbad. }
    exists g, x, pc'. rewrite Hfs by done. split; [done|].
    by rewrite (Haddr _ x eq_refl).
  - intros g x p' Hg.
    destruct (decide (g = f)) as [->|Hne]; [rewrite Hf in Hg; by destruct pc0|].
    rewrite Hfs in Hg by done.
    destruct (Hwait g x p' Hne Hg) as [Hr|[a Ha]];
      [left; apply elem_of_union; by right|].
    destruct (decide (a = address wi)) as [->|Hna].
    + left. rewrite Hlock in Ha. injection Ha as <-.
      apply elem_of_union. left. by apply elem_of_singleton.
    + right. exists a. by rewrite lookup_delete_ne.
  - intros g x p' pc' Hg.
    destruct (decide (g = f)) as [->|Hne]; [rewrite Hf in Hg; by destruct pc0|].
    rewrite Hfs in Hg by done. by apply (Hin g x p' pc').
  - intros g fl Hg. rewrite length_insert.
    destruct (decide (g = f)) as [->|Hne].
    + rewrite Hf in Hg. by injection Hg as <-.
    + rewrite Hfs in Hg by done. by apply (Hwal g).
  - intros q Hq. apply elem_of_union in Hq as [Hq|Hq]; [|by apply Hres].
    apply elem_of_singleton in Hq as ->. done.
  - (* the operation is suspended again *)
    intros a p' Hl.
    destruct (decide (a = address wi)) as [->|Hna].
    + rewrite Hlock in Hl. injection Hl as <-. split; [done|].
      exists f, w, pc0. split; [done|].
      rewrite (Haddr _ w eq_refl). unfold addressOf. by rewrite Hw.
    + destruct (Hheld a p' Hl) as (Hnr & Hnp & g & x & pc' & Hg & Hfl & Hax); [done|].
      split; [done|].
      exists g, x, pc'. rewrite Hfs by done. split; [done|].
      by rewrite (Haddr _ x eq_refl).
  - intros g x p' Hg.
    destruct (decide (g = f)) as [->|Hne]; [rewrite Hf in Hg; done|].
    rewrite Hfs in Hg by done. by apply (Hwait g x p').
  - intros g x p' pc' Hg.
    destruct (decide (g = f)) as [->|Hne].
    + rewrite Hf in Hg. by injection Hg as <- <- <-.
    + rewrite Hfs in Hg by done. by apply (Hin g x p' pc').
  - intros g fl Hg. rewrite length_insert.
    destruct (decide (g = f)) as [->|Hne].
    + rewrite Hf in Hg. by injection Hg as <-.
    + rewrite Hfs in Hg by done. by apply (Hwal g).
  - done.
Qed.

(** Flow [f], which is not inside the operation, runs the test of line
    529. *)
Lemma live_enter s f w wi pc s' (fs : list Flow) :
  LInv s -> LLive s -> walletInfos s !! w = Some wi ->
  enter f w wi s = (pc, s') ->
  (forall g, g <> f -> fs !! g = flows s !! g) ->
  fs !! f = Some (mkFlow w pc) ->
  (forall x p' pc', flows s !! f <> Some (mkFlow x (InOperation p' pc'))) ->
  LLive (mkSystem (walletInfos s') (walletLocks s') (resolvedLocks s')
                  (nextLock s') fs (trail s')).
Proof.
  intros [Hst Hsi] [Hheld Hwait Hin Hwal Hres] Hw Henter Hfs Hf Hnot.
  unfold enter in Henter.
  pose proof (lookup_lt_Some _ _ _ Hw) as Hwlt.
  destruct (walletLocks s !! address wi) as [p|] eqn:Hlock.
  - injection Henter as <- <-.
    constructor; cbn [walletInfos walletLocks resolvedLocks nextLock flows trail].
    + intros a p' Hl. destruct (Hheld a p' Hl) as (Hnr & g & x & pc' & Hg & Hax).
      split; [done|]. exists g, x, pc'. split; [|done].
      rewrite Hfs; [done|]. intros ->. by apply (Hnot x p' pc').
    + intros g x p' Hg. destruct (decide (g = f)) as [->|Hne].
      * rewrite Hf in Hg. injection Hg as <- <-. right. eauto.
      * rewrite Hfs in Hg by done. by apply (Hwait g x p').
    + intros g x p' pc' Hg. destruct (decide (g = f)) as [->|Hne].
      * rewrite Hf in Hg. done.
      * rewrite Hfs in Hg by done. by apply (Hin g x p' pc').
    + intros g fl Hg. destruct (decide (g = f)) as [->|Hne].
      * rewrite Hf in Hg. by injection Hg as <-.
      * rewrite Hfs in Hg by done. by apply (Hwal g).
    + done.
  - set (s1 := mkSystem _ _ _ _ _ _) in Henter.
    apply (live_continue s1 f w wi (nextLock s) (startAttempt 0 (currentNonce wi)) pc s');
      subst s1; cbn [walletInfos walletLocks resolvedLocks nextLock flows trail];
      try done.
    + by rewrite lookup_insert_eq.
    + intros Hbad. specialize (Hres _ Hbad). lia.
    + lia.
    + intros a p' Hl Hne. rewrite lookup_insert_ne in Hl by done.
      destruct (Hheld a p' Hl) as (Hnr & g & x & pc' & Hg & Hax).
      destruct (Hst _ _ _ _ Hg) as (Hlt & _).
      split; [done|]. split; [lia|].
      exists g, x, pc'. split; [|done].
      intros ->. by apply (Hnot x p' pc').
    + intros g x p' Hne Hg.
      destruct (Hwait g x p' Hg) as [Hr|[a Ha]]; [by left|right].
      exists a. rewrite lookup_insert_ne; [done|]. intros <-. congruence.
    + intros g x p' pc' _. apply Hin.
    + intros g fl _. apply Hwal.
    + intros q Hq. specialize (Hres q Hq). lia.
    + cbn. unfold MAX_TRANSACTION_RETRIES. lia.
Qed.

Lemma call_live s w wi :
  LInv s -> LLive s -> walletInfos s !! w = Some wi ->
  LLive (callWithWalletLock w wi s).
Proof.
  intros HI HL Hw. unfold callWithWalletLock.
  destruct (enter (length (flows s)) w wi s) as [pc s'] eqn:Henter.
  pose proof (enter_spec (length (flows s)) w wi s Hw) as Hspec.
  rewrite Henter in Hspec. cbn [fst snd] in Hspec. destruct Hspec as (Hfl & _).
  unfold newFlow. rewrite Hfl.
  apply (live_enter s (length (flows s)) w wi pc s'); try done.
  - intros g Hne. destruct (decide (g < length (flows s))).
    + by rewrite lookup_app_l.
    + rewrite !lookup_ge_None_2; [done|lia|rewrite length_app; cbn; lia].
  - by apply list_lookup_middle.
  - intros x p' pc' Hf. apply lookup_lt_Some in Hf. lia.
Qed.

Lemma wake_live s f w wi p :
  LInv s -> LLive s -> flows s !! f = Some (mkFlow w (AwaitLock p)) ->
  walletInfos s !! w = Some wi -> LLive (wakeFlow f w wi s).
Proof.
  intros HI HL Hf Hw. unfold wakeFlow.
  destruct (enter f w wi s) as [pc s'] eqn:Henter.
  pose proof (enter_spec f w wi s Hw) as Hspec.
  rewrite Henter in Hspec. cbn [fst snd] in Hspec. destruct Hspec as (Hfl & _).
  unfold putFlow. rewrite Hfl.
  apply (live_enter s f w wi pc s'); try done.
  - intros g Hne. by rewrite list_lookup_insert_ne.
  - apply list_lookup_insert_eq. by apply lookup_lt_Some in Hf.
  - intros x p' pc'. congruence.
Qed.

Lemma resume_live s f w wi p pc r o :
  LInv s -> LLive s -> flows s !! f = Some (mkFlow w (InOperation p pc)) ->
  walletInfos s !! w = Some wi ->
  resume pc (currentNonce wi) r = Some o ->
  LLive (resumeFlow f w wi p o s).
Proof.
  intros [Hst Hsi] [Hheld Hwait Hin Hwal Hres] Hf Hw Hr. unfold resumeFlow.
  destruct (continueOperation f w wi p o s) as [pc2 s'] eqn:Hcont.
  pose proof (continueOperation_spec f w wi p o s Hw) as Hspec.
  rewrite Hcont in Hspec. cbn [fst snd] in Hspec. destruct Hspec as (Hfl & _).
  unfold putFlow. rewrite Hfl.
  destruct (Hst _ _ _ _ Hf) as (Hlt & a & Ha & Hla).
  assert (a = address wi) as ->.
  { unfold addressOf in Ha. rewrite Hw in Ha. by injection Ha. }
  destruct (Hheld _ _ Hla) as (Hnr & _).
  destruct (Hin _ _ _ _ Hf) as (Hwf & Hnt).
  apply (live_continue s f w wi p o pc2 s'); try done.
  - intros a' p' Hl Hne.
    destruct (Hheld a' p' Hl) as (Hnr' & g & x & pc' & Hg & Hax).
    assert (g <> f) as Hgf.
    { intros ->. rewrite Hf in Hg. injection Hg as <- <- <-. congruence. }
    split; [done|]. split.
    + intros ->. apply Hgf. by apply (Hsi g f x w p pc' pc).
    + exists g, x, pc'. done.
  - intros g x p' _. apply Hwait.
  - intros g x p' pc' _. apply Hin.
  - intros g fl _. apply Hwal.
  - destruct o as [[pc' n'] acts]. cbn.
    by destruct (resume_progress _ _ _ _ _ _ Hwf Hr).
  - intros g Hne. by rewrite list_lookup_insert_ne.
  - apply list_lookup_insert_eq. by apply lookup_lt_Some in Hf.
Qed.

Lemma lstep_live s l s' : LInv s -> LLive s -> lstep s l s' -> LLive s'.
Proof.
  intros HI HL Hstep. destruct Hstep.
  - by apply call_live.
  - by apply wake_live with p.
  - by apply resume_live with pc r.
Qed.

Lemma lsteps_live ws s : lsteps (newSystem ws) s -> LLive s.
Proof.
  intros Hsteps. remember (newSystem ws) as s0 eqn:Hs0.
  induction Hsteps as [s|s1 s2 l s3 H12 IH H23].
  - subst. apply newSystem_live.
  - apply lstep_live with s2 l; auto. subst. by apply lsteps_inv with ws.
Qed.

Lemma lockedSystem_reachable : lsteps (newSystem twoWallets) lockedSystem.
Proof. apply (lfeedAll_steps lockTrace). by vm_compute. Qed.

End LockLive.

(** X18. In every reachable state [walletLocks] has an entry for an
    address exactly when a flow is inside the operation for that address:
    the entry is removed when the operation returns and when it throws. *)
Theorem X18_lock_is_in_the_map_exactly_while_held
    (ws : list Mint.WalletInfo) (s : Mint.System) (a : nat) :
  Mint.lsteps (Mint.newSystem ws) s ->
  (is_Some (Mint.walletLocks s !! a) <-> exists f, Mint.holds s f a).
Proof.
  intros Hreach.
  pose proof (lsteps_inv ws s Hreach) as [Hst _].
  pose proof (lsteps_live ws s Hreach) as [Hheld _ _ _ _].
  split.
  - intros [p Hp]. destruct (Hheld a p Hp) as (_ & f & w & pc & Hf & Ha).
    exists f. unfold Mint.holds. unfold Mint.addressOf in Ha.
    destruct (Mint.walletInfos s !! w) as [wi|] eqn:Hw; [|done].
    injection Ha as Ha. by exists w, wi, p, pc.
  - intros (f & w & wi & p & pc & Hf & Hw & <-).
    destruct (Hst _ _ _ _ Hf) as (_ & a & Ha & Hla).
    unfold Mint.addressOf in Ha. rewrite Hw in Ha. injection Ha as <-. eauto.
Qed.

Lemma X18_lock_is_in_the_map_exactly_while_held_witness :
  is_Some (Mint.walletLocks Mint.lockedSystem !! 10)
  <-> exists f, Mint.holds Mint.lockedSystem f 10.
Proof.
  refine (X18_lock_is_in_the_map_exactly_while_held Mint.twoWallets Mint.lockedSystem 10 _).
  exact lockedSystem_reachable.
Defined.

(** X19. The wallet lock cannot deadlock: in every reachable state
    in which some flow is not over, some flow can proceed, either one that
    is inside its operation and awaits an answer, or one that awaits a lock
    promise that has been resolved. *)
Theorem X19_some_flow_can_always_proceed
    (ws : list Mint.WalletInfo) (s : Mint.System) (f : nat) (fl : Mint.Flow) :
  Mint.lsteps (Mint.newSystem ws) s ->
  Mint.flows s !! f = Some fl -> Mint.finished fl = false ->
  exists g s',
    (exists r, Mint.lstep s (Mint.LResume g r) s') \/ Mint.lstep s (Mint.LWake g) s'.
Proof.
  intros Hreach Hf Hfin.
  pose proof (lsteps_live ws s Hreach) as [Hheld Hwait Hin Hwal _].
  assert (forall g x p pc,
            Mint.flows s !! g = Some (Mint.mkFlow x (Mint.InOperation p pc)) ->
            exists s' r, Mint.lstep s (Mint.LResume g r) s') as Hinside.
  { intros g x p pc Hg.
    destruct (Hin _ _ _ _ Hg) as [_ Hnt].
    pose proof (Hwal _ _ Hg) as Hx. cbn in Hx.
    destruct (lookup_lt_is_Some_2 _ _ Hx) as [wi Hwi].
    destruct (resume_enabled pc (Mint.currentNonce wi) Hnt) as (r & o & Hr).
    exists (Mint.resumeFlow g x wi p o s), r.
    by apply Mint.lstep_resume with pc. }
  destruct fl as [w [p|p pc|ok]]; [| |done].
  - destruct (Hwait _ _ _ Hf) as [Hres|[a Ha]].
    + pose proof (Hwal _ _ Hf) as Hx. cbn in Hx.
      destruct (lookup_lt_is_Some_2 _ _ Hx) as [wi Hwi].
      exists f, (Mint.wakeFlow f w wi s). right.
      by apply Mint.lstep_wake with p.
    + destruct (Hheld _ _ Ha) as (_ & g & x & pc & Hg & _).
      destruct (Hinside _ _ _ _ Hg) as (s' & r & Hstep).
      exists g, s'. left. eauto.
  - destruct (Hinside _ _ _ _ Hf) as (s' & r & Hstep).
    exists f, s'. left. eauto.
Qed.

Lemma X19_some_flow_can_always_proceed_witness :
  exists g s',
    (exists r, Mint.lstep Mint.lockedSystem (Mint.LResume g r) s') \/
    Mint.lstep Mint.lockedSystem (Mint.LWake g) s'.
Proof.
  refine (X19_some_flow_can_always_proceed Mint.twoWallets Mint.lockedSystem 2
            (Mint.mkFlow 0 (Mint.AwaitLock 0)) _ _ _).
  - exact lockedSystem_reachable.
  - vm_compute. reflexivity.
  - reflexivity.
Defined.


(** ** The dispatch loop and its limit *)

Section DispatcherProofs.
Import Mint.

Lemma count_insert {A} (P : A -> bool) (l : list A) t x y :
  l !! t = Some x ->
  length (filter (fun z => P z = true) (<[t := y]> l)) + (if P x then 1 else 0)
  = length (filter (fun z => P z = true) l) + (if P y then 1 else 0).
Proof.
  intros Hl.
  destruct (list_elem_of_split_length l t x Hl) as (l1 & l2 & -> & ->).
  rewrite insert_app_r_alt by lia. rewrite Nat.sub_diag. cbn [insert list_insert].
  rewrite !filter_app, !filter_cons, !length_app.
  destruct (P x), (P y); repeat case_decide; try done; cbn [length]; lia.
Qed.

Lemma phase_insert (l : list (nat * TaskPhase)) t w ph t' x :
  l !! t = Some x ->
  snd <$> (<[t := (w, ph)]> l) !! t' =
  if decide (t' = t) then Some ph else snd <$> l !! t'.
Proof.
  intros Hl. destruct (decide (t' = t)) as [->|Hne].
  - rewrite list_lookup_insert_eq; [done|]. by apply lookup_lt_Some in Hl.
  - by rewrite list_lookup_insert_ne.
Qed.

Lemma wallets_insert (l : list (nat * TaskPhase)) t w ph ph' :
  l !! t = Some (w, ph) -> (<[t := (w, ph')]> l).*1 = l.*1.
Proof.
  intros Hl. rewrite list_fmap_insert. apply list_insert_id.
  by rewrite list_lookup_fmap, Hl.
Qed.

Lemma newDispatcher_inv flowsToDispatch : DInv flowsToDispatch (newDispatcher flowsToDispatch).
Proof.
  constructor; cbn; try done.
  - constructor.
  - intros t. split; [intros Ht; by apply elem_of_nil in Ht|].
    intros (ph & Hph & _). unfold phaseOf in Hph. cbn in Hph.
    by rewrite lookup_nil in Hph.
  - unfold MAX_CONCURRENT_TASKS. lia.
Qed.

Lemma dispatch_inv flowsToDispatch d w rest :
  DInv flowsToDispatch d -> plan d = w :: rest ->
  length (runningTasks d) < MAX_CONCURRENT_TASKS ->
  DInv flowsToDispatch (dispatch w d).
Proof.
  intros [Hnd Hrun Hlim Hmain Hcnt Hdis Hplan] Hp Hlt.
  destruct d as [pl pc run tk succ fail over].
  unfold phaseOf, uncounted in *. cbn in *. subst pl.
  constructor; unfold phaseOf, uncounted; cbn.
  - apply NoDup_app. split; [done|]. split; [|apply NoDup_singleton].
    intros t Ht Hin. apply list_elem_of_singleton in Hin as ->.
    apply Hrun in Ht as (ph & Hph & _).
    destruct (tk !! length tk) eqn:Hl; [|done].
    apply lookup_lt_Some in Hl. lia.
  - intros t. rewrite elem_of_app, list_elem_of_singleton, Hrun.
    split.
    + intros [(ph & Hph & Hin)| ->].
      * exists ph. split; [|done].
        destruct (tk !! t) as [x|] eqn:Hl; [|done].
        by rewrite (lookup_app_l_Some _ _ _ _ Hl).
      * exists Flowing. split; [|done].
        by rewrite list_lookup_middle.
    + intros (ph & Hph & Hin).
      destruct (decide (t < length tk)) as [Hlt'|Hge].
      * left. exists ph. split; [|done]. by rewrite lookup_app_l in Hph.
      * right. destruct ((tk ++ [(w, Flowing)]) !! t) as [x|] eqn:Hl; [|done].
        apply lookup_lt_Some in Hl. rewrite length_app in Hl. cbn in Hl. lia.
  - rewrite length_app. cbn. lia.
  - done.
  - rewrite filter_app, !length_app. cbn.
    repeat case_decide; try done; cbn [length]; lia.
  - rewrite length_app. cbn. lia.
  - rewrite fmap_app, <- (assoc (++)). done.
Qed.

Lemma settled_not_running flowsToDispatch d t :
  DInv flowsToDispatch d -> isSettled d t = true -> t ∉ runningTasks d.
Proof.
  intros HI Hs Hin. apply (dinv_running _ _ HI) in Hin as (ph & Hph & Harr).
  unfold isSettled in Hs. rewrite Hph in Hs. by destruct ph.
Qed.

Lemma mainStep_inv flowsToDispatch d d' :
  DInv flowsToDispatch d -> mainStep d = Some d' -> DInv flowsToDispatch d'.
Proof.
  intros HI Hstep. unfold mainStep in Hstep.
  destruct (mainPc d) as [|snapshot|] eqn:Hpc; [| |done].
  - destruct (plan d) as [|w rest] eqn:Hp.
    + injection Hstep as <-. destruct HI. constructor; try done.
    + destruct (Nat.leb_spec MAX_CONCURRENT_TASKS (length (runningTasks d))).
      * injection Hstep as <-. destruct HI. constructor; try done.
        cbn. rewrite Hp. done.
      * injection Hstep as <-. by apply dispatch_inv with rest.
  - destruct (existsb (isSettled d) snapshot) eqn:Hex; [|done].
    destruct (plan d) as [|w rest] eqn:Hp; [done|].
    injection Hstep as <-. apply dispatch_inv with rest; [done|done|].
    apply existsb_exists in Hex as (t & Ht & Hs).
    pose proof (settled_not_running _ _ _ HI Hs) as Hnot.
    pose proof (dinv_main _ _ HI) as Hmain. rewrite Hpc in Hmain.
    destruct Hmain as (_ & Hnds & Hlen & Hsub).
    assert (length (t :: runningTasks d) <= length snapshot) as Hle.
    { apply submseteq_length, NoDup_submseteq.
      - apply NoDup_cons. split; [done|]. apply (dinv_nodup _ _ HI).
      - intros x Hx. apply elem_of_cons in Hx as [->|Hx]; [|by apply Hsub].
        by apply list_elem_of_In. }
    cbn in Hle. lia.
Qed.

Lemma flowSettles_inv flowsToDispatch d t fulfilled d' :
  DInv flowsToDispatch d -> flowSettles t fulfilled d = Some d' ->
  DInv flowsToDispatch d'.
Proof.
  intros [Hnd Hrun Hlim Hmain Hcnt Hdis Hplan] Hstep. unfold flowSettles in Hstep.
  destruct (tasks d !! t) as [[w [| | |]]|] eqn:Ht; try done.
  injection Hstep as <-.
  destruct d as [pl pc run tk succ fail over].
  unfold phaseOf, uncounted in *. cbn in *.
  pose proof (count_insert isFlowing tk t (w, Flowing) (w, Counted) Ht) as Hc.
  cbn in Hc.
  constructor; unfold phaseOf, uncounted; cbn; try done.
  - intros t'. rewrite Hrun, (phase_insert tk t w Counted t' _ Ht).
    destruct (decide (t' = t)) as [->|Hne]; [|done].
    rewrite Ht. cbn. split; intros _; eauto.
  - rewrite length_insert. destruct fulfilled; lia.
  - by rewrite length_insert.
  - by rewrite (wallets_insert tk t w Flowing Counted Ht).
Qed.

Lemma finallyCallback_inv flowsToDispatch d t d' :
  DInv flowsToDispatch d -> finallyCallback t d = Some d' ->
  DInv flowsToDispatch d'.
Proof.
  intros [Hnd Hrun Hlim Hmain Hcnt Hdis Hplan] Hstep. unfold finallyCallback in Hstep.
  destruct (tasks d !! t) as [[w [| | |]]|] eqn:Ht; try done.
  injection Hstep as <-.
  destruct d as [pl pc run tk succ fail over].
  unfold phaseOf, uncounted in *. cbn in *.
  pose proof (count_insert isFlowing tk t (w, Counted) (w, Removed) Ht) as Hc.
  cbn in Hc.
  assert (t ∈ run) as Hin.
  { apply Hrun. exists Counted. by rewrite Ht. }
  unfold indexOf.
  destruct (list_find (fun x => x = t) run) as [[index x]|] eqn:Hfind.
  2:{ apply list_find_None in Hfind. rewrite Forall_forall in Hfind.
      by destruct (Hfind t Hin). }
  apply list_find_Some in Hfind as (Hidx & -> & _). cbn [fmap option_fmap option_map fst].
  pose proof (delete_Permutation run index t Hidx) as Hperm.
  assert (NoDup (t :: delete index run)) as Hnd' by (by rewrite <- Hperm).
  apply NoDup_cons in Hnd' as [Hnot Hnd'].
  assert (forall x, x ∈ delete index run <-> x ∈ run /\ x <> t) as Hmem.
  { intros x. rewrite (elem_of_Permutation_proper x _ _ Hperm), elem_of_cons. split.
    - intros Hx. split; [by right|]. intros ->. done.
    - intros [[->|Hx] Hne]; done. }
  assert (length (delete index run) <= length run) as Hlen.
  { rewrite (Permutation_length Hperm). cbn. lia. }
  constructor; unfold phaseOf, uncounted; cbn; try done.
  - intros t'. rewrite Hmem, Hrun, (phase_insert tk t w Removed t' _ Ht).
    destruct (decide (t' = t)) as [->|Hne].
    + split; [by intros [_ ?]|]. intros (ph & [= <-] & ?). done.
    + split; [by intros [? _]|done].
  - lia.
  - destruct pc as [|snapshot|]; try done.
    destruct Hmain as (H1 & H2 & H3 & H4). repeat split; try done.
    intros x Hx. apply H4. by apply Hmem in Hx as [? _].
  - rewrite length_insert. lia.
  - by rewrite length_insert.
  - by rewrite (wallets_insert tk t w Counted Removed Ht).
Qed.

Lemma taskSettles_inv flowsToDispatch d t d' :
  DInv flowsToDispatch d -> taskSettles t d = Some d' ->
  DInv flowsToDispatch d'.
Proof.
  intros [Hnd Hrun Hlim Hmain Hcnt Hdis Hplan] Hstep. unfold taskSettles in Hstep.
  destruct (tasks d !! t) as [[w [| | |]]|] eqn:Ht; try done.
  injection Hstep as <-.
  destruct d as [pl pc run tk succ fail over].
  unfold phaseOf, uncounted in *. cbn in *.
  pose proof (count_insert isFlowing tk t (w, Removed) (w, Settled) Ht) as Hc.
  cbn in Hc.
  constructor; unfold phaseOf, uncounted; cbn; try done.
  - intros t'. rewrite Hrun, (phase_insert tk t w Settled t' _ Ht).
    destruct (decide (t' = t)) as [->|Hne]; [|done].
    rewrite Ht. cbn. split; intros (ph & [= <-] & ?); done.
  - rewrite length_insert. lia.
  - by rewrite length_insert.
  - by rewrite (wallets_insert tk t w Removed Settled Ht).
Qed.

Lemma dispatcherStep_inv flowsToDispatch l d d' :
  DInv flowsToDispatch d -> dispatcherStep l d = Some d' -> DInv flowsToDispatch d'.
Proof.
  intros HI Hstep. destruct l as [|t ok|t|t]; cbn in Hstep.
  - by apply mainStep_inv with d.
  - by apply flowSettles_inv with d t ok.
  - by apply finallyCallback_inv with d t.
  - by apply taskSettles_inv with d t.
Qed.

Lemma dispatcherRun_inv flowsToDispatch ls d d' :
  DInv flowsToDispatch d -> dispatcherRun ls d = Some d' -> DInv flowsToDispatch d'.
Proof.
  revert d. induction ls as [|l ls IH]; intros d HI; cbn [dispatcherRun].
  - by intros [= <-].
  - destruct (dispatcherStep l d) as [d1|] eqn:Hl; [|done].
    apply IH. by apply dispatcherStep_inv with l d.
Qed.

Lemma dispatched_inv flowsToDispatch d :
  dispatched flowsToDispatch d -> DInv flowsToDispatch d.
Proof.
  intros [ls Hls]. apply dispatcherRun_inv with ls (newDispatcher flowsToDispatch);
    [apply newDispatcher_inv|done].
Qed.

Lemma racedDispatcher_dispatched : dispatched (replicate 200 0) racedDispatcher.
Proof. exists raceTrace. by vm_compute. Qed.

Lemma finishedDispatcher_dispatched : dispatched [0; 1; 0] finishedDispatcher.
Proof. exists shortTrace. by vm_compute. Qed.

End DispatcherProofs.

(** X20. In every state of the dispatch loop [runningTasks] holds
    at most [MAX_CONCURRENT_TASKS] = 150 promises, none of them twice, and
    they are the flows whose [finally] callback has not run. *)
Theorem X20_running_tasks_stay_within_the_limit
    (flowsToDispatch : list nat) (d : Mint.Dispatcher) :
  Mint.dispatched flowsToDispatch d ->
  length (Mint.runningTasks d) <= Mint.MAX_CONCURRENT_TASKS /\
  NoDup (Mint.runningTasks d) /\
  forall t, t ∈ Mint.runningTasks d <->
    exists ph, Mint.phaseOf d t = Some ph /\ Mint.inArray ph = true.
Proof.
  intros Hd. destruct (dispatched_inv _ _ Hd). done.
Qed.

Lemma X20_running_tasks_stay_within_the_limit_witness :
  length (Mint.runningTasks Mint.racedDispatcher) <= Mint.MAX_CONCURRENT_TASKS.
Proof.
  refine (proj1 (X20_running_tasks_stay_within_the_limit (replicate 200 0)
                   Mint.racedDispatcher _)).
  exact racedDispatcher_dispatched.
Defined.

(** X21. Every dispatched flow is counted once:
    [successfulTransactions + failedTransactions] plus the flows whose
    outcome is still open is the number dispatched; the flows are
    dispatched in the order of the plan; main leaves the two loops only
    when every planned flow has been dispatched; and in a state where
    every planned flow has been dispatched and [runningTasks] is empty, the
    two counters add up to the number of flows planned. *)
Theorem X21_every_flow_is_counted_once
    (flowsToDispatch : list nat) (d : Mint.Dispatcher) :
  Mint.dispatched flowsToDispatch d ->
  Mint.successfulTransactions d + Mint.failedTransactions d + Mint.uncounted d
  = Mint.overallDispatchedCount d /\
  (fst <$> Mint.tasks d) ++ Mint.plan d = flowsToDispatch /\
  Mint.overallDispatchedCount d + length (Mint.plan d) = length flowsToDispatch /\
  (Mint.mainPc d = Mint.LoopsLeft -> Mint.plan d = []) /\
  (Mint.plan d = [] -> Mint.runningTasks d = [] ->
   Mint.successfulTransactions d + Mint.failedTransactions d = length flowsToDispatch).
Proof.
  intros Hd. destruct (dispatched_inv _ _ Hd) as [Hnd Hrun Hlim Hmain Hcnt Hdis Hplan].
  assert (Mint.overallDispatchedCount d + length (Mint.plan d) = length flowsToDispatch)
    as Hlen.
  { rewrite <- Hplan, length_app, length_fmap. lia. }
  split; [lia|]. split; [done|]. split; [done|]. split.
  { intros Hpc. by rewrite Hpc in Hmain. }
  intros Hp Hr.
  assert (Mint.uncounted d = 0) as Hz.
  { unfold Mint.uncounted.
    destruct (filter (fun x => Mint.isFlowing x = true) (Mint.tasks d)) as [|x l] eqn:Hf;
      [done|exfalso].
    assert (x ∈ filter (fun x => Mint.isFlowing x = true) (Mint.tasks d)) as Hx
      by (rewrite Hf; left).
    apply list_elem_of_filter in Hx as [Hfl Hx].
    apply list_elem_of_lookup in Hx as [t Ht].
    assert (t ∈ Mint.runningTasks d) as Hin.
    { apply Hrun. exists Mint.Flowing. unfold Mint.phaseOf. rewrite Ht.
      destruct x as [w ph]. cbn in Hfl. by destruct ph. }
    rewrite Hr in Hin. by apply elem_of_nil in Hin. }
  rewrite Hp in Hlen. cbn in Hlen. lia.
Qed.

Lemma X21_every_flow_is_counted_once_witness :
  Mint.successfulTransactions Mint.finishedDispatcher
  + Mint.failedTransactions Mint.finishedDispatcher = 3.
Proof.
  refine (proj2 (proj2 (proj2 (proj2 (X21_every_flow_is_counted_once [0; 1; 0]
                   Mint.finishedDispatcher _)))) _ _).
  - exact finishedDispatcher_dispatched.
  - reflexivity.
  - reflexivity.
Defined.


(** ** The order of dispatch *)

Section PlanOrder.
Import Mint.

Lemma partitionSpec_blocks k m base rem :
  partitionSpec (seq k m) base rem =
  seq k m ≫= fun w => replicate (base + (if w <? k + rem then 1 else 0)) w.
Proof.
  revert k rem. induction m as [|m IH]; intros k rem; [done|].
  cbn [seq partitionSpec]. rewrite bind_cons. f_equal.
  - destruct (Nat.ltb_spec 0 rem); destruct (Nat.ltb_spec k (k + rem)); try lia.
    + by rewrite Nat.add_1_r.
    + by rewrite Nat.add_0_r.
  - rewrite IH. apply Forall_bind_ext, Forall_forall. intros w Hw.
    apply elem_of_seq in Hw.
    destruct (Nat.ltb_spec w (S k + (rem - 1))); destruct (Nat.ltb_spec w (k + rem));
      try done; lia.
Qed.

End PlanOrder.



Section FirstWallet.
Import Mint.

Lemma dispatchPlan_first total n :
  1 <= n ->
  exists rest, dispatchPlan total n = replicate (share total n 0) 0 ++ rest.
Proof.
  intros Hn. rewrite (dispatchPlan_spec total n Hn), partitionSpec_blocks.
  destruct n as [|n]; [lia|]. cbn [seq]. rewrite bind_cons. eauto.
Qed.

End FirstWallet.

(** X25. As long as no more flows have been dispatched than the
    first wallet's share, every flow dispatched so far is for the first
    wallet: with a share of at least [MAX_CONCURRENT_TASKS] all the flows
    that run at the same time belong to one wallet, whose lock lets them
    through one at a time. *)
Theorem X25_first_flows_are_all_for_the_first_wallet
    (total n : nat) (d : Mint.Dispatcher) :
  1 <= n ->
  Mint.dispatched (Mint.dispatchPlan total n) d ->
  Mint.overallDispatchedCount d <= Mint.share total n 0 ->
  Forall (fun x => fst x = 0) (Mint.tasks d).
Proof.
  intros Hn Hd Hfew.
  destruct (dispatched_inv _ _ Hd) as [_ _ _ _ _ Hdis Hplan].
  destruct (dispatchPlan_first total n Hn) as [rest Hfirst].
  rewrite Hfirst in Hplan.
  apply Forall_lookup. intros t [w ph] Ht. cbn.
  assert ((Mint.tasks d).*1 !! t = Some w) as Hw.
  { by rewrite list_lookup_fmap, Ht. }
  assert (t < Mint.share total n 0) as Hlt.
  { apply lookup_lt_Some in Ht. lia. }
  assert ((replicate (Mint.share total n 0) 0 ++ rest) !! t = Some w) as Hw'.
  { rewrite <- Hplan. by apply lookup_app_l_Some. }
  rewrite lookup_app_l in Hw' by (by rewrite length_replicate).
  by apply lookup_replicate in Hw' as [-> _].
Qed.

Lemma X25_first_flows_are_all_for_the_first_wallet_witness :
  Forall (fun x => fst x = 0) (Mint.tasks Mint.twoWalletRace).
Proof.
  refine (X25_first_flows_are_all_for_the_first_wallet 400 2 Mint.twoWalletRace _ _ _).
  - lia.
  - exists Mint.raceTrace. by vm_compute.
  - vm_compute. lia.
Defined.


(** ** The request and the receipt *)

Section SendProofs.
Import ProxySend.

Lemma prepare_raw cfg task req :
  prepare cfg task = RawRequest req ->
  req = defaultTo cfg (txOptions task ∪ rawFields cfg task).
Proof.
  unfold prepare.
  destruct (truthy (methodName task) && isString (methodName task)
            && startsWith (methodName task) "0x"
            && (length (methodArgs task) =? 0)).
  - by intros [= <-].
  - by destruct ((0 <? length (contractAbi cfg)) && truthy (methodName task)).
Qed.

Lemma defaultTo_other cfg req k :
  k <> "to" -> defaultTo cfg req !! k = req !! k.
Proof.
  intros Hk. unfold defaultTo.
  destruct (negb (truthy (property req "to")) && truthy (contractAddress cfg));
    [|done].
  apply lookup_insert_ne. congruence.
Qed.

Lemma rawFields_nonce cfg task : rawFields cfg task !! "nonce" = Some (taskNonce task).
Proof.
  unfold rawFields.
  rewrite lookup_insert_ne by done. rewrite lookup_insert_ne by done.
  by rewrite lookup_insert_eq.
Qed.

Lemma rawFields_data cfg task : rawFields cfg task !! "data" = Some (methodName task).
Proof.
  unfold rawFields. rewrite lookup_insert_ne by done.
  by rewrite lookup_insert_eq.
Qed.

Lemma prepare_no_abi cfg task :
  contractAbi cfg = [] ->
  (exists req, prepare cfg task = RawRequest req) \/ prepare cfg task = InsufficientData.
Proof.
  intros Habi. unfold prepare. rewrite Habi.
  destruct (truthy (methodName task) && isString (methodName task)
            && startsWith (methodName task) "0x"
            && (length (methodArgs task) =? 0)); [left; eauto|by right].
Qed.

End SendProofs.

(** X22. In the request built for raw data every property of
    [txOptions] replaces the one the pool would have written: the nonce
    sent is the task's nonce only if [txOptions] has no [nonce], the same
    for [data]; a truthy [to] of [txOptions] is kept; and with a truthy
    contract address the request always has a truthy [to]. *)
Theorem X22_options_override_the_request
    (cfg : ProxySend.PoolConfig) (task : ProxySend.TaskData) (req : gmap string ProxySend.JsValue) :
  ProxySend.prepare cfg task = ProxySend.RawRequest req ->
  (forall k v, k <> "to" -> ProxySend.txOptions task !! k = Some v -> req !! k = Some v) /\
  (ProxySend.txOptions task !! "nonce" = None ->
   req !! "nonce" = Some (ProxySend.taskNonce task)) /\
  (ProxySend.txOptions task !! "data" = None ->
   req !! "data" = Some (ProxySend.methodName task)) /\
  (ProxySend.truthy (ProxySend.property (ProxySend.txOptions task) "to") = true ->
   req !! "to" = ProxySend.txOptions task !! "to") /\
  (ProxySend.truthy (ProxySend.contractAddress cfg) = true ->
   ProxySend.truthy (ProxySend.property req "to") = true).
Proof.
  intros Hreq. apply prepare_raw in Hreq as ->.
  repeat split.
  - intros k v Hk Hv. rewrite defaultTo_other by done.
    by apply lookup_union_Some_l.
  - intros Hn. rewrite defaultTo_other by done.
    by rewrite lookup_union_r, rawFields_nonce.
  - intros Hd. rewrite defaultTo_other by done.
    by rewrite lookup_union_r, rawFields_data.
  - intros Hto. unfold ProxySend.property in Hto.
    destruct (ProxySend.txOptions task !! "to") as [v|] eqn:Hv; [|done].
    cbn in Hto. unfold ProxySend.defaultTo, ProxySend.property.
    rewrite (lookup_union_Some_l _ _ _ _ Hv). cbn. rewrite Hto. cbn.
    by apply lookup_union_Some_l.
  - intros Haddr. unfold ProxySend.defaultTo.
    destruct (ProxySend.truthy
                (ProxySend.property
                   (ProxySend.txOptions task ∪ ProxySend.rawFields cfg task) "to"))
      eqn:Hto; cbn [negb andb]; [done|].
    rewrite Haddr. unfold ProxySend.property. by rewrite lookup_insert_eq.
Qed.

Lemma X22_options_override_the_request_witness :
  ProxySend.defaultTo (ProxySend.mintConfig 0)
    (ProxySend.txOptions (ProxySend.mintTask "0x252dba42" 7)
     ∪ ProxySend.rawFields (ProxySend.mintConfig 0) (ProxySend.mintTask "0x252dba42" 7))
  !! "nonce" = Some (ProxySend.JsNumber 7).
Proof.
  refine (proj1 (proj2 (X22_options_override_the_request (ProxySend.mintConfig 0)
            (ProxySend.mintTask "0x252dba42" 7) _ _)) _).
  - reflexivity.
  - vm_compute. reflexivity.
Defined.

(** X23. With an empty ABI, and the message of an error thrown by
    [wait] made of ASCII characters, the [try] block throws exactly when
    the task is not raw data with an empty argument list, or
    [sendTransaction] throws, or confirmations are awaited and [wait]
    throws an error whose message, in lower case, does not contain "full
    block not allowed"; every receipt the
    pool writes itself has status 1; and when no confirmation is required
    the receipt is written without calling [wait]. *)
Theorem X23_what_makes_a_send_fail
    (cfg : ProxySend.PoolConfig) (task : ProxySend.TaskData) (a : ProxySend.SendAnswer) :
  ProxySend.contractAbi cfg = [] ->
  (forall message,
     a = ProxySend.Sent (ProxySend.WaitThrows message) ->
     Mint.isAscii message = true) ->
  exists o,
    ProxySend.tryBlock cfg task a = Some o /\
    (o = ProxySend.Throws <->
       ProxySend.prepare cfg task = ProxySend.InsufficientData \/
       a = ProxySend.SendThrows \/
       ((0 < ProxySend.confirmations cfg)%Z /\
        exists message,
          a = ProxySend.Sent (ProxySend.WaitThrows message) /\
          Mint.includes (Mint.toLowerCase message) "full block not allowed" = false)) /\
    (forall r, o = ProxySend.Resolves r ->
       ProxySend.receiptStatus r = ProxySend.JsNumber 1 \/
       exists status,
         a = ProxySend.Sent (ProxySend.WaitReceipt status) /\
         status <> ProxySend.JsUndefined /\ ProxySend.receiptStatus r = status) /\
    ((ProxySend.confirmations cfg <= 0)%Z ->
     forall w, a = ProxySend.Sent w ->
       ProxySend.prepare cfg task = ProxySend.InsufficientData \/
       exists r, o = ProxySend.Resolves r /\
                 ProxySend.receiptMethod r = "standard_sendTransaction_no_wait").
Proof.
  intros Habi _. unfold ProxySend.tryBlock.
  destruct (prepare_no_abi cfg task Habi) as [[req Hreq]|Hins].
  2:{ rewrite Hins. exists ProxySend.Throws. split; [done|].
      split; [split; [by left|done]|]. split; [done|]. intros _ w _. by left. }
  rewrite Hreq. exists (ProxySend.afterSend cfg a). split; [done|].
  unfold ProxySend.afterSend.
  destruct a as [w|].
  2:{ split; [split; [by right; left|done]|]. split; [done|]. by intros _ w [=]. }
  destruct (Z.ltb_spec 0 (ProxySend.confirmations cfg)) as [Hpos|Hnon].
  - destruct w as [status| |msg].
    + split; [split; [done|]|].
      { intros [H|[H|(_ & m & H & _)]]; congruence. }
      split; [|intros; lia].
      intros r [= <-]. cbn. destruct status; try (right; eexists; by repeat split).
      by left.
    + split; [split; [done|]|].
      { intros [H|[H|(_ & m & H & _)]]; congruence. }
      split; [|intros; lia]. intros r [= <-]. by left.
    + destruct (Mint.includes (Mint.toLowerCase msg) "full block not allowed") eqn:Hfull.
      * split; [split; [done|]|].
        { intros [H|[H|(_ & m & [= <-] & H)]]; congruence. }
        split; [|intros; lia]. intros r [= <-]. by left.
      * split; [split; [intros _|done]|].
        { right. right. split; [done|]. by exists msg. }
        split; [done|intros; lia].
  - split; [split; [done|]|].
    { intros [H|[H|(H & _)]]; [congruence|congruence|lia]. }
    split; [intros r [= <-]; by left|].
    intros _ w' _. right. eexists. by split.
Qed.

Lemma X23_what_makes_a_send_fail_witness :
  exists o,
    ProxySend.tryBlock (ProxySend.mintConfig 1) (ProxySend.mintTask "0x252dba42" 7)
      (ProxySend.Sent (ProxySend.WaitThrows "Full block not allowed")) = Some o /\
    ProxySend.outcomeOf o = ProxyManager.Receipt.
Proof.
  destruct (X23_what_makes_a_send_fail (ProxySend.mintConfig 1)
              (ProxySend.mintTask "0x252dba42" 7)
              (ProxySend.Sent (ProxySend.WaitThrows "Full block not allowed")) eq_refl)
    as (o & Ho & _).
  { intros message [= <-]. reflexivity. }
  exists o. split; [exact Ho|].
  vm_compute in Ho. injection Ho as <-. reflexivity.
Defined.
